(** * Context caching, content ingestion and session search of the chat client

    A shallow embedding of
    - the cache breakpoint planner ([withCache], [injectCacheControl]),
    - the token accounting cache ([computePreviewMetadata]),
    - the content ingestion pipeline ([preprocessFile] and its backends),
    - the session search engine ([_searchSessions], [searchSessions]),
    followed by the properties established about them.

    JavaScript strings are modelled by [string] (code units below 256),
    numbers by [Z], plain objects used as dictionaries by [gmap string _],
    arrays by [list], optional fields by [option]. *)

From Stdlib Require Import ZArith Ascii String.
From stdpp Require Import gmap strings list.

Set Warnings "-register-all".
Local Open Scope string_scope.
Local Open Scope Z_scope.

(** ** JSON payloads *)

(** The provider-option values of a prompt message are JSON values. *)
Inductive JSONValue : Type :=
  | JNull
  | JBool (b : bool)
  | JNumber (z : Z)
  | JString (s : string)
  | JArray (items : list JSONValue)
  | JObject (fields : list (string * JSONValue)).

(** ** The cache breakpoint planner *)

Module Planner.

Inductive Role := system | user | assistant | tool.

Definition role_eqb (a b : Role) : bool :=
  match a, b with
  | system, system | user, user | assistant, assistant | tool, tool => true
  | _, _ => false
  end.

(** [providerOptions] is a two-level dictionary: provider name, then
    option name.  The field is optional on a message. *)
Record Message := mkMessage {
  role : Role;
  content : JSONValue;
  providerOptions : option (gmap string (gmap string JSONValue));
}.

(** [const CACHE_CONTROL = { type: 'ephemeral' }] *)
Definition CACHE_CONTROL : JSONValue := JObject [("type", JString "ephemeral")].

(** [withCache]: the object spreads copy every field; the two literal keys
    written after a spread override the copied ones. *)
Definition withCache (msg : Message) : Message :=
  let po := default ∅ (providerOptions msg) in
  let anthropic := default ∅ (po !! "anthropic") in
  {| role := role msg;
     content := content msg;
     providerOptions :=
       Some (<["anthropic" := <["cacheControl" := CACHE_CONTROL]> anthropic]> po) |}.

(** [Array.prototype.findIndex]: the first index whose element satisfies
    the predicate, [-1] when there is none. *)
Fixpoint findIndex {A} (p : A → bool) (l : list A) : Z :=
  match l with
  | [] => -1
  | x :: rest =>
      if p x then 0
      else let r := findIndex p rest in if r =? -1 then -1 else 1 + r
  end.

(** [result[i] = withCache(result[i])] for an index inside the array.  The
    planner only ever writes inside the array: [findIndex] answers [-1] or an
    index of the array, and [length - 2] is used from length 3 on.  For an
    index outside it this value-level model leaves the array as it is; the
    heap-level model below shows that the case does not arise. *)
Definition mark_at (i : Z) (result : list Message) : list Message :=
  if 0 <=? i then
    match result !! Z.to_nat i with
    | Some m => <[Z.to_nat i := withCache m]> result
    | None => result
    end
  else result.

Definition injectCacheControl (prompt : list Message) : list Message :=
  if Z.of_nat (length prompt) =? 0 then prompt
  else
    let result := prompt in
    (* 1. System message *)
    let sysIdx := findIndex (λ m, role_eqb (role m) system) result in
    let result := if negb (sysIdx =? -1) then mark_at sysIdx result else result in
    (* 2. Second-to-last message, only if it differs from the system message *)
    if 3 <=? Z.of_nat (length result) then
      let targetIdx := Z.of_nat (length result) - 2 in
      if negb (targetIdx =? sysIdx) then mark_at targetIdx result else result
    else result.

(** A message carries a CacheMarker when [providerOptions.anthropic] has a
    [cacheControl] entry. *)
Definition cacheControl_of (m : Message) : option JSONValue :=
  po ← providerOptions m; a ← po !! "anthropic"; a !! "cacheControl".

Definition hasMarker (m : Message) : bool :=
  match cacheControl_of m with Some _ => true | None => false end.

Definition isSystem (m : Message) : bool := role_eqb (role m) system.

(** Number of messages of a prompt that carry a marker. *)
Fixpoint markers (p : list Message) : nat :=
  match p with
  | [] => 0%nat
  | m :: rest => ((if hasMarker m then 1 else 0) + markers rest)%nat
  end.

(** The option dictionaries of a message, empty when the field is absent
    (the [?? {}] of the source). *)
Definition options_of (m : Message) : gmap string (gmap string JSONValue) :=
  default ∅ (providerOptions m).

Definition anthropic_of (m : Message) : gmap string JSONValue :=
  default ∅ (options_of m !! "anthropic").

(** The positions the planner writes to in a prompt [p]: the index found by
    [findIndex], and [length - 2] when the prompt has at least 3 messages. *)
Definition planned (p : list Message) (j : nat) : bool :=
  (Z.of_nat j =? findIndex isSystem p)
  || ((3 <=? Z.of_nat (length p)) && (Z.of_nat j =? Z.of_nat (length p) - 2)).

(** [i] is the index of the first system-role message of [p]. *)
Definition first_system (p : list Message) (i : nat) : Prop :=
  (∃ m, p !! i = Some m ∧ isSystem m = true)
  ∧ ∀ j y, (j < i)%nat → p !! j = Some y → isSystem y = false.

Definition no_system (p : list Message) : Prop :=
  ∀ m, m ∈ p → isSystem m = false.

(** No message of [p] carries a marker yet. *)
Definition unmarked (p : list Message) : Prop :=
  ∀ m, m ∈ p → hasMarker m = false.

(** The placement rule in the words of the specification, for one prompt:
    every system-role message is marked, the second-to-last message is marked
    when it is not that system message, short prompts and prompts without a
    system message get no other marker, and there are never more than two. *)
Definition placement_as_worded (p : list Message) : Prop :=
  let out := injectCacheControl p in
  (p = [] → out = p)
  ∧ (∀ s m, p !! s = Some m → isSystem m = true →
       hasMarker <$> out !! s = Some true)
  ∧ (∀ s m, p !! s = Some m → isSystem m = true →
       (3 ≤ length p)%nat → (length p - 2)%nat ≠ s →
       hasMarker <$> out !! (length p - 2)%nat = Some true)
  ∧ (length p = 1%nat ∨ length p = 2%nat →
       ∀ j, hasMarker <$> out !! j = Some true → isSystem <$> p !! j = Some true)
  ∧ (no_system p →
       (markers out ≤ 1)%nat
       ∧ ∀ j, hasMarker <$> out !! j = Some true → j = (length p - 2)%nat)
  ∧ (markers out ≤ 2)%nat.

(** Sample messages. *)
Definition plain (r : Role) (text : string) : Message :=
  {| role := r; content := JString text; providerOptions := None |}.

Definition two_systems : list Message := [plain system "a"; plain system "b"].

Definition premarked (r : Role) (text : string) : Message :=
  {| role := r; content := JString text;
     providerOptions := Some {[ "anthropic" := {[ "cacheControl" := CACHE_CONTROL ]} ]} |}.


Definition three_premarked : list Message :=
  [premarked user "a"; premarked assistant "b"; premarked user "c"].

Definition scenario_B : list Message :=
  [plain system "s"; plain user "u"; plain assistant "a"].

End Planner.

(** ** The planner over a heap of objects

    The planner receives a reference to an array of references to message
    objects.  To speak about what the call writes and what it returns by
    reference, the same code is modelled once more over an explicit heap. *)

Module PlannerHeap.
Import Planner.

Definition loc := positive.

Inductive Obj :=
  | OMessage (m : Message)
  | OArray (elems : list loc).

Abbreviation Heap := (gmap loc Obj).

(** Heap computations; [None] is a run-time [TypeError] (a reference that is
    not what the code expects). *)
Definition HeapOp (A : Type) : Type := Heap → option (A * Heap).

Definition alloc (o : Obj) (h : Heap) : loc * Heap :=
  let l := fresh (dom h) in (l, <[l := o]> h).

Definition read_array (a : loc) (h : Heap) : option (list loc) :=
  match h !! a with Some (OArray elems) => Some elems | _ => None end.

Definition read_message (l : loc) (h : Heap) : option Message :=
  match h !! l with Some (OMessage m) => Some m | _ => None end.

(** [a[i] = v] for [i] inside the array. *)
Definition write_index (a : loc) (i : nat) (v : loc) (h : Heap) : option Heap :=
  elems ← read_array a h;
  Some (<[a := OArray (<[i := v]> elems)]> h).

(** [findIndex] reads the [role] of each element in turn, stopping at the
    first system message. *)
Fixpoint findIndex_system (h : Heap) (elems : list loc) : option Z :=
  match elems with
  | [] => Some (-1)
  | l :: rest =>
      m ← read_message l h;
      if isSystem m then Some 0
      else r ← findIndex_system h rest; Some (if r =? -1 then -1 else 1 + r)
  end.

(** [result[i] = withCache(result[i])]: a fresh message object is allocated
    and its reference stored in the array [result].  Outside the array
    [result[i]] is [undefined], on which [withCache] raises. *)
Definition mark_at (result : loc) (i : Z) (h : Heap) : option Heap :=
  elems ← read_array result h;
  l ← (if i <? 0 then None else elems !! Z.to_nat i);
  m ← read_message l h;
  let '(l', h') := alloc (OMessage (withCache m)) h in
  write_index result (Z.to_nat i) l' h'.

Definition injectCacheControl (prompt : loc) : HeapOp loc := λ h,
  elems ← read_array prompt h;
  if Z.of_nat (length elems) =? 0 then Some (prompt, h)
  else
    (* const result = [...prompt] *)
    let '(result, h) := alloc (OArray elems) h in
    (* 1. System message *)
    current ← read_array result h;
    sysIdx ← findIndex_system h current;
    h ← (if negb (sysIdx =? -1) then mark_at result sysIdx h else Some h);
    (* 2. Second-to-last message, only if it differs from the system message *)
    current ← read_array result h;
    if 3 <=? Z.of_nat (length current) then
      let targetIdx := Z.of_nat (length current) - 2 in
      h ← (if negb (targetIdx =? sysIdx) then mark_at result targetIdx h else Some h);
      Some (result, h)
    else Some (result, h).

(** The value of a prompt: the messages its elements refer to. *)
Definition deref (h : Heap) (a : loc) : option (list Message) :=
  elems ← read_array a h; mapM (λ l, read_message l h) elems.

(** [es] refers, in [h], to the messages [ms]. *)
Definition refers (h : Heap) (es : list loc) (ms : list Message) : Prop :=
  Forall2 (λ l m, read_message l h = Some m) es ms.

(** A heap holding the prompt [msgs] at the returned location. *)
Fixpoint store_messages (msgs : list Message) (h : Heap) : list loc * Heap :=
  match msgs with
  | [] => ([], h)
  | m :: rest =>
      let '(l, h) := alloc (OMessage m) h in
      let '(ls, h) := store_messages rest h in
      (l :: ls, h)
  end.

Definition store_prompt (msgs : list Message) : loc * Heap :=
  let '(ls, h) := store_messages msgs ∅ in alloc (OArray ls) h.

Definition empty_prompt : loc * Heap := store_prompt [].

Definition scenario_B_heap : loc * Heap := store_prompt scenario_B.

(** The purity contract in the words of the specification, for one call:
    the call returns, nothing that existed before it is written, and the
    result is a new sequence holding the planned prompt. *)
Definition purity_as_worded (prompt : loc) (h : Heap) : Prop :=
  ∃ out h' msgs,
    injectCacheControl prompt h = Some (out, h')
    ∧ deref h prompt = Some msgs
    ∧ (∀ l o, h !! l = Some o → h' !! l = Some o)
    ∧ h !! out = None
    ∧ deref h' out = Some (Planner.injectCacheControl msgs).

End PlannerHeap.

(** ** Token accounting and content ingestion *)

Module Ingestion.

(** What a failing step throws: an [Error] carrying its message, or some
    value that is not an [Error]. *)
Inductive Thrown :=
  | ThrownError (message : string)
  | ThrownValue.

Definition Exc (A : Type) : Type := Thrown + A.

#[global] Instance Exc_ret : MRet Exc := λ A a, inr a.
#[global] Instance Exc_bind : MBind Exc := λ A B k m,
  match m with inl e => inl e | inr a => k a end.

(** JavaScript truthiness of a string, and of a string that may be
    [null] or [undefined]. *)
Definition truthy (s : string) : bool := negb (String.eqb s "").

Definition truthy_opt (o : option string) : bool :=
  match o with Some s => truthy s | None => false end.

(** [content.split('\n')]: always at least one segment. *)
Fixpoint split_lines (s : string) : list string :=
  match s with
  | EmptyString => [""]
  | String c rest =>
      if Ascii.eqb c "010"%char then "" :: split_lines rest
      else match split_lines rest with
           | first :: others => String c first :: others
           | [] => [String c ""]
           end
  end.

(** [segments.join('\n')] *)
Fixpoint join_lines (segments : list string) : string :=
  match segments with
  | [] => ""
  | [x] => x
  | x :: rest => x +:+ String "010"%char (join_lines rest)
  end.

(** [new TextEncoder().encode(content).length] for a string of code units
    below 256: one byte below 128, two bytes from 128 on. *)
Fixpoint utf8_length (s : string) : Z :=
  match s with
  | EmptyString => 0
  | String c rest => (if (nat_of_ascii c <? 128)%nat then 1 else 2) + utf8_length rest
  end.

Record File := mkFile {
  file_name : string;
  file_type : string;
  file_size : Z;
}.

Definition SessionSettings := gmap string JSONValue.

Inductive TokenizerType := tokenizer_default | tokenizer_deepseek.

(** The literal types ['default' | 'deepseek']. *)
Definition tokenizer_name (t : TokenizerType) : string :=
  match t with tokenizer_default => "default" | tokenizer_deepseek => "deepseek" end.

Record ModelRef := mkModelRef { provider : string; modelId : string }.

(** [tokenizerType === 'deepseek' ? { provider: '', modelId: 'deepseek' } : undefined] *)
Definition tokenizer_model (t : TokenizerType) : option ModelRef :=
  match t with
  | tokenizer_deepseek => Some {| provider := ""; modelId := "deepseek" |}
  | tokenizer_default => None
  end.

Definition preview_key (t : TokenizerType) : string := tokenizer_name t +:+ "_preview".

Inductive ParserType :=
  | parser_none
  | parser_local
  | parser_chatbox_ai
  | parser_mineru
  | parser_other (name : string).

Record MineruConfig := { apiToken : option string }.

Record DocumentParserConfig := {
  parser_type : ParserType;
  mineru : option MineruConfig;
}.

(** Result of [platform.parseFileLocally]. *)
Record LocalParseResult := { isSupported : bool; key : option string }.

(** Result of [platform.parseFileWithMineru]; an absent [cancelled] or
    [success] reads as [false]. *)
Record MineruResult := {
  success : bool;
  mineru_content : option string;
  cancelled : bool;
}.

(** The content store: blobs, and the token maps stored as items. *)
Record Storage := mkStorage {
  blobs : gmap string string;
  items : gmap string (gmap string Z);
}.

Inductive StorageOp :=
  | GetBlob (k : string)
  | SetBlob (k : string)
  | GetItem (k : string)
  | SetItem (k : string).

(** Invocations of a parser backend. *)
Inductive BackendCall :=
  | CallLocalParser (f : File)
  | CallChatboxAI (licenseKey : string) (f : File)
  | CallMineru (f : File) (token : string).

(** The state the pipeline runs in: the content store, the number of storage
    operations issued so far, and the backend invocations made so far. *)
Record World := mkWorld {
  storage : Storage;
  ticks : nat;
  backendCalls : list BackendCall;
}.

(** The collaborators of the pipeline.  Constants and helpers that live
    outside these sources ([PREVIEW_LINES], [TOKEN_CACHE_KEYS],
    [StorageKeyGenerator.fileUniqKey], [isTextFilePath], [estimateTokens]),
    the settings read from the stores, and the platform and remote backends.
    [storageFault t op] is the value a storage operation [op] issued as the
    [t]-th one rejects with, if it does. *)
Record Env := mkEnv {
  PREVIEW_LINES : nat;
  TOKEN_CACHE_KEYS_default : string;
  TOKEN_CACHE_KEYS_deepseek : string;
  estimateTokens : string → option ModelRef → Exc Z;
  fileUniqKey : File → Exc string;
  isTextFilePath : string → bool;
  getEffectiveDocumentParserConfig : DocumentParserConfig;
  getCurrentTokenizerType : TokenizerType;
  getLicenseKey : option string;
  dateNow : nat → Z;
  storageFault : nat → StorageOp → option Thrown;
  parseFileLocally : File → Storage → Exc LocalParseResult * Storage;
  uploadAndCreateUserFile : string → File → Storage → Exc string * Storage;
  parseFileWithMineru : option (File → string → Storage → Exc MineruResult * Storage);
}.

Record PreviewMetadata := {
  meta_lineCount : Z;
  meta_byteLength : Z;
  meta_tokenCountMap : gmap string Z;
  meta_tokenCalculatedAt : gmap string Z;
}.

(** What a backend hands back. *)
Record Parsed := {
  parsed_content : string;
  parsed_storageKey : string;
  parsed_tokenCountMap : gmap string Z;
}.

(** The value [preprocessFile] resolves to; optional fields are options. *)
Record PreprocessedFile := {
  file : File;
  content : string;
  storageKey : string;
  tokenCountMap : option (gmap string Z);
  lineCount : option Z;
  byteLength : option Z;
  error : option string;
}.

(** Computations of the pipeline: they read and write the world and either
    return or throw; what was written before a throw stays written. *)
Definition M (A : Type) : Type := World → Exc A * World.

#[global] Instance M_ret : MRet M := λ A a w, (inr a, w).
#[global] Instance M_bind : MBind M := λ A B k m w,
  match m w with
  | (inl e, w') => (inl e, w')
  | (inr a, w') => k a w'
  end.

Definition throw {A} (e : Thrown) : M A := λ w, (inl e, w).

(** [try { m } catch (error) { handler error }] *)
Definition try_catch {A} (m : M A) (handler : Thrown → M A) : M A := λ w,
  match m w with
  | (inl e, w') => handler e w'
  | (inr a, w') => (inr a, w')
  end.

Definition lift {A} (r : Exc A) : M A := λ w, (r, w).

Section Pipeline.
Context (env : Env).

(** [Date.now()] is passed in as [now]; the callers modelled here always
    supply [existingTokenMap].  Calls to the logger are left out
    throughout. *)
Definition computePreviewMetadata (content : string) (tokenizerType : TokenizerType)
    (existingTokenMap : gmap string Z) (now : Z) : Exc PreviewMetadata :=
  let lineCount := Z.of_nat (length (split_lines content)) in
  let byteLength := utf8_length content in
  let previewContent := join_lines (take (PREVIEW_LINES env) (split_lines content)) in
  let tokenCountMap := existingTokenMap in
  let tokenCalculatedAt : gmap string Z := ∅ in
  (* Only calculate for the specified tokenizer *)
  let fullKey := tokenizer_name tokenizerType in
  let previewKey := tokenizer_name tokenizerType +:+ "_preview" in
  '(tokenCountMap, tokenCalculatedAt) ←
    match tokenCountMap !! fullKey with
    | None =>
        n ← estimateTokens env content (tokenizer_model tokenizerType);
        mret (<[fullKey := n]> tokenCountMap, <[fullKey := now]> tokenCalculatedAt)
    | Some _ => mret (tokenCountMap, tokenCalculatedAt)
    end;
  n ← estimateTokens env previewContent (tokenizer_model tokenizerType);
  mret {| meta_lineCount := lineCount;
          meta_byteLength := byteLength;
          meta_tokenCountMap := <[previewKey := n]> tokenCountMap;
          meta_tokenCalculatedAt := <[previewKey := now]> tokenCalculatedAt |}.

(** *** Storage and backends *)

Definition storage_op {A} (op : StorageOp) (run : Storage → A * Storage) : M A := λ w,
  match storageFault env (ticks w) op with
  | Some e => (inl e, mkWorld (storage w) (S (ticks w)) (backendCalls w))
  | None =>
      let '(a, st) := run (storage w) in
      (inr a, mkWorld st (S (ticks w)) (backendCalls w))
  end.

Definition storage_getBlob (k : string) : M (option string) :=
  storage_op (GetBlob k) (λ st, (blobs st !! k, st)).

Definition storage_setBlob (k v : string) : M () :=
  storage_op (SetBlob k) (λ st, ((), mkStorage (<[k := v]> (blobs st)) (items st))).

Definition storage_getItem (k : string) (initial : gmap string Z) : M (gmap string Z) :=
  storage_op (GetItem k) (λ st, (default initial (items st !! k), st)).

Definition storage_setItem (k : string) (v : gmap string Z) : M () :=
  storage_op (SetItem k) (λ st, ((), mkStorage (blobs st) (<[k := v]> (items st)))).

Definition backend_call {A} (call : BackendCall) (run : Storage → Exc A * Storage) : M A := λ w,
  let '(r, st) := run (storage w) in
  (r, mkWorld st (ticks w) (backendCalls w ++ [call])).

Definition deepseek_model : option ModelRef := Some {| provider := ""; modelId := "deepseek" |}.

(** The token map every backend computes for non-empty content. *)
Definition both_token_counts (content : string) : Exc (gmap string Z) :=
  a ← estimateTokens env content None;
  b ← estimateTokens env content deepseek_model;
  mret (<[TOKEN_CACHE_KEYS_deepseek env := b]> (<[TOKEN_CACHE_KEYS_default env := a]> ∅)).

(** [(await storage.getBlob(k).catch(() => '')) || ''] *)
Definition getBlob_or_empty (k : string) : M string :=
  got ← try_catch (storage_getBlob k) (λ _, mret (Some ""));
  mret (default "" got).

Definition tokenMap_key (uniqKey : string) : string := uniqKey +:+ "_tokenMap".

(** Parse file using local parser (desktop only) *)
Definition parseFileWithLocalParser (file : File) (uniqKey : string) : M Parsed :=
  result ← backend_call (CallLocalParser file) (parseFileLocally env file);
  if negb (isSupported result) || negb (truthy_opt (key result))
  then throw (ThrownError "local_parser_failed")
  else
    content ← getBlob_or_empty (default "" (key result));
    _ ← (if truthy content then storage_setBlob uniqKey content else mret ());
    tokenCountMap ← (if truthy content then lift (both_token_counts content) else mret ∅);
    _ ← (if truthy content then storage_setItem (tokenMap_key uniqKey) tokenCountMap else mret ());
    mret {| parsed_content := content; parsed_storageKey := uniqKey;
            parsed_tokenCountMap := tokenCountMap |}.

(** Parse file using Chatbox AI cloud service *)
Definition parseFileWithChatboxAI (file : File) (uniqKey : string) : M Parsed :=
  let licenseKey := getLicenseKey env in
  let licenseKey := if truthy_opt licenseKey then default "" licenseKey else "" in
  uploadedKey ← backend_call (CallChatboxAI licenseKey file)
                  (uploadAndCreateUserFile env licenseKey file);
  content ← getBlob_or_empty uploadedKey;
  _ ← (if truthy content then storage_setBlob uniqKey content else mret ());
  tokenCountMap ← (if truthy content then lift (both_token_counts content) else mret ∅);
  _ ← (if truthy content then storage_setItem (tokenMap_key uniqKey) tokenCountMap else mret ());
  mret {| parsed_content := content; parsed_storageKey := uniqKey;
          parsed_tokenCountMap := tokenCountMap |}.

(** Parse file using MinerU service (Desktop only) *)
Definition parseFileWithMineruService (file : File) (uniqKey : string) (token : string)
    : M Parsed :=
  match parseFileWithMineru env with
  | None => throw (ThrownError "third_party_parser_not_supported_in_chat")
  | Some platform_parseFileWithMineru =>
      result ← backend_call (CallMineru file token) (platform_parseFileWithMineru file token);
      (* Handle cancellation - throw a special error that will be caught silently *)
      if cancelled result then throw (ThrownError "parsing_cancelled")
      else if negb (success result) || negb (truthy_opt (mineru_content result))
      then throw (ThrownError "third_party_parser_failed")
      else
        let content := default "" (mineru_content result) in
        _ ← storage_setBlob uniqKey content;
        tokenCountMap ← lift (both_token_counts content);
        _ ← storage_setItem (tokenMap_key uniqKey) tokenCountMap;
        mret {| parsed_content := content; parsed_storageKey := uniqKey;
                parsed_tokenCountMap := tokenCountMap |}
  end.

(** [Date.now()], read off the world's clock. *)
Definition date_now : M Z := λ w, (inr (dateNow env (ticks w)), w).

(** The [try] block of [preprocessFile]. *)
Definition preprocessFile_try (file0 : File) (settings : SessionSettings) : M PreprocessedFile :=
  uniqKey ← lift (fileUniqKey env file0);
  (* Check if file has already been processed (cache hit) *)
  existingContent ← try_catch (storage_getBlob uniqKey) (λ _, mret None);
  if truthy_opt existingContent then
    let existingContent := default "" existingContent in
    existingTokenMap ← storage_getItem (tokenMap_key uniqKey) ∅;
    let tokenizerType := getCurrentTokenizerType env in
    now ← date_now;
    meta ← lift (computePreviewMetadata existingContent tokenizerType existingTokenMap now);
    _ ← storage_setItem (tokenMap_key uniqKey) (meta_tokenCountMap meta);
    mret {| file := file0; content := existingContent; storageKey := uniqKey;
            tokenCountMap := Some (meta_tokenCountMap meta);
            lineCount := Some (meta_lineCount meta);
            byteLength := Some (meta_byteLength meta);
            error := None |}
  else
    (* Get document parser configuration from global settings *)
    let parserConfig := getEffectiveDocumentParserConfig env in
    result ←
      (if isTextFilePath env (file_name file0) then
         (* Text files always use local parsing *)
         try_catch (parseFileWithLocalParser file0 uniqKey)
           (λ _, throw (ThrownError "local_parser_failed"))
       else
         (* Non-text files use the configured parser *)
         match parser_type parserConfig with
         | parser_none => throw (ThrownError "document_parser_not_configured")
         | parser_local =>
             try_catch (parseFileWithLocalParser file0 uniqKey)
               (λ _, throw (ThrownError "local_parser_failed"))
         | parser_chatbox_ai =>
             try_catch (parseFileWithChatboxAI file0 uniqKey)
               (λ _, throw (ThrownError "chatbox_ai_parser_failed"))
         | parser_mineru =>
             let token := mineru parserConfig ≫= apiToken in
             if negb (truthy_opt token) then throw (ThrownError "mineru_api_token_required")
             else
               try_catch (parseFileWithMineruService file0 uniqKey (default "" token))
                 (λ error0,
                    (* Re-throw known errors, wrap unknown ones *)
                    match error0 with
                    | ThrownError message =>
                        if String.prefix "third_party_parser" message then throw error0
                        else throw (ThrownError "third_party_parser_failed")
                    | ThrownValue => throw (ThrownError "third_party_parser_failed")
                    end)
         | parser_other _ => throw (ThrownError "document_parser_not_configured")
         end);
    let tokenizerType := getCurrentTokenizerType env in
    now ← date_now;
    meta ← lift (computePreviewMetadata (parsed_content result) tokenizerType
                   (parsed_tokenCountMap result) now);
    _ ← storage_setItem (tokenMap_key (parsed_storageKey result)) (meta_tokenCountMap meta);
    mret {| file := file0; content := parsed_content result;
            storageKey := parsed_storageKey result;
            tokenCountMap := Some (meta_tokenCountMap meta);
            lineCount := Some (meta_lineCount meta);
            byteLength := Some (meta_byteLength meta);
            error := None |}.

(** [error instanceof Error ? error.message : 'Unknown error'] *)
Definition error_message (e : Thrown) : string :=
  match e with ThrownError message => message | ThrownValue => "Unknown error" end.

Definition preprocessFile (file0 : File) (settings : SessionSettings) : M PreprocessedFile :=
  try_catch (preprocessFile_try file0 settings)
    (λ error0,
       mret {| file := file0; content := ""; storageKey := "";
               tokenCountMap := None; lineCount := None; byteLength := None;
               error := Some (error_message error0) |}).

End Pipeline.

(** The value returned by the [catch] block of [preprocessFile]. *)
Definition error_result (f : File) (e : Thrown) : PreprocessedFile :=
  {| file := f; content := ""; storageKey := "";
     tokenCountMap := None; lineCount := None; byteLength := None;
     error := Some (error_message e) |}.

(** *** Statements about computations *)

(** Every value [m] can throw satisfies [E]; every value it can return
    satisfies [Q]. *)
Definition throws_only {A} (E : Thrown → Prop) (m : M A) : Prop :=
  ∀ w e w', m w = (inl e, w') → E e.

Definition returns_only {A} (Q : A → Prop) (m : M A) : Prop :=
  ∀ w a w', m w = (inr a, w') → Q a.

(** A thrown value whose reported message is not the empty string. *)
Definition reportable (e : Thrown) : Prop := error_message e ≠ "".

(** Key derivation, the content store and the tokenizer never throw an
    [Error] with an empty message.  (Nothing is asked of the backends.) *)
Definition collaborators_reportable (env : Env) : Prop :=
  (∀ f e, fileUniqKey env f = inl e → reportable e)
  ∧ (∀ t op e, storageFault env t op = Some e → reportable e)
  ∧ (∀ c sel e, estimateTokens env c sel = inl e → reportable e).

(** The failure policy in the words of the specification, for one call: a
    normal return, with the error field absent, or with a non-empty error
    string and empty content and key. *)
Definition failure_policy_as_worded (env : Env) (f : File) (settings : SessionSettings)
    (w : World) : Prop :=
  ∃ res w', preprocessFile env f settings w = (inr res, w')
    ∧ (error res = None
       ∨ ∃ msg, error res = Some msg ∧ msg ≠ "" ∧ content res = "" ∧ storageKey res = "").

(** Idempotence of ingestion in the words of the specification, for one
    call on a store that holds non-empty content under the file's key: no
    backend is invoked and the stored content is returned. *)
Definition cache_hit_as_worded (env : Env) (f : File) (settings : SessionSettings)
    (w : World) : Prop :=
  ∀ uniqKey stored,
    fileUniqKey env f = inr uniqKey →
    blobs (storage w) !! uniqKey = Some stored → stored ≠ "" →
    ∃ res w', preprocessFile env f settings w = (inr res, w')
      ∧ backendCalls w' = backendCalls w
      ∧ content res = stored.

(** *** Sample collaborators *)

Definition count_chars (c : string) (sel : option ModelRef) : Exc Z :=
  inr (Z.of_nat (String.length c)).

Definition mineru_with_token : DocumentParserConfig :=
  {| parser_type := parser_mineru; mineru := Some {| apiToken := Some "tok" |} |}.

(** A platform whose MinerU parse is cancelled by the user. *)
Definition cancelled_parse (f : File) (token : string) (st : Storage)
    : Exc MineruResult * Storage :=
  (inr {| success := false; mineru_content := None; cancelled := true |}, st).

Definition sample_env (keyOf : File → Exc string)
    (fault : nat → StorageOp → option Thrown) : Env :=
  {| PREVIEW_LINES := 2;
     TOKEN_CACHE_KEYS_default := "default";
     TOKEN_CACHE_KEYS_deepseek := "deepseek";
     estimateTokens := count_chars;
     fileUniqKey := keyOf;
     isTextFilePath := λ name, String.eqb name "notes.txt";
     getEffectiveDocumentParserConfig := mineru_with_token;
     getCurrentTokenizerType := tokenizer_default;
     getLicenseKey := None;
     dateNow := λ t, 1000 + Z.of_nat t;
     storageFault := fault;
     parseFileLocally := λ f st, (inr {| isSupported := false; key := None |}, st);
     uploadAndCreateUserFile := λ licenseKey f st, (inl ThrownValue, st);
     parseFileWithMineru := Some cancelled_parse |}.

Definition key_by_name (f : File) : Exc string := inr ("file:" +:+ file_name f).

Definition no_fault (t : nat) (op : StorageOp) : option Thrown := None.

(** A store whose writes of items are rejected. *)
Definition setItem_rejected (t : nat) (op : StorageOp) : option Thrown :=
  match op with SetItem _ => Some (ThrownError "QuotaExceededError") | _ => None end.

(** A key derivation that throws [new Error()]. *)
Definition key_throws_blank (f : File) : Exc string := inl (ThrownError "").

Definition report_pdf : File :=
  {| file_name := "report.pdf"; file_type := "application/pdf"; file_size := 2048 |}.

Definition empty_world : World := mkWorld (mkStorage ∅ ∅) 0 [].

(** A store that already holds the content of [report.pdf], with its
    [default] token slot. *)
Definition ingested_world : World :=
  mkWorld (mkStorage {[ "file:report.pdf" := "alpha" ]}
                     {[ "file:report.pdf_tokenMap" := {[ "default" := 7 ]} ]}) 0 [].

End Ingestion.

(** ** Session search *)

Module Search.

Import Ingestion.

(** A chat message of a session; what lies beyond its id is kept as JSON and
    read through [getMessageText]. *)
Record Message := mkMessage {
  message_id : string;
  message_body : JSONValue;
}.

Record SessionThread := mkThread {
  thread_id : string;
  thread_name : string;
  thread_messages : list Message;
  createdAt : Z;
}.

Record Session := mkSession {
  session_id : string;
  session_name : string;
  messages : list Message;
  threads : option (list SessionThread);
}.

Record SessionMeta := mkMeta {
  meta_id : string;
  meta_name : string;
}.

(** [{ ...session, messages }] *)
Definition with_messages (session : Session) (matched : list Message) : Session :=
  {| session_id := session_id session;
     session_name := session_name session;
     messages := matched;
     threads := threads session |}.

(** The collaborators of the search: the helpers that live outside these
    sources ([getMessageText], [migrateMessage], [migrateSession],
    [sortSessions], [StorageKeyGenerator.session]), the regular-expression
    engine ([regexp_test source text] is [new RegExp(source, 'i').test(text)]),
    and the session store ([getItem] on a key resolves to the stored session,
    to [null], or rejects). *)
Record Env := mkEnv {
  getMessageText : Message → string;
  migrateMessage : Message → Message;
  migrateSession : Session → Session;
  sortSessions : list SessionMeta → list SessionMeta;
  session_key : string → string;
  regexp_test : string → string → bool;
  getItem_session : string → Exc (option Session);
  getItem_sessionsList : Exc (list SessionMeta);
}.

(** What one run of the search does: the batches handed to [onResult]
    (when the caller supplied one), in order; the sessions handed to
    [_searchSessions], in order; and whether the run completed or was
    rejected. *)
Record Run := mkRun {
  emitted : list (list Session);
  scanned : list Session;
  outcome : Exc ();
}.

(** Characters matched by [/[-[\]{}()*+?.,\\^$|#\s]/]. *)
Definition is_space (c : ascii) : bool :=
  existsb (Nat.eqb (nat_of_ascii c)) [9; 10; 11; 12; 13; 32; 160]%nat.

Definition is_special (c : ascii) : bool :=
  existsb (Ascii.eqb c) (list_ascii_of_string "-[]{}()*+?.,\^$|#") || is_space c.

(** [searchInput.replace(/[-[\]{}()*+?.,\\^$|#\s]/g, '\\$&')] *)
Fixpoint escape (s : string) : string :=
  match s with
  | EmptyString => EmptyString
  | String c rest =>
      if is_special c then String "\"%char (String c (escape rest))
      else String c (escape rest)
  end.

(** Total number of messages in the emitted batches. *)
Definition matched_count (batches : list (list Session)) : Z :=
  Z.of_nat (length (flat_map (λ batch, flat_map messages batch) batches)).

Section Engine.
Context (env : Env).

(** The loops run from the last element down to the first and push each
    match: a filter of the reversed list. *)
Definition matching (regexp : string) (l : list Message) : list Message :=
  List.filter (λ message, regexp_test env regexp (getMessageText env message)) (rev l).

Definition _searchSessions (regexp : string) (s : Session) : list Message :=
  let session := migrateSession env s in
  let matchedMessages := matching regexp (messages session) in
  let matchedMessages :=
    match threads session with
    | Some ths =>
        (matchedMessages ++ flat_map (λ thread, matching regexp (thread_messages thread)) (rev ths))%list
    | None => matchedMessages
    end in
  map (migrateMessage env) matchedMessages.

(** [emitBatch]: the batches passed on to [onResult]. *)
Definition emitBatch (batch : list Session) : list (list Session) :=
  if Z.of_nat (length batch) =? 0 then [] else [batch].

(** The [for (const sessionMeta of sessionsList)] loop, entered with the
    running [matchedMessageTotal]. *)
Fixpoint scan_sessions (regexp : string) (sessionsList : list SessionMeta)
    (matchedMessageTotal : Z) : Run :=
  match sessionsList with
  | [] => mkRun [] [] (inr ())
  | sessionMeta :: rest =>
      match getItem_session env (session_key env (meta_id sessionMeta)) with
      | inl e => mkRun [] [] (inl e)
      | inr None => scan_sessions regexp rest matchedMessageTotal
      | inr (Some session) =>
          let messages := _searchSessions regexp session in
          let found := 0 <? Z.of_nat (length messages) in
          let matchedMessageTotal :=
            if found then matchedMessageTotal + Z.of_nat (length messages)
            else matchedMessageTotal in
          let batch := if found then emitBatch [with_messages session messages] else [] in
          if 50 <=? matchedMessageTotal then mkRun batch [session] (inr ())
          else
            let later := scan_sessions regexp rest matchedMessageTotal in
            mkRun (batch ++ emitted later)%list (session :: scanned later) (outcome later)
      end
  end.

Definition searchSessions (searchInput : string) (sessionId : option string) : Run :=
  let safeInput := escape searchInput in
  let regexp := safeInput in
  let matchedMessageTotal := 0 in
  if truthy_opt sessionId then
    match getItem_session env (session_key env (default "" sessionId)) with
    | inl e => mkRun [] [] (inl e)
    | inr None => mkRun [] [] (inr ())
    | inr (Some session) =>
        let matchedMessages := _searchSessions regexp session in
        mkRun (emitBatch [with_messages session matchedMessages]) [session] (inr ())
    end
  else
    match getItem_sessionsList env with
    | inl e => mkRun [] [] (inl e)
    | inr list => scan_sessions regexp (sortSessions env list) matchedMessageTotal
    end.

(** The sessions of [sessionsList] that the store holds, in order. *)
Fixpoint stored_sessions (sessionsList : list SessionMeta) : list Session :=
  match sessionsList with
  | [] => []
  | sessionMeta :: rest =>
      match getItem_session env (session_key env (meta_id sessionMeta)) with
      | inr (Some session) => session :: stored_sessions rest
      | _ => stored_sessions rest
      end
  end.

(** No load of a session of [sessionsList] is rejected. *)
Definition all_load (sessionsList : list SessionMeta) : Prop :=
  ∀ sessionMeta, sessionMeta ∈ sessionsList →
    ∃ r, getItem_session env (session_key env (meta_id sessionMeta)) = inr r.

(** The batches a list of scanned sessions gives rise to. *)
Definition batches_of (regexp : string) (sessions : list Session) : list (list Session) :=
  flat_map (λ session,
    match _searchSessions regexp session with
    | [] => []
    | matched => [[with_messages session matched]]
    end) sessions.

End Engine.

(** *** Sample store *)

Definition text_message (id text : string) : Message := mkMessage id (JString text).

Definition body_text (m : Message) : string :=
  match message_body m with JString s => s | _ => "" end.

(** A stand-in for the regular-expression engine on patterns without
    metacharacters: substring search. *)
Definition contains (source text : string) : bool :=
  match index 0 source text with Some _ => true | None => false end.

Definition sample_env (sessions : list Session) : Env :=
  {| getMessageText := body_text;
     migrateMessage := λ m, m;
     migrateSession := λ s, s;
     sortSessions := λ l, l;
     session_key := λ id, "session:" +:+ id;
     regexp_test := contains;
     getItem_session := λ k,
       inr (List.find (λ s, String.eqb ("session:" +:+ session_id s) k) sessions);
     getItem_sessionsList :=
       inr (map (λ s, mkMeta (session_id s) (session_name s)) sessions) |}.

Definition session_one : Session :=
  mkSession "s1" "first" [text_message "a1" "hello"; text_message "a2" "all good"] None.

Definition session_two : Session :=
  mkSession "s2" "second"
    [text_message "b1" "saw errorXYZ today"; text_message "b2" "nothing"; text_message "b3" "errorXYZ again"]
    (Some [mkThread "t1" "old" [text_message "c1" "errorXYZ before"; text_message "c2" "fine"] 17]).

Definition session_three : Session :=
  mkSession "s3" "third" [text_message "d1" "bye"] (Some []).

Definition scenario_D : Env := sample_env [session_one; session_two; session_three].

(** A session with [n] matching messages. *)
Definition busy_session (id : string) (n : nat) : Session :=
  mkSession id id (replicate n (text_message "m" "errorXYZ")) None.

Definition cap_store : Env :=
  sample_env [busy_session "a" 48; busy_session "b" 5; busy_session "c" 1].

Definition one_busy : Env := sample_env [busy_session "a" 60].

End Search.

(** ** Session records: message lists, thread history, export, settings *)

Module Sessions.

Import Ingestion Search.

(** [getAllMessageList]: the messages of the archived threads, in order,
    followed by the live messages. *)
Definition getAllMessageList (s : Session) : list Message :=
  let messageContext :=
    match threads s with
    | Some ths =>
        foldl (λ messageContext thread, (messageContext ++ thread_messages thread)%list) [] ths
    | None => []
    end in
  (messageContext ++ messages s)%list.

(** An entry of the thread history; [createdAt] and its label are absent on
    the entry of the current thread. *)
Record SessionThreadBrief := mkBrief {
  brief_id : string;
  brief_name : string;
  brief_createdAt : option Z;
  brief_createdAtLabel : option string;
  firstMessageId : string;
  messageCount : Z;
}.

(** The entry written for an archived thread whose first message is
    [first]; [dateLabel] stands for [new Date(t).toLocaleString()]. *)
Definition thread_brief (dateLabel : Z → string) (thread : SessionThread) (first : Message)
    : SessionThreadBrief :=
  {| brief_id := thread_id thread;
     brief_name := thread_name thread;
     brief_createdAt := Some (createdAt thread);
     brief_createdAtLabel := Some (dateLabel (createdAt thread));
     firstMessageId := message_id first;
     messageCount := Z.of_nat (length (thread_messages thread)) |}.

(** The entry written for the current thread; [threadName] is the field
    [s.threadName], which the record [Session] leaves out. *)
Definition current_brief (s : Session) (threadName : option string) (first : Message)
    : SessionThreadBrief :=
  {| brief_id := session_id s;
     brief_name := if truthy_opt threadName then default "" threadName else "";
     brief_createdAt := None;
     brief_createdAtLabel := None;
     firstMessageId := message_id first;
     messageCount := Z.of_nat (length (messages s)) |}.

(** One iteration of [for (const thread of s.threads)]: empty threads are
    skipped, the others are written under the id of their first message. *)
Definition add_thread (dateLabel : Z → string)
    (ret : gmap string SessionThreadBrief) (thread : SessionThread)
    : gmap string SessionThreadBrief :=
  match thread_messages thread with
  | [] => ret
  | first :: _ => <[message_id first := thread_brief dateLabel thread first]> ret
  end.

Definition getCurrentThreadHistoryHash (dateLabel : Z → string) (s : Session)
    (threadName : option string) : gmap string SessionThreadBrief :=
  let ret : gmap string SessionThreadBrief := ∅ in
  match threads s with
  | Some ths =>
      let ret := foldl (add_thread dateLabel) ret ths in
      match messages s with
      | first :: _ => <[message_id first := current_brief s threadName first]> ret
      | [] => ret
      end
  | None => ret
  end.

(** The threads [exportChat] hands to a formatter: a copy of the archived
    threads when the scope is ['all_threads'], then the current thread. *)
Definition export_threads (session : Session) (threadName : option string)
    (scope : string) (now : Z) : list SessionThread :=
  let threads0 := if String.eqb scope "all_threads" then default [] (threads session) else [] in
  (threads0 ++ [ {| thread_id := session_id session;
                    thread_name := if truthy_opt threadName then default "" threadName
                                   else session_name session;
                    thread_messages := messages session;
                    createdAt := now |} ])%list.

(** The formatters of [@/lib/format-chat]. *)
Record Formatters := mkFormatters {
  formatChatAsMarkdown : string → list SessionThread → string;
  formatChatAsTxt : string → list SessionThread → string;
  formatChatAsHtml : string → list SessionThread → string;
}.

(** [exportChat]: the calls made to [platform.exporter.exportTextFile], as
    pairs of file name and content. *)
Definition exportChat (fmt : Formatters) (session : Session) (threadName : option string)
    (scope format : string) (now : Z) : list (string * string) :=
  let threads0 := export_threads session threadName scope now in
  if String.eqb format "Markdown" then
    [(session_name session +:+ ".md", formatChatAsMarkdown fmt (session_name session) threads0)]
  else if String.eqb format "TXT" then
    [(session_name session +:+ ".txt", formatChatAsTxt fmt (session_name session) threads0)]
  else if String.eqb format "HTML" then
    [(session_name session +:+ ".html", formatChatAsHtml fmt (session_name session) threads0)]
  else [].

(** Settings objects: a key may be present with the value [undefined]
    ([None]), which an object spread copies like any other value. *)
Abbreviation SettingsObject := (gmap string (option JSONValue)).

(** [{ ...a, ...b }] *)
Definition spread (a b : SettingsObject) : SettingsObject := b ∪ a.

Inductive SessionType := picture | chat.

(** The values [mergeSettings] takes from [shared/defaults]. *)
Record Defaults := mkDefaults {
  picture_imageGenerateNum : option JSONValue;
  picture_dalleStyle : option JSONValue;
  chat_maxContextMessageCount : option JSONValue;
}.

(** The object [mergeSettings] passes to [SessionSettingsSchema.parse]. *)
Definition merged_settings (defaults : Defaults) (globalSettings : SettingsObject)
    (sessionSetting : option SettingsObject) (sessionType : option SessionType)
    : SettingsObject :=
  match sessionSetting with
  | None => globalSettings
  | Some sessionSetting =>
      let typed : SettingsObject :=
        match sessionType with
        | Some picture =>
            <["dalleStyle" := picture_dalleStyle defaults]>
              (<["imageGenerateNum" := picture_imageGenerateNum defaults]> ∅)
        | _ => <["maxContextMessageCount" := chat_maxContextMessageCount defaults]> ∅
        end in
      spread (spread globalSettings typed) sessionSetting
  end.

Definition mergeSettings {A} (parse : SettingsObject → Exc A) (defaults : Defaults)
    (globalSettings : SettingsObject) (sessionSetting : option SettingsObject)
    (sessionType : option SessionType) : Exc A :=
  parse (merged_settings defaults globalSettings sessionSetting sessionType).


(** Sample records. *)
Definition empty_thread : SessionThread := mkThread "t0" "empty" [] 3.

Definition archived_session : Session :=
  mkSession "s9" "ninth" [text_message "m3" "now"]
    (Some [mkThread "t1" "one" [text_message "m1" "a"; text_message "m2" "b"] 5; empty_thread]).

(** Sample formatters: the ids of the exported messages, in order. *)
Definition message_ids : Formatters :=
  {| formatChatAsMarkdown := λ _ ths,
       String.concat "," (map message_id (flat_map thread_messages ths));
     formatChatAsTxt := λ _ ths,
       String.concat "," (map message_id (flat_map thread_messages ths));
     formatChatAsHtml := λ _ ths,
       String.concat "," (map message_id (flat_map thread_messages ths)) |}.

End Sessions.

(** ** Call settings of the Claude providers *)

Module Claude.

Section CallSettings.
(** JavaScript numbers pass through [getCallSettings] untouched; only their
    presence is tested. *)
Context {number : Type}.

(** The fields of [this.options] that [getCallSettings] reads. *)
Record Options := mkOptions {
  temperature : option number;
  topP : option number;
  maxOutputTokens : option number;
}.

Record CallSettings := mkCallSettings {
  call_providerOptions : gmap string (gmap string JSONValue);
  call_maxOutputTokens : option number;
  call_temperature : option number;
  call_topP : option number;
}.

(** [getCallSettings] of [Claude] and [CustomClaude]; [requested] is
    [options.providerOptions] of the call. *)
Definition getCallSettings (isModelSupportReasoning : bool) (this_options : Options)
    (requested : option (gmap string (gmap string JSONValue))) : CallSettings :=
  let providerOptions : gmap string (gmap string JSONValue) :=
    if isModelSupportReasoning
    then {[ "anthropic" := default ∅ (requested ≫= (.!! "claude")) ]}
    else ∅ in
  let callSettings :=
    {| call_providerOptions := providerOptions;
       call_maxOutputTokens := maxOutputTokens this_options;
       call_temperature := None;
       call_topP := None |} in
  (* Only include temperature or topP if defined, and only one of them *)
  match temperature this_options, topP this_options with
  | Some t, _ =>
      {| call_providerOptions := call_providerOptions callSettings;
         call_maxOutputTokens := call_maxOutputTokens callSettings;
         call_temperature := Some t;
         call_topP := call_topP callSettings |}
  | None, Some p =>
      {| call_providerOptions := call_providerOptions callSettings;
         call_maxOutputTokens := call_maxOutputTokens callSettings;
         call_temperature := call_temperature callSettings;
         call_topP := Some p |}
  | None, None => callSettings
  end.

End CallSettings.

End Claude.

(** ** Further statements about the ingestion pipeline *)

Module IngestionSpec.

Import Ingestion.

(** Number of line feeds in a string. *)
Fixpoint count_newlines (s : string) : nat :=
  match s with
  | EmptyString => 0%nat
  | String c rest => ((if Ascii.eqb c "010"%char then 1 else 0) + count_newlines rest)%nat
  end.

(** The error conditions raised by the parsing stage of [preprocessFile]:
    its named conditions, and whatever the MinerU handler lets through. *)
Definition parser_condition (msg : string) : Prop :=
  msg = "local_parser_failed"
  ∨ msg = "document_parser_not_configured"
  ∨ msg = "chatbox_ai_parser_failed"
  ∨ msg = "mineru_api_token_required"
  ∨ String.prefix "third_party_parser" msg = true.

(** A value thrown by key derivation, by the content store or by the
    tokenizer. *)
Definition collaborator_failure (env : Env) (e : Thrown) : Prop :=
  (∃ f, fileUniqKey env f = inl e)
  ∨ (∃ t op, storageFault env t op = Some e)
  ∨ (∃ c sel, estimateTokens env c sel = inl e).

(** [m] invokes at most [n] parser backends, each of them satisfying [Q],
    and forgets none of the invocations made before it. *)
Definition invokes {A} (n : nat) (Q : BackendCall → Prop) (m : M A) : Prop :=
  ∀ w, ∃ calls, backendCalls (m w).2 = (backendCalls w ++ calls)%list
                ∧ (length calls ≤ n)%nat ∧ Forall Q calls.

(** The backend invocations made on behalf of the file [f]. *)
Definition call_for (f : File) (call : BackendCall) : Prop :=
  match call with
  | CallLocalParser g | CallChatboxAI _ g | CallMineru g _ => g = f
  end.

(** A platform whose local parser leaves the text of a file under a
    temporary key. *)
Definition local_parse_to_temp (text : string) (f : File) (st : Storage)
    : Exc LocalParseResult * Storage :=
  (inr {| isSupported := true; key := Some "tmp" |},
   mkStorage (<["tmp" := text]> (blobs st)) (items st)).

Definition text_env (text : string) (fault : nat → StorageOp → option Thrown) : Env :=
  {| PREVIEW_LINES := 2;
     TOKEN_CACHE_KEYS_default := "default";
     TOKEN_CACHE_KEYS_deepseek := "deepseek";
     estimateTokens := count_chars;
     fileUniqKey := key_by_name;
     isTextFilePath := λ name, String.eqb name "notes.txt";
     getEffectiveDocumentParserConfig := {| parser_type := parser_none; mineru := None |};
     getCurrentTokenizerType := tokenizer_default;
     getLicenseKey := None;
     dateNow := λ t, 1000 + Z.of_nat t;
     storageFault := fault;
     parseFileLocally := local_parse_to_temp text;
     uploadAndCreateUserFile := λ licenseKey f st, (inl ThrownValue, st);
     parseFileWithMineru := None |}.

Definition notes_txt : File :=
  {| file_name := "notes.txt"; file_type := "text/plain"; file_size := 5 |}.

(** The collaborators as a later call finds them.  The tokenizer selection
    ([getCurrentTokenizerType] reads [lastUsedModelStore]), the document
    parser configuration and the licence key are read from the stores anew
    at every call and may have changed in between; everything else is as
    before. *)
Definition at_next_call (t : TokenizerType) (config : DocumentParserConfig)
    (licenseKey : option string) (env : Env) : Env :=
  {| PREVIEW_LINES := PREVIEW_LINES env;
     TOKEN_CACHE_KEYS_default := TOKEN_CACHE_KEYS_default env;
     TOKEN_CACHE_KEYS_deepseek := TOKEN_CACHE_KEYS_deepseek env;
     estimateTokens := estimateTokens env;
     fileUniqKey := fileUniqKey env;
     isTextFilePath := isTextFilePath env;
     getEffectiveDocumentParserConfig := config;
     getCurrentTokenizerType := t;
     getLicenseKey := licenseKey;
     dateNow := dateNow env;
     storageFault := storageFault env;
     parseFileLocally := parseFileLocally env;
     uploadAndCreateUserFile := uploadAndCreateUserFile env;
     parseFileWithMineru := parseFileWithMineru env |}.

Definition chatbox_ai_config : DocumentParserConfig :=
  {| parser_type := parser_chatbox_ai; mineru := None |}.

End IngestionSpec.

(** ** Link ingestion *)

Module Links.

Import Ingestion.

(** Invocations of a link parser. *)
Inductive LinkCall :=
  | CallParseUserLinkPro (licenseKey url : string)
  | CallParseUrl (url : string).

(** Results of [remote.parseUserLinkPro] and of [localParser.parseUrl]. *)
Record ParsedLinkPro := { pro_storageKey : string; pro_title : string }.
Record ParsedUrl := { local_key : string; local_title : string }.

(** The collaborators [preprocessLink] has beyond those of [preprocessFile]:
    the entitlement read by [settingActions.isPro], the key derivation
    [StorageKeyGenerator.linkUniqKey], the regular-expression engine
    ([match_title c] is the first group of
    [c.match(/<title[^>]*>([^<]+)<\/title>/i)], if it matches), and the two
    link parsers. *)
Record LinkEnv := mkLinkEnv {
  isPro : bool;
  linkUniqKey : string → Exc string;
  match_title : string → option string;
  parseUserLinkPro : string → string → Storage → Exc ParsedLinkPro * Storage;
  parseUrl : string → Storage → Exc ParsedUrl * Storage;
}.

(** The world of the file pipeline, with the link parser invocations made
    so far. *)
Record LinkWorld := mkLinkWorld {
  base : World;
  linkCalls : list LinkCall;
}.

Definition LM (A : Type) : Type := LinkWorld → Exc A * LinkWorld.

#[global] Instance LM_ret : MRet LM := λ A a w, (inr a, w).
#[global] Instance LM_bind : MBind LM := λ A B k m w,
  match m w with
  | (inl e, w') => (inl e, w')
  | (inr a, w') => k a w'
  end.

Definition link_catch {A} (m : LM A) (handler : Thrown → LM A) : LM A := λ w,
  match m w with
  | (inl e, w') => handler e w'
  | (inr a, w') => (inr a, w')
  end.

(** A step of the file pipeline, run on the underlying world. *)
Definition on_base {A} (m : M A) : LM A := λ w,
  let '(r, b) := m (base w) in (r, mkLinkWorld b (linkCalls w)).

Definition link_call {A} (call : LinkCall) (run : Storage → Exc A * Storage) : LM A := λ w,
  let '(r, st) := run (storage (base w)) in
  (r, mkLinkWorld (mkWorld st (ticks (base w)) (backendCalls (base w)))
        (linkCalls w ++ [call])).

Fixpoint drop_chars (n : nat) (s : string) : string :=
  match n, s with
  | O, _ => s
  | S n, String _ rest => drop_chars n rest
  | S _, EmptyString => EmptyString
  end.

(** [url.replace(/^https?:\/\//, '')] *)
Definition strip_scheme (url : string) : string :=
  if String.prefix "http://" url then drop_chars 7 url
  else if String.prefix "https://" url then drop_chars 8 url
  else url.

(** The value [preprocessLink] resolves to. *)
Record PreprocessedLink := {
  url : string;
  title : string;
  content : string;
  storageKey : string;
  tokenCountMap : option (gmap string Z);
  lineCount : option Z;
  byteLength : option Z;
  error : option string;
}.

Section LinkPipeline.
Context (env : Env) (lenv : LinkEnv).

(** The end shared by the two parsing branches: non-empty content is stored
    under the link's key and accounted for; empty content is returned with
    an empty token map and without line count or byte length. *)
Definition finish_link (url0 title0 uniqKey content0 : string) : LM PreprocessedLink :=
  (* store the content under the unique key *)
  _ ← (if truthy content0 then on_base (storage_setBlob env uniqKey content0) else mret ());
  let tokenizerType := getCurrentTokenizerType env in
  measured ←
    (if truthy content0 then
       now ← on_base (date_now env);
       meta ← on_base (lift (computePreviewMetadata env content0 tokenizerType ∅ now));
       mret (Some (meta_lineCount meta), Some (meta_byteLength meta), meta_tokenCountMap meta)
     else mret (None, None, ∅));
  let '(lineCount0, byteLength0, tokenCountMap0) := measured in
  _ ← (if truthy content0
       then on_base (storage_setItem env (tokenMap_key uniqKey) tokenCountMap0)
       else mret ());
  mret {| url := url0; title := title0; content := content0; storageKey := uniqKey;
          tokenCountMap := Some tokenCountMap0;
          lineCount := lineCount0; byteLength := byteLength0; error := None |}.

(** The [try] block of [preprocessLink]. *)
Definition preprocessLink_try (url0 : string) (settings : SessionSettings)
    : LM PreprocessedLink :=
  let isPro0 := isPro lenv in
  uniqKey ← on_base (lift (linkUniqKey lenv url0));
  (* has this link been processed before? *)
  existingContent ← link_catch (on_base (storage_getBlob env uniqKey)) (λ _, mret None);
  if truthy_opt existingContent then
    let existingContent := default "" existingContent in
    let title0 :=
      match match_title lenv existingContent with
      | Some t => t
      | None => strip_scheme url0
      end in
    existingTokenMap ← on_base (storage_getItem env (tokenMap_key uniqKey) ∅);
    let tokenizerType := getCurrentTokenizerType env in
    now ← on_base (date_now env);
    meta ← on_base (lift (computePreviewMetadata env existingContent tokenizerType
                            existingTokenMap now));
    _ ← on_base (storage_setItem env (tokenMap_key uniqKey) (meta_tokenCountMap meta));
    mret {| url := url0; title := title0; content := existingContent;
            storageKey := uniqKey;
            tokenCountMap := Some (meta_tokenCountMap meta);
            lineCount := Some (meta_lineCount meta);
            byteLength := Some (meta_byteLength meta);
            error := None |}
  else if isPro0 then
    (* remote parsing for entitled users *)
    let licenseKey := getLicenseKey env in
    let licenseKey := if truthy_opt licenseKey then default "" licenseKey else "" in
    parsed ← link_call (CallParseUserLinkPro licenseKey url0)
               (parseUserLinkPro lenv licenseKey url0);
    content0 ← on_base (getBlob_or_empty env (pro_storageKey parsed));
    finish_link url0 (pro_title parsed) uniqKey content0
  else
    (* local parsing of the link *)
    parsed ← link_call (CallParseUrl url0) (parseUrl lenv url0);
    content0 ← on_base (getBlob_or_empty env (local_key parsed));
    finish_link url0 (local_title parsed) uniqKey content0.

Definition preprocessLink (url0 : string) (settings : SessionSettings)
    : LM PreprocessedLink :=
  link_catch (preprocessLink_try url0 settings)
    (λ error0,
       mret {| url := url0; title := strip_scheme url0; content := ""; storageKey := "";
               tokenCountMap := None; lineCount := None; byteLength := None;
               error := Some (error_message error0) |}).

End LinkPipeline.

(** The store as the link parser selected for the user leaves it. *)
Definition left_by_parser (env : Env) (lenv : LinkEnv) (url0 : string) (st : Storage)
    : Storage :=
  if isPro lenv then
    (parseUserLinkPro lenv
       (if truthy_opt (getLicenseKey env) then default "" (getLicenseKey env) else "")
       url0 st).2
  else (parseUrl lenv url0 st).2.

(** [m] invokes at most [n] link parsers, each satisfying [Q], and never a
    file parser backend. *)
Definition link_invokes {A} (n : nat) (Q : LinkCall → Prop) (m : LM A) : Prop :=
  ∀ w, backendCalls (base (m w).2) = backendCalls (base w)
       ∧ ∃ calls, linkCalls (m w).2 = (linkCalls w ++ calls)%list
                  ∧ (length calls ≤ n)%nat ∧ Forall Q calls.

(** Sample collaborators: a local link parser that finds nothing. *)
Definition blank_page (url0 : string) (st : Storage) : Exc ParsedUrl * Storage :=
  (inr {| local_key := "tmp"; local_title := "Blank" |}, st).

Definition free_user : LinkEnv :=
  {| isPro := false;
     linkUniqKey := λ url0, inr ("link:" +:+ url0);
     match_title := λ _, None;
     parseUserLinkPro := λ _ _ st, (inl ThrownValue, st);
     parseUrl := blank_page |}.

Definition no_link_key : LinkEnv :=
  {| isPro := false;
     linkUniqKey := λ url0, inl (ThrownError "bad url");
     match_title := λ _, None;
     parseUserLinkPro := λ _ _ st, (inl ThrownValue, st);
     parseUrl := blank_page |}.

Definition fresh_link_world : LinkWorld := mkLinkWorld empty_world [].

End Links.

(** ** Sample store with a rejected load *)

Module SearchSpec.

Import Ingestion Search.

(** The store of [sample_env], except that loading the session stored under
    [bad_key] is rejected. *)
Definition rejecting_store (sessions : list Session) (bad_key : string) (e : Thrown) : Env :=
  {| getMessageText := body_text;
     migrateMessage := λ m, m;
     migrateSession := λ s, s;
     sortSessions := λ l, l;
     session_key := λ id, "session:" +:+ id;
     regexp_test := contains;
     getItem_session := λ k,
       if String.eqb k bad_key then inl e
       else inr (List.find (λ s, String.eqb ("session:" +:+ session_id s) k) sessions);
     getItem_sessionsList :=
       inr (map (λ s, mkMeta (session_id s) (session_name s)) sessions) |}.

Definition broken_third : Env :=
  rejecting_store [session_two; session_one; session_three] "session:s3"
    (ThrownError "read failed").


(** [copy] is a shallow copy of [session] with its [messages] field
    replaced by [matched]: [{ ...session, messages: matched }]. *)
Definition copy_with (session : Session) (matched : list Message) (copy : Session) : Prop :=
  messages copy = matched
  ∧ session_id copy = session_id session
  ∧ session_name copy = session_name session
  ∧ threads copy = threads session.


End SearchSpec.

(** * Properties *)

Import Planner.

Example inject_scenario_B :
  map hasMarker (injectCacheControl [plain system "s"; plain user "u"; plain assistant "a"])
  = [true; true; false].
Proof. vm_compute. reflexivity. Qed.

Example heap_scenario_B :
  let '(p, h) := PlannerHeap.store_prompt [plain system "s"; plain user "u"; plain assistant "a"] in
  (r ← PlannerHeap.injectCacheControl p h; PlannerHeap.deref r.2 r.1)
  = Some (injectCacheControl [plain system "s"; plain user "u"; plain assistant "a"]).
Proof. vm_compute. reflexivity. Qed.

(** ** The planner on values *)

Lemma findIndex_range {A} (p : A → bool) (l : list A) :
  findIndex p l = -1 ∨ (0 ≤ findIndex p l < Z.of_nat (length l)).
Proof.
  induction l as [|x l IH]; simpl; [by left|].
  destruct (p x); [right; lia|].
  destruct (Z.eqb_spec (findIndex p l) (-1)); [by left|].
  right. destruct IH; lia.
Qed.

Lemma findIndex_none {A} (p : A → bool) (l : list A) :
  findIndex p l = -1 ↔ ∀ x, x ∈ l → p x = false.
Proof.
  induction l as [|x l IH]; simpl.
  - split; [intros _ y Hy; inversion Hy | done].
  - destruct (p x) eqn:Hx.
    + split; [lia|]. intros H. specialize (H x (list_elem_of_here _ _)). congruence.
    + destruct (Z.eqb_spec (findIndex p l) (-1)) as [E|E].
      * split; [|done]. intros _ y Hy. apply elem_of_cons in Hy as [->|Hy]; [done|].
        by apply IH.
      * pose proof (findIndex_range p l) as Hr. split; [lia|].
        intros Hall. exfalso. apply E, IH. intros y Hy. apply Hall. by right.
Qed.

Lemma findIndex_first {A} (p : A → bool) (l : list A) (i : nat) :
  findIndex p l = Z.of_nat i →
  (∃ x, l !! i = Some x ∧ p x = true)
  ∧ ∀ j y, (j < i)%nat → l !! j = Some y → p y = false.
Proof.
  revert i. induction l as [|x l IH]; simpl; intros i Hi; [lia|].
  destruct (p x) eqn:Hx.
  - assert (i = 0%nat) as -> by lia. split; [by exists x | intros; lia].
  - destruct (Z.eqb_spec (findIndex p l) (-1)) as [E|E]; [lia|].
    destruct i as [|i]; [pose proof (findIndex_range p l); lia|].
    destruct (IH i) as [Hex Hbefore]; [lia|].
    split; [exact Hex|].
    intros [|j] y Hj Hy; simpl in Hy; [congruence|].
    apply (Hbefore j); [lia | done].
Qed.

Lemma mark_at_length i l : length (mark_at i l) = length l.
Proof.
  unfold mark_at. destruct (0 <=? i); [|done].
  destruct (l !! Z.to_nat i); [by rewrite length_insert | done].
Qed.

Lemma mark_at_lookup i l j :
  mark_at i l !! j
  = (if Z.of_nat j =? i then withCache else id) <$> l !! j.
Proof.
  unfold mark_at.
  destruct (Z.leb_spec 0 i) as [Hi|Hi].
  - destruct (l !! Z.to_nat i) as [m|] eqn:Hm.
    + destruct (Z.eqb_spec (Z.of_nat j) i) as [E|E].
      * assert (Z.to_nat i = j) as <- by lia.
        rewrite list_lookup_insert_eq; [by rewrite Hm | by eapply lookup_lt_Some].
      * rewrite list_lookup_insert_ne by lia. by destruct (l !! j).
    + destruct (Z.eqb_spec (Z.of_nat j) i) as [E|E].
      * assert (Z.to_nat i = j) as <- by lia. by rewrite Hm.
      * by destruct (l !! j).
  - destruct (Z.eqb_spec (Z.of_nat j) i); [lia|]. by destruct (l !! j).
Qed.

(** Each position of the output holds the input message, marked exactly at
    the planned positions. *)
Lemma injectCacheControl_lookup (p : list Message) (j : nat) :
  injectCacheControl p !! j
  = (if planned p j then withCache else id) <$> p !! j.
Proof.
  unfold injectCacheControl, planned. fold (@isSystem).
  change (λ m : Message, role_eqb (role m) system) with isSystem.
  destruct (Z.eqb_spec (Z.of_nat (length p)) 0) as [E0|E0].
  { destruct p; [|simpl in E0; lia]. by rewrite !lookup_nil. }
  set (s := findIndex isSystem p).
  assert (Hlen : length (if negb (s =? -1) then mark_at s p else p) = length p).
  { destruct (negb _); [apply mark_at_length | done]. }
  rewrite Hlen.
  assert (Hfirst : (if negb (s =? -1) then mark_at s p else p) !! j
                   = (if Z.of_nat j =? s then withCache else id) <$> p !! j).
  { destruct (Z.eqb_spec s (-1)) as [E|E]; simpl.
    - destruct (Z.eqb_spec (Z.of_nat j) s); [lia|]. by destruct (p !! j).
    - apply mark_at_lookup. }
  destruct (Z.leb_spec 3 (Z.of_nat (length p))) as [H3|H3]; simpl.
  - destruct (Z.eqb_spec (Z.of_nat (length p) - 2) s) as [Et|Et]; simpl.
    + rewrite Hfirst.
      destruct (Z.eqb_spec (Z.of_nat j) s), (Z.eqb_spec (Z.of_nat j) (Z.of_nat (length p) - 2));
        simpl; try done; lia.
    + rewrite mark_at_lookup, Hfirst.
      destruct (Z.eqb_spec (Z.of_nat j) s), (Z.eqb_spec (Z.of_nat j) (Z.of_nat (length p) - 2));
        simpl; try lia; by destruct (p !! j).
  - rewrite Hfirst. rewrite orb_false_r. done.
Qed.

Lemma injectCacheControl_length (p : list Message) :
  length (injectCacheControl p) = length p.
Proof.
  unfold injectCacheControl.
  destruct (Z.of_nat (length p) =? 0); [done|].
  assert (Hlen : ∀ s, length (if negb (s =? -1) then mark_at s p else p) = length p).
  { intros s. destruct (negb _); [apply mark_at_length | done]. }
  rewrite Hlen.
  destruct (3 <=? _); [|apply Hlen].
  destruct (negb _); [by rewrite mark_at_length | apply Hlen].
Qed.

Lemma findIndex_first_system (p : list Message) (i : nat) :
  findIndex isSystem p = Z.of_nat i ↔ first_system p i.
Proof.
  split; [apply findIndex_first|].
  intros [(m & Hm & Hsys) Hbefore].
  destruct (findIndex_range isSystem p) as [E|Hr].
  - apply findIndex_none with (x := m) in E; [congruence|].
    by eapply list_elem_of_lookup_2.
  - destruct (findIndex_first isSystem p (Z.to_nat (findIndex isSystem p)))
      as [(y & Hy & Hysys) Hbefore']; [lia|].
    destruct (Nat.lt_trichotomy (Z.to_nat (findIndex isSystem p)) i) as [Hlt|[Heq|Hgt]].
    + specialize (Hbefore _ _ Hlt Hy). congruence.
    + lia.
    + specialize (Hbefore' _ _ Hgt Hm). congruence.
Qed.

Lemma findIndex_no_system (p : list Message) :
  findIndex isSystem p = -1 ↔ no_system p.
Proof. apply findIndex_none. Qed.

Lemma withCache_cacheControl (m : Message) :
  cacheControl_of (withCache m) = Some CACHE_CONTROL.
Proof.
  unfold cacheControl_of, withCache; simpl.
  rewrite lookup_insert_eq; simpl. by rewrite lookup_insert_eq.
Qed.

Lemma withCache_hasMarker (m : Message) : hasMarker (withCache m) = true.
Proof. unfold hasMarker. by rewrite withCache_cacheControl. Qed.

Lemma markers_none (l : list Message) : unmarked l → markers l = 0%nat.
Proof.
  induction l as [|m l IH]; intros Hl; simpl; [done|].
  rewrite (Hl m) by apply list_elem_of_here.
  rewrite IH; [done|]. intros y Hy. apply Hl. by right.
Qed.

Lemma markers_at_most_one (l : list Message) (a : nat) :
  (∀ j, hasMarker <$> l !! j = Some true → j = a) → (markers l ≤ 1)%nat.
Proof.
  revert a. induction l as [|m l IH]; intros a Hl; simpl; [lia|].
  destruct (hasMarker m) eqn:Hm.
  - rewrite markers_none; [lia|].
    intros y Hy. apply list_elem_of_lookup_1 in Hy as [j Hj].
    destruct (hasMarker y) eqn:Hy; [|done].
    pose proof (Hl 0%nat) as H0. simpl in H0. rewrite Hm in H0. specialize (H0 eq_refl).
    pose proof (Hl (S j)) as HS. simpl in HS. rewrite Hj in HS. simpl in HS.
    rewrite Hy in HS. specialize (HS eq_refl). lia.
  - simpl. apply (IH (pred a)). intros j Hj.
    specialize (Hl (S j)). simpl in Hl. specialize (Hl Hj). lia.
Qed.

Lemma markers_at_most_two (l : list Message) (a b : nat) :
  (∀ j, hasMarker <$> l !! j = Some true → j = a ∨ j = b) → (markers l ≤ 2)%nat.
Proof.
  revert a b. induction l as [|m l IH]; intros a b Hl; simpl; [lia|].
  destruct (hasMarker m) eqn:Hm.
  - pose proof (Hl 0%nat) as H0. simpl in H0. rewrite Hm in H0. specialize (H0 eq_refl).
    enough (markers l ≤ 1)%nat by lia.
    destruct H0 as [<-|<-].
    + apply (markers_at_most_one l (pred b)). intros j Hj.
      specialize (Hl (S j)). simpl in Hl. specialize (Hl Hj). lia.
    + apply (markers_at_most_one l (pred a)). intros j Hj.
      specialize (Hl (S j)). simpl in Hl. specialize (Hl Hj). lia.
  - simpl. apply (IH (pred a) (pred b)). intros j Hj.
    specialize (Hl (S j)). simpl in Hl. specialize (Hl Hj). lia.
Qed.

(** On a prompt without markers, a marker in the output sits at a planned
    position. *)
Lemma marked_is_planned (p : list Message) (j : nat) :
  unmarked p →
  hasMarker <$> injectCacheControl p !! j = Some true → planned p j = true.
Proof.
  intros Hp. rewrite injectCacheControl_lookup.
  destruct (planned p j); [done|].
  destruct (p !! j) as [m|] eqn:Hm; simpl; [|done].
  rewrite (Hp m); [done|]. by eapply list_elem_of_lookup_2.
Qed.


(** C9. Attaching a marker changes only the [cacheControl] entry under
    [providerOptions.anthropic]: the role, the content, the options of every
    other provider and every other entry under [anthropic] are those of the
    input message, and [cacheControl] is [{ type: 'ephemeral' }]. *)
Theorem withCache_frame (msg : Message) :
  role (withCache msg) = role msg
  ∧ content (withCache msg) = content msg
  ∧ (∀ provider, provider ≠ "anthropic" →
       options_of (withCache msg) !! provider = options_of msg !! provider)
  ∧ (∀ key, key ≠ "cacheControl" →
       anthropic_of (withCache msg) !! key = anthropic_of msg !! key)
  ∧ anthropic_of (withCache msg) !! "cacheControl"
    = Some (JObject [("type", JString "ephemeral")]).
Proof.
  unfold anthropic_of, options_of, withCache; simpl.
  repeat split.
  - intros provider Hne. by rewrite lookup_insert_ne.
  - intros key Hne. rewrite lookup_insert_eq; simpl. by rewrite lookup_insert_ne.
  - rewrite lookup_insert_eq; simpl. by rewrite lookup_insert_eq.
Qed.

Lemma withCache_frame_witness :
  options_of (withCache (premarked user "a")) !! "openai"
  = options_of (premarked user "a") !! "openai"
  ∧ anthropic_of (withCache (plain user "a")) !! "other" = None.
Proof.
  split.
  - apply (withCache_frame (premarked user "a")). discriminate.
  - by rewrite (proj1 (proj2 (proj2 (proj2 (withCache_frame (plain user "a"))))) "other").
Defined.

(** C1, as worded, fails: a second system-role message is left without a
    marker, and markers already present on the input stay, so that an output
    can carry more than two. *)
Lemma placement_as_worded_fails :
  ¬ placement_as_worded two_systems ∧ ¬ placement_as_worded three_premarked.
Proof.
  split.
  - intros (_ & Hsys & _).
    specialize (Hsys 1%nat (plain system "b") eq_refl eq_refl).
    vm_compute in Hsys. discriminate.
  - intros (_ & _ & _ & _ & _ & Hle).
    vm_compute in Hle. lia.
Qed.

(** C1, amended.  The empty prompt is returned as it is.  Otherwise the
    first system-role message (index [s]) is marked; with at least 3 messages
    the message at [length - 2] is marked (a second marker when
    [length - 2 ≠ s]); every
    other position holds the input message unchanged.  Hence, for a prompt
    none of whose messages carries a marker on input: the output carries at
    most two markers; a prompt of length 1 or 2 is marked at the first system
    message only; a prompt without a system message is marked at
    [length - 2] only, so at most once. *)
Theorem injectCacheControl_placement (p : list Message) :
  let out := injectCacheControl p in
  let n := length p in
  (p = [] → out = p)
  ∧ length out = n
  ∧ (∀ s, first_system p s →
       ∃ m, p !! s = Some m ∧ out !! s = Some (withCache m)
            ∧ hasMarker <$> out !! s = Some true)
  ∧ ((3 ≤ n)%nat →
       ∃ m, p !! (n - 2)%nat = Some m ∧ out !! (n - 2)%nat = Some (withCache m)
            ∧ hasMarker <$> out !! (n - 2)%nat = Some true)
  ∧ (∀ j, ¬ first_system p j → ¬ ((3 ≤ n)%nat ∧ j = (n - 2)%nat) →
       out !! j = p !! j)
  ∧ (unmarked p →
       (markers out ≤ 2)%nat
       ∧ ((n = 1 ∨ n = 2)%nat →
            ∀ j, hasMarker <$> out !! j = Some true → first_system p j)
       ∧ (no_system p →
            (markers out ≤ 1)%nat
            ∧ ∀ j, hasMarker <$> out !! j = Some true →
                   (3 ≤ n)%nat ∧ j = (n - 2)%nat)).
Proof.
  intros out n. subst out n.
  assert (Hplanned : ∀ j, planned p j = true ↔
            first_system p j ∨ ((3 ≤ length p)%nat ∧ j = (length p - 2)%nat)).
  { intros j. unfold planned. rewrite orb_true_iff, andb_true_iff.
    rewrite <- findIndex_first_system, !Z.eqb_eq, Z.leb_le. split.
    - intros [E|[H3 E]]; [left; lia | right; lia].
    - intros [E|[H3 E]]; [left; lia | right; lia]. }
  split; [by intros ->|].
  split; [apply injectCacheControl_length|].
  split.
  { intros s Hs. destruct (Hs) as [(m & Hm & _) _]. exists m.
    rewrite injectCacheControl_lookup.
    rewrite (proj2 (Hplanned s)) by (by left). rewrite Hm; simpl.
    by rewrite withCache_hasMarker. }
  split.
  { intros H3.
    destruct (lookup_lt_is_Some_2 p (length p - 2)%nat) as [m Hm]; [lia|].
    exists m. rewrite injectCacheControl_lookup.
    rewrite (proj2 (Hplanned _)) by (right; done). rewrite Hm; simpl.
    by rewrite withCache_hasMarker. }
  split.
  { intros j Hns Hnt. rewrite injectCacheControl_lookup.
    destruct (planned p j) eqn:Hpl.
    - apply Hplanned in Hpl as [?|?]; tauto.
    - by destruct (p !! j). }
  intros Hun.
  assert (Hmarked : ∀ j, hasMarker <$> injectCacheControl p !! j = Some true →
            first_system p j ∨ ((3 ≤ length p)%nat ∧ j = (length p - 2)%nat)).
  { intros j Hj. apply Hplanned. by apply marked_is_planned. }
  split.
  { destruct (findIndex_range isSystem p) as [E|Hr].
    - enough (markers (injectCacheControl p) ≤ 1)%nat by lia.
      apply (markers_at_most_one _ (length p - 2)%nat). intros j Hj.
      destruct (Hmarked j Hj) as [Hs|[_ ->]]; [|done].
      apply findIndex_first_system in Hs. lia.
    - apply (markers_at_most_two _ (Z.to_nat (findIndex isSystem p)) (length p - 2)%nat).
      intros j Hj. destruct (Hmarked j Hj) as [Hs|[_ ->]]; [left | by right].
      apply findIndex_first_system in Hs. lia. }
  split.
  { intros Hshort j Hj. destruct (Hmarked j Hj) as [Hs|[H3 _]]; [done | lia]. }
  intros Hno. apply findIndex_no_system in Hno.
  assert (Hnofirst : ∀ j, ¬ first_system p j).
  { intros j Hs. apply findIndex_first_system in Hs. lia. }
  split.
  - apply (markers_at_most_one _ (length p - 2)%nat). intros j Hj.
    destruct (Hmarked j Hj) as [Hs|[_ ->]]; [by apply Hnofirst in Hs | done].
  - intros j Hj. destruct (Hmarked j Hj) as [Hs|?]; [by apply Hnofirst in Hs | done].
Qed.

Lemma injectCacheControl_placement_witness :
  unmarked scenario_B ∧ (markers (injectCacheControl scenario_B) ≤ 2)%nat.
Proof.
  assert (Hun : unmarked scenario_B).
  { intros m Hm. unfold scenario_B in Hm.
    repeat (apply elem_of_cons in Hm as [->|Hm]; [reflexivity|]).
    by apply elem_of_nil in Hm. }
  split; [exact Hun|].
  apply (injectCacheControl_placement scenario_B). exact Hun.
Defined.

(** ** The planner on the heap *)

Section PlannerHeapFacts.
Import PlannerHeap.

Implicit Types (h : Heap) (l : loc) (es : list loc) (ms : list Message).

Lemma deref_Some h a ms :
  deref h a = Some ms ↔ ∃ es, h !! a = Some (OArray es) ∧ refers h es ms.
Proof.
  unfold deref, read_array, refers. split.
  - destruct (h !! a) as [[m|es]|] eqn:Ha; simpl; try done.
    intros Hm. exists es. split; [done|]. by apply mapM_Some.
  - intros (es & -> & Hes); simpl. by apply mapM_Some.
Qed.

Lemma refers_insert h es ms l o :
  h !! l = None → refers h es ms → refers (<[l := o]> h) es ms.
Proof.
  intros Hl Hes. eapply Forall2_impl; [exact Hes|]. intros l1 m. unfold read_message.
  destruct (h !! l1) as [[m1|?]|] eqn:H1; try done.
  intros [= ->]. rewrite lookup_insert_ne by congruence. by rewrite H1.
Qed.

Lemma refers_overwrite_array h es ms a es0 o :
  h !! a = Some (OArray es0) → refers h es ms → refers (<[a := o]> h) es ms.
Proof.
  intros Ha Hes. eapply Forall2_impl; [exact Hes|]. intros l1 m. unfold read_message.
  destruct (h !! l1) as [[m1|?]|] eqn:H1; try done.
  intros [= ->]. rewrite lookup_insert_ne by congruence. by rewrite H1.
Qed.

Lemma findIndex_system_spec h es ms :
  refers h es ms → findIndex_system h es = Some (findIndex isSystem ms).
Proof.
  induction 1 as [|l m es ms Hl _ IH]; simpl; [done|].
  rewrite Hl; simpl. destruct (isSystem m); [done|].
  by rewrite IH.
Qed.

(** One marking step on the heap: the array [result] is updated like the
    pure [Planner.mark_at], and no other existing object is written. *)
Lemma mark_at_spec h result es ms (i : Z) :
  h !! result = Some (OArray es) → refers h es ms →
  0 ≤ i < Z.of_nat (length ms) →
  ∃ h' es', mark_at result i h = Some h'
    ∧ h' !! result = Some (OArray es')
    ∧ refers h' es' (Planner.mark_at i ms)
    ∧ (∀ l o, l ≠ result → h !! l = Some o → h' !! l = Some o).
Proof.
  intros Hres Hes Hi.
  destruct (lookup_lt_is_Some_2 ms (Z.to_nat i)) as [m Hm]; [lia|].
  destruct (Forall2_lookup_r _ _ _ _ _ Hes Hm) as (l & Hl & Hlm).
  unfold mark_at, read_array. rewrite Hres; simpl.
  destruct (Z.ltb_spec i 0); [lia|]. rewrite Hl; simpl.
  rewrite Hlm; simpl.
  unfold alloc; simpl. set (l' := fresh (dom h)).
  assert (Hfresh : h !! l' = None) by apply not_elem_of_dom, is_fresh.
  assert (l' ≠ result) by congruence.
  unfold write_index, read_array. rewrite lookup_insert_ne by done.
  rewrite Hres; simpl.
  eexists _, _. split; [done|]. split; [by rewrite lookup_insert_eq|].
  split.
  - unfold Planner.mark_at. destruct (Z.leb_spec 0 i); [|lia]. rewrite Hm.
    apply Forall2_insert.
    + eapply refers_overwrite_array; [by rewrite lookup_insert_ne|].
      by apply refers_insert.
    + unfold read_message. rewrite lookup_insert_ne by done.
      by rewrite lookup_insert_eq.
  - intros l0 o Hne Ho. rewrite lookup_insert_ne by done.
    rewrite lookup_insert_ne by congruence. done.
Qed.


Lemma mark_if_spec h result es ms (b : bool) (i : Z) :
  h !! result = Some (OArray es) → refers h es ms →
  (b = true → 0 ≤ i < Z.of_nat (length ms)) →
  ∃ h' es', (if b then mark_at result i h else Some h) = Some h'
    ∧ h' !! result = Some (OArray es')
    ∧ refers h' es' (if b then Planner.mark_at i ms else ms)
    ∧ (∀ l o, l ≠ result → h !! l = Some o → h' !! l = Some o).
Proof.
  intros Hres Hes Hi. destruct b.
  - apply mark_at_spec with (es := es); auto.
  - exists h, es. auto.
Qed.

Lemma refers_frame h h' es ms :
  (∀ l o, h !! l = Some o → h' !! l = Some o) → refers h es ms → refers h' es ms.
Proof.
  intros Hfr Hes. eapply Forall2_impl; [exact Hes|]. intros l m. unfold read_message.
  destruct (h !! l) as [o|] eqn:Hl; [|done]. by rewrite (Hfr _ _ Hl).
Qed.

(** C8, amended.  For a prompt held in the heap, the planner returns; every
    object that existed before the call (the input sequence and each of its
    messages among them) is unchanged after it; the returned sequence holds
    the pure function [Planner.injectCacheControl] of the prompt's messages,
    whatever else the heap contains, with the input's length and each
    position holding the input message or its marked copy; a non-empty prompt
    is returned as a newly allocated sequence, and the empty prompt as the
    input sequence itself. *)
Theorem injectCacheControl_heap_frame (h : Heap) (prompt : loc) (msgs : list Message) :
  deref h prompt = Some msgs →
  ∃ out h',
    PlannerHeap.injectCacheControl prompt h = Some (out, h')
    ∧ (∀ l o, h !! l = Some o → h' !! l = Some o)
    ∧ deref h' prompt = Some msgs
    ∧ deref h' out = Some (Planner.injectCacheControl msgs)
    ∧ length (Planner.injectCacheControl msgs) = length msgs
    ∧ (∀ j, Planner.injectCacheControl msgs !! j = msgs !! j
            ∨ Planner.injectCacheControl msgs !! j = withCache <$> msgs !! j)
    ∧ (msgs ≠ [] → h !! out = None)
    ∧ (msgs = [] → out = prompt ∧ h' = h).
Proof.
  intros Hd.
  enough (∃ out h', PlannerHeap.injectCacheControl prompt h = Some (out, h')
    ∧ (∀ l o, h !! l = Some o → h' !! l = Some o)
    ∧ deref h' out = Some (Planner.injectCacheControl msgs)
    ∧ (msgs ≠ [] → h !! out = None)
    ∧ (msgs = [] → out = prompt ∧ h' = h)) as (out & h' & Hrun & Hfr & Hout & Hnew & Hsame).
  { exists out, h'. repeat split; try done; try (by apply Hsame).
    - apply deref_Some in Hd as (es & Hp & Hes). apply deref_Some.
      exists es. split; [by apply Hfr | by eapply refers_frame].
    - apply injectCacheControl_length.
    - intros j. rewrite injectCacheControl_lookup.
      destruct (planned msgs j); [by right | left]. by destruct (msgs !! j). }
  apply deref_Some in Hd as (es & Hp & Hes).
  pose proof (Forall2_length _ _ _ Hes) as Hlen.
  unfold PlannerHeap.injectCacheControl, Planner.injectCacheControl.
  assert (Hrp : read_array prompt h = Some es) by (unfold read_array; by rewrite Hp).
  rewrite Hrp; simpl. rewrite Hlen.
  destruct (Z.eqb_spec (Z.of_nat (length msgs)) 0) as [E0|E0].
  { exists prompt, h. split; [done|]. split; [done|]. split; [|split; [|done]].
    - apply deref_Some. by exists es.
    - intros Hne. destruct msgs; [done | simpl in E0; lia]. }
  unfold alloc; simpl. set (result := fresh (dom h)).
  assert (Hfresh : h !! result = None) by apply not_elem_of_dom, is_fresh.
  set (h1 := <[result := OArray es]> h).
  assert (Hes1 : refers h1 es msgs) by by apply refers_insert.
  assert (Hr1 : read_array result h1 = Some es)
    by (unfold read_array, h1; by rewrite lookup_insert_eq).
  rewrite Hr1; simpl.
  rewrite (findIndex_system_spec _ _ _ Hes1); simpl.
  change (λ m : Message, role_eqb (role m) system) with isSystem.
  set (s := findIndex isSystem msgs).
  destruct (mark_if_spec h1 result es msgs (negb (s =? -1)) s)
    as (h2 & es2 & Hrun2 & Hres2 & Hes2 & Hfr2); [apply lookup_insert_eq | done | |].
  { intros Hb. destruct (findIndex_range isSystem msgs) as [Hs|Hs]; [|done].
    fold s in Hs. rewrite Hs in Hb. done. }
  rewrite Hrun2; simpl.
  assert (Hrr : read_array result h2 = Some es2) by (unfold read_array; by rewrite Hres2).
  rewrite Hrr; simpl.
  set (cur := if negb (s =? -1) then Planner.mark_at s msgs else msgs) in *.
  assert (Hcur : length cur = length msgs).
  { subst cur. destruct (negb _); [apply mark_at_length | done]. }
  rewrite (Forall2_length _ _ _ Hes2).
  assert (Hframe1 : ∀ l o, h !! l = Some o → h1 !! l = Some o ∧ l ≠ result).
  { intros l o Hl. assert (l ≠ result) by congruence.
    split; [|done]. subst h1. by rewrite lookup_insert_ne. }
  destruct (Z.leb_spec 3 (Z.of_nat (length cur))) as [H3|H3].
  - set (t := Z.of_nat (length cur) - 2).
    destruct (mark_if_spec h2 result es2 cur (negb (t =? s)) t)
      as (h3 & es3 & Hrun3 & Hres3 & Hes3 & Hfr3); [done | done | subst t; lia |].
    rewrite Hrun3; simpl. exists result, h3.
    split; [done|]. split; [|split; [|split]].
    + intros l o Hl. destruct (Hframe1 _ _ Hl). auto.
    + apply deref_Some. by exists es3.
    + done.
    + intros ->. simpl in E0. lia.
  - exists result, h2.
    split; [done|]. split; [|split; [|split]].
    + intros l o Hl. destruct (Hframe1 _ _ Hl). auto.
    + apply deref_Some. by exists es2.
    + done.
    + intros ->. simpl in E0. lia.
Qed.

Lemma injectCacheControl_heap_frame_witness :
  deref scenario_B_heap.2 scenario_B_heap.1 = Some scenario_B
  ∧ ∃ out h',
      PlannerHeap.injectCacheControl scenario_B_heap.1 scenario_B_heap.2 = Some (out, h')
      ∧ deref h' out = Some (Planner.injectCacheControl scenario_B)
      ∧ scenario_B_heap.2 !! out = None.
Proof.
  assert (Hd : deref scenario_B_heap.2 scenario_B_heap.1 = Some scenario_B)
    by (vm_compute; reflexivity).
  split; [exact Hd|].
  destruct (injectCacheControl_heap_frame _ _ _ Hd)
    as (out & h' & Hrun & _ & _ & Hout & _ & _ & Hnew & _).
  exists out, h'. split; [exact Hrun|]. split; [exact Hout|].
  apply Hnew. discriminate.
Defined.

(** C8, as worded, fails on the empty prompt: the sequence returned is the
    input sequence itself, not a new one. *)
Lemma purity_as_worded_fails :
  PlannerHeap.injectCacheControl empty_prompt.1 empty_prompt.2
  = Some (empty_prompt.1, empty_prompt.2)
  ∧ ¬ purity_as_worded empty_prompt.1 empty_prompt.2.
Proof.
  assert (Hrun : PlannerHeap.injectCacheControl empty_prompt.1 empty_prompt.2
                 = Some (empty_prompt.1, empty_prompt.2)) by (vm_compute; reflexivity).
  split; [exact Hrun|].
  intros (out & h' & msgs & Hrun' & _ & _ & Hnew & _).
  rewrite Hrun in Hrun'. injection Hrun' as <- <-.
  vm_compute in Hnew. discriminate.
Qed.

End PlannerHeapFacts.

(** ** Token accounting and ingestion *)

Section IngestionFacts.
Import Ingestion.

Lemma split_lines_nonempty (s : string) : split_lines s ≠ [].
Proof.
  destruct s as [|c rest]; simpl; [done|].
  destruct (Ascii.eqb c "010"); [done|]. by destruct (split_lines rest).
Qed.


Example lines_of_three :
  split_lines (String "a" (String "010" (String "b" (String "010" "c")))) = ["a"; "b"; "c"]
  ∧ split_lines "" = [""]
  ∧ utf8_length (String "a" (String "233" "")) = 3.
Proof. done. Qed.

Example preprocess_cancelled_sample :
  (preprocessFile (sample_env key_by_name no_fault) report_pdf ∅ empty_world).1
  = inr {| file := report_pdf; content := ""; storageKey := "";
           tokenCountMap := None; lineCount := None; byteLength := None;
           error := Some "third_party_parser_failed" |}.
Proof. vm_compute. reflexivity. Qed.

Example preprocess_hit_sample :
  match (preprocessFile (sample_env key_by_name no_fault) report_pdf ∅ ingested_world).1 with
  | inr r =>
      (content r, tokenCountMap r ≫= (.!! "default"),
       tokenCountMap r ≫= (.!! "default_preview")) = ("alpha", Some 7, Some 5)
  | inl _ => False
  end.
Proof. vm_compute. reflexivity. Qed.


Lemma tokenizer_keys_differ (t : TokenizerType) : tokenizer_name t ≠ preview_key t.
Proof. by destruct t. Qed.

(** The result of [computePreviewMetadata] in closed form, when the slot of
    the tokenizer is present and when it is absent. *)
Lemma computePreviewMetadata_present env c t existing now v :
  existing !! tokenizer_name t = Some v →
  computePreviewMetadata env c t existing now
  = (n ← estimateTokens env (join_lines (take (PREVIEW_LINES env) (split_lines c)))
           (tokenizer_model t);
     mret {| meta_lineCount := Z.of_nat (length (split_lines c));
             meta_byteLength := utf8_length c;
             meta_tokenCountMap := <[preview_key t := n]> existing;
             meta_tokenCalculatedAt := {[ preview_key t := now ]} |}).
Proof. intros Hv. unfold computePreviewMetadata. rewrite Hv. reflexivity. Qed.

Lemma computePreviewMetadata_absent env c t existing now :
  existing !! tokenizer_name t = None →
  computePreviewMetadata env c t existing now
  = (full ← estimateTokens env c (tokenizer_model t);
     n ← estimateTokens env (join_lines (take (PREVIEW_LINES env) (split_lines c)))
           (tokenizer_model t);
     mret {| meta_lineCount := Z.of_nat (length (split_lines c));
             meta_byteLength := utf8_length c;
             meta_tokenCountMap :=
               <[preview_key t := n]> (<[tokenizer_name t := full]> existing);
             meta_tokenCalculatedAt :=
               <[preview_key t := now]> {[ tokenizer_name t := now ]} |}).
Proof.
  intros Hv. unfold computePreviewMetadata. rewrite Hv.
  destruct (estimateTokens env c (tokenizer_model t)); reflexivity.
Qed.




(** *** Running the pipeline *)

(** What the cache lookup of [preprocessFile] finds: a rejected lookup is
    caught and reads as a miss. *)
Lemma cache_lookup env uniqKey w :
  try_catch (storage_getBlob env uniqKey) (λ _, mret None) w
  = (inr (match storageFault env (ticks w) (GetBlob uniqKey) with
          | Some _ => None
          | None => blobs (storage w) !! uniqKey
          end),
     mkWorld (storage w) (S (ticks w)) (backendCalls w)).
Proof.
  unfold try_catch, storage_getBlob, storage_op.
  destruct (storageFault env (ticks w) (GetBlob uniqKey)); reflexivity.
Qed.

(** C2 (the code departs from it). A cancelled MinerU parse of a non-text
    file, with the backend configured and a token set, is reported by
    [preprocessFile] as ["third_party_parser_failed"]: the handler around the
    MinerU call re-throws only messages starting with ["third_party_parser"]
    and turns ["parsing_cancelled"] into the generic failure. *)
Theorem preprocessFile_cancelled_reported_as_failure env (f : File)
    (settings : SessionSettings) (w : World) uniqKey token run result st :
  fileUniqKey env f = inr uniqKey →
  truthy_opt (blobs (storage w) !! uniqKey) = false →
  isTextFilePath env (file_name f) = false →
  parser_type (getEffectiveDocumentParserConfig env) = parser_mineru →
  mineru (getEffectiveDocumentParserConfig env) ≫= apiToken = Some token →
  truthy token = true →
  parseFileWithMineru env = Some run →
  run f token (storage w) = (inr result, st) →
  cancelled result = true →
  (preprocessFile env f settings w).1
  = inr {| file := f; content := ""; storageKey := "";
           tokenCountMap := None; lineCount := None; byteLength := None;
           error := Some "third_party_parser_failed" |}.
Proof.
  intros Hkey Hmiss Htext Hparser Htoken Htruthy Hrun Hres Hcancel.
  unfold preprocessFile, preprocessFile_try.
  unfold try_catch at 1. unfold mbind at 1, M_bind at 1, lift at 1. rewrite Hkey.
  unfold mbind at 1, M_bind at 1. rewrite cache_lookup.
  assert (Hnone : truthy_opt
            match storageFault env (ticks w) (GetBlob uniqKey) with
            | Some _ => None
            | None => blobs (storage w) !! uniqKey
            end = false).
  { destruct (storageFault env (ticks w) (GetBlob uniqKey)); [done | exact Hmiss]. }
  rewrite Hnone, Htext, Hparser, Htoken. simpl truthy_opt. rewrite Htruthy. simpl negb.
  cbv iota.
  unfold mbind at 1, M_bind at 1.
  unfold try_catch at 1. unfold parseFileWithMineruService. rewrite Hrun.
  unfold mbind at 1, M_bind at 1, backend_call at 1. simpl storage.
  change (default "" (Some token)) with token. rewrite Hres.
  rewrite Hcancel. reflexivity.
Qed.

Lemma preprocessFile_cancelled_witness :
  (preprocessFile (sample_env key_by_name no_fault) report_pdf ∅ empty_world).1
  = inr {| file := report_pdf; content := ""; storageKey := "";
           tokenCountMap := None; lineCount := None; byteLength := None;
           error := Some "third_party_parser_failed" |}.
Proof.
  apply (preprocessFile_cancelled_reported_as_failure
           (sample_env key_by_name no_fault) report_pdf ∅ empty_world
           "file:report.pdf" "tok" cancelled_parse
           {| success := false; mineru_content := None; cancelled := true |}
           (mkStorage ∅ ∅)); reflexivity.
Defined.


Lemma truthy_nonempty (s : string) : s ≠ "" → truthy s = true.
Proof. intros Hs. unfold truthy. by apply negb_true_iff, String.eqb_neq. Qed.

(** The run of [preprocessFile] when the lookup finds stored content. *)
Lemma preprocessFile_hit_run env (f : File) (settings : SessionSettings) (w : World)
    (uniqKey stored : string) :
  fileUniqKey env f = inr uniqKey →
  storageFault env (ticks w) (GetBlob uniqKey) = None →
  blobs (storage w) !! uniqKey = Some stored →
  stored ≠ "" →
  preprocessFile env f settings w
  = match storageFault env (S (ticks w)) (GetItem (tokenMap_key uniqKey)) with
    | Some e =>
        (inr (error_result f e), mkWorld (storage w) (S (S (ticks w))) (backendCalls w))
    | None =>
        match computePreviewMetadata env stored (getCurrentTokenizerType env)
                (default ∅ (items (storage w) !! tokenMap_key uniqKey))
                (dateNow env (S (S (ticks w)))) with
        | inl e =>
            (inr (error_result f e), mkWorld (storage w) (S (S (ticks w))) (backendCalls w))
        | inr meta =>
            match storageFault env (S (S (ticks w))) (SetItem (tokenMap_key uniqKey)) with
            | Some e =>
                (inr (error_result f e),
                 mkWorld (storage w) (S (S (S (ticks w)))) (backendCalls w))
            | None =>
                (inr {| file := f; content := stored; storageKey := uniqKey;
                        tokenCountMap := Some (meta_tokenCountMap meta);
                        lineCount := Some (meta_lineCount meta);
                        byteLength := Some (meta_byteLength meta);
                        error := None |},
                 mkWorld (mkStorage (blobs (storage w))
                            (<[tokenMap_key uniqKey := meta_tokenCountMap meta]>
                               (items (storage w))))
                   (S (S (S (ticks w)))) (backendCalls w))
            end
        end
    end.
Proof.
  intros Hkey Hfault Hblob Hne.
  unfold preprocessFile, preprocessFile_try.
  unfold try_catch at 1. unfold mbind at 1, M_bind at 1, lift at 1. rewrite Hkey.
  unfold mbind at 1, M_bind at 1. rewrite cache_lookup, Hfault, Hblob.
  change (truthy_opt (Some stored)) with (truthy stored).
  rewrite (truthy_nonempty _ Hne).
  change (default "" (Some stored)) with stored.
  unfold mbind, M_bind, storage_getItem, storage_setItem, storage_op, date_now, lift,
    mret, M_ret; simpl.
  destruct (storageFault env (S (ticks w)) (GetItem (tokenMap_key uniqKey))); simpl; [done|].
  destruct (computePreviewMetadata env stored _ _ _); simpl; [done|].
  by destruct (storageFault env (S (S (ticks w))) (SetItem (tokenMap_key uniqKey))).
Qed.

(** C4, amended.  When the lookup under the file's key finds stored,
    non-empty content, [preprocessFile] invokes no parser backend and leaves
    the stored blobs as they are; it returns either the stored content or the
    error result; and when reading the stored token map, counting the tokens
    and persisting the map all succeed, it returns exactly the stored content
    under its key, with the token map [computePreviewMetadata] extends for
    the current tokenizer, which is the map it persists. *)
Theorem preprocessFile_cache_hit env (f : File) (settings : SessionSettings) (w : World)
    (uniqKey stored : string) :
  fileUniqKey env f = inr uniqKey →
  storageFault env (ticks w) (GetBlob uniqKey) = None →
  blobs (storage w) !! uniqKey = Some stored →
  stored ≠ "" →
  let run := preprocessFile env f settings w in
  let existing := default ∅ (items (storage w) !! tokenMap_key uniqKey) in
  backendCalls run.2 = backendCalls w
  ∧ blobs (storage run.2) = blobs (storage w)
  ∧ (∃ res, run.1 = inr res
       ∧ (content res = stored ∨ (content res = "" ∧ is_Some (error res))))
  ∧ (∀ meta,
       storageFault env (S (ticks w)) (GetItem (tokenMap_key uniqKey)) = None →
       computePreviewMetadata env stored (getCurrentTokenizerType env) existing
         (dateNow env (S (S (ticks w)))) = inr meta →
       storageFault env (S (S (ticks w))) (SetItem (tokenMap_key uniqKey)) = None →
       run.1 = inr {| file := f; content := stored; storageKey := uniqKey;
                      tokenCountMap := Some (meta_tokenCountMap meta);
                      lineCount := Some (meta_lineCount meta);
                      byteLength := Some (meta_byteLength meta);
                      error := None |}
       ∧ items (storage run.2)
         = <[tokenMap_key uniqKey := meta_tokenCountMap meta]> (items (storage w))).
Proof.
  intros Hkey Hfault Hblob Hne run existing. subst run.
  rewrite (preprocessFile_hit_run _ _ _ _ _ _ Hkey Hfault Hblob Hne). fold existing.
  destruct (storageFault env (S (ticks w)) (GetItem (tokenMap_key uniqKey))) as [e1|]; simpl.
  { repeat split; try done. eexists; split; [done|]. right. by split. }
  destruct (computePreviewMetadata env stored (getCurrentTokenizerType env) existing
              (dateNow env (S (S (ticks w))))) as [e2|meta]; simpl.
  { repeat split; try done. eexists; split; [done|]. right. by split. }
  destruct (storageFault env (S (S (ticks w))) (SetItem (tokenMap_key uniqKey))) as [e3|]; simpl.
  { repeat split; try done. eexists; split; [done|]. right. by split. }
  split; [done|]. split; [done|]. split.
  - eexists; split; [done|]. by left.
  - by intros meta' _ [= <-] _.
Qed.

Lemma preprocessFile_cache_hit_witness :
  backendCalls (preprocessFile (sample_env key_by_name no_fault) report_pdf ∅ ingested_world).2
  = []
  ∧ ∃ res, (preprocessFile (sample_env key_by_name no_fault) report_pdf ∅ ingested_world).1
           = inr res ∧ (content res = "alpha" ∨ (content res = "" ∧ is_Some (error res))).
Proof.
  destruct (preprocessFile_cache_hit (sample_env key_by_name no_fault) report_pdf ∅
              ingested_world "file:report.pdf" "alpha" eq_refl eq_refl eq_refl)
    as (Hcalls & _ & Hres & _); [discriminate|].
  split; [exact Hcalls | exact Hres].
Defined.

(** C4, as worded, fails: with the content stored, a store that rejects the
    write of the token map makes [preprocessFile] return the error result,
    whose content is empty. *)
Lemma cache_hit_as_worded_fails :
  (preprocessFile (sample_env key_by_name setItem_rejected) report_pdf ∅ ingested_world).1
  = inr {| file := report_pdf; content := ""; storageKey := "";
           tokenCountMap := None; lineCount := None; byteLength := None;
           error := Some "QuotaExceededError" |}
  ∧ ¬ cache_hit_as_worded (sample_env key_by_name setItem_rejected) report_pdf ∅
        ingested_world.
Proof.
  assert (Hrun : (preprocessFile (sample_env key_by_name setItem_rejected) report_pdf ∅
                    ingested_world).1
                 = inr {| file := report_pdf; content := ""; storageKey := "";
                          tokenCountMap := None; lineCount := None; byteLength := None;
                          error := Some "QuotaExceededError" |})
    by (vm_compute; reflexivity).
  split; [exact Hrun|].
  intros Hclaim.
  destruct (Hclaim "file:report.pdf" "alpha" eq_refl eq_refl) as (res & w' & Hres & _ & Hc);
    [discriminate|].
  rewrite Hres in Hrun. simpl in Hrun. injection Hrun as ->. discriminate.
Qed.


(** *** What the pipeline can throw and return *)

Lemma throws_bind {A B} (E : Thrown → Prop) (m : M A) (k : A → M B) :
  throws_only E m → (∀ a, throws_only E (k a)) → throws_only E (m ≫= k).
Proof.
  intros Hm Hk w e w'. unfold mbind, M_bind.
  destruct (m w) as [[e1|a] w1] eqn:Hmw.
  - intros [= <- <-]. by eapply Hm.
  - apply Hk.
Qed.

Lemma throws_ret {A} (E : Thrown → Prop) (a : A) : throws_only E (mret a).
Proof. by intros w e w'. Qed.

Lemma throws_throw {A} (E : Thrown → Prop) (e : Thrown) : E e → throws_only E (@throw A e).
Proof. by intros He w e' w' [= <- _]. Qed.

Lemma throws_catch {A} (E : Thrown → Prop) (m : M A) (handler : Thrown → M A) :
  (∀ e, throws_only E (handler e)) → throws_only E (try_catch m handler).
Proof.
  intros Hh w e w'. unfold try_catch.
  destruct (m w) as [[e1|a] w1]; [apply Hh | done].
Qed.

Lemma throws_lift {A} (E : Thrown → Prop) (r : Exc A) :
  (∀ e, r = inl e → E e) → throws_only E (lift r).
Proof. intros Hr w e w' [= -> _]. by apply Hr. Qed.

Lemma throws_storage_op {A} env (E : Thrown → Prop) op (run : Storage → A * Storage) :
  (∀ t e, storageFault env t op = Some e → E e) → throws_only E (storage_op env op run).
Proof.
  intros Hop w e w'. unfold storage_op.
  destruct (storageFault env (ticks w) op) as [e1|] eqn:Hf.
  - intros [= <- _]. by eapply Hop.
  - by destruct (run (storage w)).
Qed.

Lemma throws_date_now env (E : Thrown → Prop) : throws_only E (date_now env).
Proof. by intros w e w'. Qed.

Lemma returns_bind {A B} (Q : B → Prop) (m : M A) (k : A → M B) :
  (∀ a, returns_only Q (k a)) → returns_only Q (m ≫= k).
Proof.
  intros Hk w b w'. unfold mbind, M_bind.
  destruct (m w) as [[e1|a] w1]; [done | apply Hk].
Qed.

Lemma returns_ret {A} (Q : A → Prop) (a : A) : Q a → returns_only Q (mret a).
Proof. by intros Ha w a' w' [= <- _]. Qed.

Lemma prefix_nonempty (p m : string) : p ≠ "" → String.prefix p m = true → m ≠ "".
Proof. intros Hp Hpre ->. destruct p; [done | discriminate]. Qed.

Lemma computePreviewMetadata_throws env c t existing now e :
  computePreviewMetadata env c t existing now = inl e →
  ∃ c' sel, estimateTokens env c' sel = inl e.
Proof.
  unfold computePreviewMetadata.
  destruct (existing !! tokenizer_name t); simpl.
  - destruct (estimateTokens env (join_lines _) _) eqn:Hp; simpl; [|done].
    intros [= <-]. eauto.
  - destruct (estimateTokens env c _) eqn:Hf; simpl; [intros [= <-]; eauto|].
    destruct (estimateTokens env (join_lines _) _) eqn:Hp; simpl; [|done].
    intros [= <-]. eauto.
Qed.

(** With reportable collaborators, whatever the [try] block throws has a
    non-empty message: the backends are wrapped in named conditions. *)
Lemma preprocessFile_try_throws env (f : File) (settings : SessionSettings) :
  collaborators_reportable env →
  throws_only reportable (preprocessFile_try env f settings).
Proof.
  intros (Hkey & Hstore & Htok).
  assert (Hmeta : ∀ c t m now, throws_only reportable
            (lift (computePreviewMetadata env c t m now))).
  { intros c t m now. apply throws_lift. intros e He.
    apply computePreviewMetadata_throws in He as (c' & sel & He). by eapply Htok. }
  assert (Hlit : ∀ A msg, msg ≠ "" → throws_only reportable (@throw A (ThrownError msg))).
  { intros A msg Hmsg. by apply throws_throw. }
  unfold preprocessFile_try.
  apply throws_bind; [apply throws_lift, Hkey|]. intros uniqKey.
  apply throws_bind; [apply throws_catch; intros; apply throws_ret|]. intros existingContent.
  destruct (truthy_opt existingContent).
  - apply throws_bind; [apply throws_storage_op; intros; by eapply Hstore|]. intros tm.
    apply throws_bind; [apply throws_date_now|]. intros now.
    apply throws_bind; [apply Hmeta|]. intros meta.
    apply throws_bind; [apply throws_storage_op; intros; by eapply Hstore|]. intros _.
    apply throws_ret.
  - apply throws_bind.
    + destruct (isTextFilePath env (file_name f)).
      { apply throws_catch. intros. by apply Hlit. }
      destruct (parser_type (getEffectiveDocumentParserConfig env)).
      * by apply Hlit.
      * apply throws_catch. intros. by apply Hlit.
      * apply throws_catch. intros. by apply Hlit.
      * destruct (negb _); [by apply Hlit|].
        apply throws_catch. intros [message|]; [|by apply Hlit].
        destruct (String.prefix "third_party_parser" message) eqn:Hpre; [|by apply Hlit].
        apply throws_throw. unfold reportable; simpl.
        eapply prefix_nonempty; [|exact Hpre]. done.
      * by apply Hlit.
    + intros result.
      apply throws_bind; [apply throws_date_now|]. intros now.
      apply throws_bind; [apply Hmeta|]. intros meta.
      apply throws_bind; [apply throws_storage_op; intros; by eapply Hstore|]. intros _.
      apply throws_ret.
Qed.

(** What the [try] block returns has no error field and carries the file. *)
Lemma preprocessFile_try_returns env (f : File) (settings : SessionSettings) :
  returns_only (λ res, error res = None ∧ file res = f) (preprocessFile_try env f settings).
Proof.
  unfold preprocessFile_try.
  apply returns_bind. intros uniqKey. apply returns_bind. intros existingContent.
  destruct (truthy_opt existingContent).
  - do 4 (apply returns_bind; intros ?). by apply returns_ret.
  - do 4 (apply returns_bind; intros ?). by apply returns_ret.
Qed.

(** C6, amended.  [preprocessFile] always returns normally.  When its [try]
    block returns, that value is returned and its error field is absent.
    When the [try] block throws, the result has empty content and key and an
    error string: the thrown [Error]'s message, or ["Unknown error"] for any
    other thrown value; that string is non-empty provided key derivation,
    the content store and the tokenizer never throw an [Error] with an empty
    message (parser backends may throw anything). *)
Theorem preprocessFile_failure_policy env (f : File) (settings : SessionSettings)
    (w : World) :
  ∃ res w', preprocessFile env f settings w = (inr res, w')
    ∧ file res = f
    ∧ match preprocessFile_try env f settings w with
      | (inr r, w1) => res = r ∧ w' = w1 ∧ error res = None
      | (inl e, w1) =>
          w' = w1 ∧ error res = Some (error_message e)
          ∧ content res = "" ∧ storageKey res = ""
          ∧ tokenCountMap res = None ∧ lineCount res = None ∧ byteLength res = None
      end
    ∧ (collaborators_reportable env → ∀ msg, error res = Some msg → msg ≠ "").
Proof.
  unfold preprocessFile, try_catch.
  destruct (preprocessFile_try env f settings w) as [[e|r] w1] eqn:Hrun.
  - eexists _, _. split; [done|]. simpl. split; [done|]. split; [done|].
    intros Henv msg [= <-].
    by apply (preprocessFile_try_throws env f settings Henv w e w1).
  - destruct (preprocessFile_try_returns env f settings w r w1 Hrun) as [Herr Hfile].
    exists r, w1. split; [done|]. split; [done|]. split; [done|].
    intros _ msg Hmsg. congruence.
Qed.

Lemma preprocessFile_failure_policy_witness :
  collaborators_reportable (sample_env key_by_name setItem_rejected)
  ∧ ∃ res w', preprocessFile (sample_env key_by_name setItem_rejected) report_pdf ∅
                ingested_world = (inr res, w')
              ∧ error res = Some "QuotaExceededError" ∧ error res ≠ Some "".
Proof.
  assert (Henv : collaborators_reportable (sample_env key_by_name setItem_rejected)).
  { split; [|split].
    - intros f e. discriminate.
    - intros t [k|k|k|k] e; simpl; try discriminate. by intros [= <-].
    - intros c sel e. discriminate. }
  split; [exact Henv|].
  destruct (preprocessFile_failure_policy (sample_env key_by_name setItem_rejected)
              report_pdf ∅ ingested_world) as (res & w' & Hrun & _ & _ & Hmsg).
  exists res, w'. split; [exact Hrun|].
  assert (Herr : error res = Some "QuotaExceededError").
  { vm_compute in Hrun. by injection Hrun as <- _. }
  split; [exact Herr|]. intros Hempty. by apply (Hmsg Henv "").
Defined.

(** C6, as worded, fails: when key derivation throws [new Error()], whose
    message is empty, the error field of the result is the empty string. *)
Lemma failure_policy_as_worded_fails :
  (preprocessFile (sample_env key_throws_blank no_fault) report_pdf ∅ empty_world).1
  = inr (error_result report_pdf (ThrownError ""))
  ∧ error (error_result report_pdf (ThrownError "")) = Some ""
  ∧ ¬ failure_policy_as_worded (sample_env key_throws_blank no_fault) report_pdf ∅
        empty_world.
Proof.
  split; [by vm_compute|]. split; [done|].
  intros (res & w' & Hrun & Hres).
  vm_compute in Hrun. injection Hrun as <- _.
  destruct Hres as [Hnone|(msg & Hmsg & Hne & _)]; [discriminate|].
  injection Hmsg as <-. done.
Qed.

End IngestionFacts.

(** ** Session search *)

Section SearchFacts.
Import Ingestion Search SearchSpec.

Example scenario_D_run :
  emitted (searchSessions scenario_D "errorXYZ" None)
  = [[with_messages session_two
        [text_message "b3" "errorXYZ again"; text_message "b1" "saw errorXYZ today";
         text_message "c1" "errorXYZ before"]]].
Proof. vm_compute. reflexivity. Qed.

Example cap_run :
  map (map (λ s, (session_id s, length (messages s))))
      (emitted (searchSessions cap_store "errorXYZ" None))
  = [[("a", 48%nat)]; [("b", 5%nat)]]
  ∧ map session_id (scanned (searchSessions cap_store "errorXYZ" None)) = ["a"; "b"].
Proof. vm_compute. done. Qed.

Example single_uncapped :
  map (map (λ s, length (messages s))) (emitted (searchSessions one_busy "errorXYZ" (Some "a")))
  = [[60%nat]].
Proof. vm_compute. reflexivity. Qed.


Implicit Types (env : Env) (regexp : string) (total : Z).

(** The batch a scanned session gives rise to. *)
Lemma batches_of_cons env regexp (s : Session) (l : list Session) :
  batches_of env regexp (s :: l)
  = (match _searchSessions env regexp s with
     | [] => []
     | matched => [[with_messages s matched]]
     end ++ batches_of env regexp l)%list.
Proof. reflexivity. Qed.

Lemma batches_of_app env regexp (l1 l2 : list Session) :
  batches_of env regexp (l1 ++ l2)
  = (batches_of env regexp l1 ++ batches_of env regexp l2)%list.
Proof. unfold batches_of. apply flat_map_app. Qed.

Lemma matched_count_app (b1 b2 : list (list Session)) :
  matched_count (b1 ++ b2) = matched_count b1 + matched_count b2.
Proof.
  unfold matched_count. rewrite flat_map_app, length_app. lia.
Qed.

Lemma matched_count_session env regexp (s : Session) :
  matched_count (batches_of env regexp [s])
  = Z.of_nat (length (_searchSessions env regexp s)).
Proof.
  rewrite batches_of_cons. unfold matched_count.
  destruct (_searchSessions env regexp s) as [|m ms]; simpl; [done|].
  by rewrite !app_nil_r.
Qed.

(** What one iteration of the loop emits for a stored session. *)
Lemma loop_batch env regexp (s : Session) :
  (if 0 <? Z.of_nat (length (_searchSessions env regexp s))
   then emitBatch [with_messages s (_searchSessions env regexp s)] else [])
  = batches_of env regexp [s].
Proof.
  rewrite batches_of_cons. simpl. rewrite app_nil_r.
  by destruct (_searchSessions env regexp s).
Qed.

Lemma loop_total env regexp (s : Session) total :
  (if 0 <? Z.of_nat (length (_searchSessions env regexp s))
   then total + Z.of_nat (length (_searchSessions env regexp s)) else total)
  = total + matched_count (batches_of env regexp [s]).
Proof.
  rewrite matched_count_session.
  destruct (Z.ltb_spec 0 (Z.of_nat (length (_searchSessions env regexp s)))); lia.
Qed.

(** The batches emitted by the loop are those of the sessions it scanned. *)
Lemma scan_emitted env regexp (sessionsList : list SessionMeta) total :
  emitted (scan_sessions env regexp sessionsList total)
  = batches_of env regexp (scanned (scan_sessions env regexp sessionsList total)).
Proof.
  revert total. induction sessionsList as [|sessionMeta rest IH]; intros total; simpl; [done|].
  destruct (getItem_session env _) as [e|[session|]]; [done| |apply IH].
  rewrite loop_batch, loop_total.
  destruct (50 <=? _); cbn [emitted scanned]; [done|].
  rewrite IH.
  symmetry. apply (batches_of_app _ _ [session]).
Qed.

(** A session is scanned only while the matches of the sessions scanned
    before it stay below 50. *)
Lemma scan_cap env regexp (sessionsList : list SessionMeta) total
    (before after : list Session) (s : Session) :
  total < 50 →
  scanned (scan_sessions env regexp sessionsList total) = (before ++ s :: after)%list →
  total + matched_count (batches_of env regexp before) < 50.
Proof.
  assert (Hnil : ∀ t, t < 50 → t + matched_count (batches_of env regexp []) < 50).
  { intros t Ht. unfold matched_count; simpl. lia. }
  revert total before. induction sessionsList as [|sessionMeta rest IH];
    intros total before Htotal; cbn [scan_sessions].
  { by destruct before. }
  destruct (getItem_session env _) as [e|[session|]].
  - by destruct before.
  - rewrite loop_total.
    destruct (Z.leb_spec 50 (total + matched_count (batches_of env regexp [session])))
      as [Hcap|Hcap]; cbn [scanned].
    + destruct before as [|x [|y before]]; [intros _; by apply Hnil | done | done].
    + destruct before as [|x before]; [intros _; by apply Hnil|].
      intros [= <- Hrest]. specialize (IH _ _ Hcap Hrest).
      pose proof (batches_of_app env regexp [session] before) as Happ.
      change ([session] ++ before)%list with (session :: before) in Happ.
      rewrite Happ, matched_count_app. lia.
  - by apply IH.
Qed.

(** A split of the emitted batches comes from a split of the scanned
    sessions. *)
Lemma batches_of_split env regexp (l : list Session)
    (before after : list (list Session)) (b : list Session) :
  batches_of env regexp l = (before ++ b :: after)%list →
  ∃ l1 s l2, l = (l1 ++ s :: l2)%list ∧ before = batches_of env regexp l1.
Proof.
  revert before. induction l as [|x l IH]; intros before; [by destruct before|].
  rewrite batches_of_cons.
  destruct (_searchSessions env regexp x) as [|m ms] eqn:Hx; simpl.
  - intros Hl. destruct (IH _ Hl) as (l1 & s & l2 & -> & ->).
    exists (x :: l1), s, l2. split; [done|].
    rewrite batches_of_cons, Hx. done.
  - destruct before as [|b0 before]; simpl.
    + intros _. by exists [], x, l.
    + intros [= <- Hl]. destruct (IH _ Hl) as (l1 & s & l2 & -> & ->).
      exists (x :: l1), s, l2. split; [done|].
      rewrite batches_of_cons, Hx. done.
Qed.

(** Sessions without a match emit nothing. *)
Lemma scan_none env regexp (sessionsList : list SessionMeta) total :
  (∀ x, x ∈ stored_sessions env sessionsList → _searchSessions env regexp x = []) →
  emitted (scan_sessions env regexp sessionsList total) = [].
Proof.
  revert total. induction sessionsList as [|sessionMeta rest IH]; intros total; simpl; [done|].
  destruct (getItem_session env _) as [e|[session|]]; [done| |apply IH].
  intros Hnone. rewrite (Hnone session) by apply list_elem_of_here. simpl.
  destruct (50 <=? total); simpl; [done|].
  apply IH. intros x Hx. apply Hnone. by right.
Qed.



(** Without a session id, the run emits the batches of the sessions it
    scanned. *)
Lemma searchSessions_emitted env (searchInput : string) (sessionId : option string) :
  truthy_opt sessionId = false →
  emitted (searchSessions env searchInput sessionId)
  = batches_of env (escape searchInput) (scanned (searchSessions env searchInput sessionId)).
Proof.
  intros Hid. unfold searchSessions. rewrite Hid.
  destruct (getItem_sessionsList env) as [e|list]; [done | apply scan_emitted].
Qed.

Lemma matched_count_nonneg (b : list (list Session)) : 0 ≤ matched_count b.
Proof. unfold matched_count. lia. Qed.

Lemma matched_count_one env regexp (session : Session) :
  matched_count
    (match _searchSessions env regexp session with
     | [] => []
     | matched => [[with_messages session matched]]
     end)
  = Z.of_nat (length (_searchSessions env regexp session)).
Proof.
  destruct (_searchSessions env regexp session) as [|m l]; [done|].
  unfold matched_count. simpl. rewrite !app_nil_r. done.
Qed.

Lemma scan_step_batch env regexp (session : Session) :
  (if 0 <? Z.of_nat (length (_searchSessions env regexp session))
   then emitBatch [with_messages session (_searchSessions env regexp session)] else [])
  = match _searchSessions env regexp session with
    | [] => []
    | matched => [[with_messages session matched]]
    end.
Proof. by destruct (_searchSessions env regexp session). Qed.

Lemma scan_step_total env regexp (session : Session) (total : Z) :
  (if 0 <? Z.of_nat (length (_searchSessions env regexp session))
   then total + Z.of_nat (length (_searchSessions env regexp session)) else total)
  = total + Z.of_nat (length (_searchSessions env regexp session)).
Proof. destruct (Z.ltb_spec 0 (Z.of_nat (length (_searchSessions env regexp session)))); lia. Qed.

Lemma scan_prefix env regexp (sessionsList : list SessionMeta) (total : Z) :
  ∃ rest,
    stored_sessions env sessionsList
    = (scanned (scan_sessions env regexp sessionsList total) ++ rest)%list
    ∧ (outcome (scan_sessions env regexp sessionsList total) = inr () →
       total + matched_count (emitted (scan_sessions env regexp sessionsList total)) < 50 →
       rest = []).
Proof.
  revert total. induction sessionsList as [|sessionMeta later IH]; intros total.
  { by exists []. }
  cbn [scan_sessions stored_sessions].
  destruct (getItem_session env (session_key env (meta_id sessionMeta))) as [e|[session|]].
  - exists (stored_sessions env later). by split.
  - rewrite scan_step_batch, scan_step_total.
    set (n := Z.of_nat (length (_searchSessions env regexp session))).
    destruct (Z.leb_spec 50 (total + n)) as [Hcap|Hcap]; cbn [scanned emitted outcome].
    + exists (stored_sessions env later). split; [done|]. intros _.
      rewrite matched_count_one. fold n. lia.
    + destruct (IH (total + n)) as (rest & Hrest & Hall).
      exists rest. split; [by rewrite Hrest|]. intros Hout.
      rewrite matched_count_app, matched_count_one. fold n. intros Hlt.
      apply Hall; [done | lia].
  - apply IH.
Qed.

Lemma scan_rejected env regexp (pre post : list SessionMeta) (sessionMeta : SessionMeta)
    (e : Thrown) (total : Z) :
  all_load env pre →
  getItem_session env (session_key env (meta_id sessionMeta)) = inl e →
  total + matched_count (batches_of env regexp (stored_sessions env pre)) < 50 →
  scan_sessions env regexp (pre ++ sessionMeta :: post) total
  = mkRun (batches_of env regexp (stored_sessions env pre)) (stored_sessions env pre) (inl e).
Proof.
  intros Hload Hbad. revert total Hload.
  induction pre as [|first pre IH]; intros total Hload Hlt.
  { cbn [app scan_sessions]. by rewrite Hbad. }
  assert (Hrest : all_load env pre).
  { intros x Hx. apply Hload. by right. }
  cbn [app scan_sessions stored_sessions] in Hlt |- *.
  destruct (Hload first (list_elem_of_here _ _)) as [r Hr]. rewrite Hr in Hlt |- *.
  destruct r as [session|]; [|by apply IH].
  rewrite batches_of_cons, matched_count_app, matched_count_one in Hlt.
  rewrite scan_step_batch, scan_step_total.
  pose proof (matched_count_nonneg (batches_of env regexp (stored_sessions env pre))).
  destruct (Z.leb_spec 50 (total + Z.of_nat (length (_searchSessions env regexp session))));
    [lia|].
  rewrite IH; [|done|lia]. cbn [emitted scanned outcome]. by rewrite batches_of_cons.
Qed.

(** The cap on the scanned sessions of a run without a session id. *)
Lemma searchSessions_scan_cap env (searchInput : string) (sessionId : option string) :
  truthy_opt sessionId = false →
  ∀ before s after,
    scanned (searchSessions env searchInput sessionId) = (before ++ s :: after)%list →
    matched_count (batches_of env (escape searchInput) before) < 50.
Proof.
  intros Hid before s after. unfold searchSessions. rewrite Hid.
  destruct (getItem_sessionsList env) as [e|list]; [by destruct before|].
  intros Hsplit. pose proof (scan_cap _ _ _ 0 _ _ _ eq_refl Hsplit). lia.
Qed.

Lemma copy_with_messages (session : Session) (matched : list Message) :
  copy_with session matched (with_messages session matched).
Proof. by repeat split. Qed.

(** The batch of a scanned session among the batches of a run. *)
Lemma batches_of_at env regexp (before after : list Session) (s : Session) :
  _searchSessions env regexp s ≠ [] →
  batches_of env regexp (before ++ s :: after)
  = (batches_of env regexp before
     ++ [with_messages s (_searchSessions env regexp s)] :: batches_of env regexp after)%list.
Proof.
  intros Hs. rewrite batches_of_app, batches_of_cons.
  destruct (_searchSessions env regexp s) as [|m ms]; [by destruct Hs | done].
Qed.


(** A scan is rejected only by the load of a list entry, after the sessions
    before that entry were scanned. *)
Lemma scan_outcome env regexp (sessionsList : list SessionMeta) total (e : Thrown) :
  outcome (scan_sessions env regexp sessionsList total) = inl e →
  ∃ pre sessionMeta post,
    sessionsList = (pre ++ sessionMeta :: post)%list
    ∧ all_load env pre
    ∧ getItem_session env (session_key env (meta_id sessionMeta)) = inl e
    ∧ scanned (scan_sessions env regexp sessionsList total) = stored_sessions env pre.
Proof.
  revert total. induction sessionsList as [|first rest IH]; intros total;
    cbn [scan_sessions]; [done|].
  destruct (getItem_session env (session_key env (meta_id first))) as [e'|[session|]] eqn:Hfirst.
  - cbn [outcome scanned]. intros [= ->]. exists [], first, rest.
    split; [done|]. split; [|done]. intros x Hx. by apply elem_of_nil in Hx.
  - destruct (50 <=? _); cbn [outcome scanned]; [done|]. intros Hout.
    destruct (IH _ Hout) as (pre & sessionMeta & post & -> & Hload & Hbad & Hscanned).
    exists (first :: pre), sessionMeta, post. split; [done|]. split; [|split; [done|]].
    + intros x Hx. apply elem_of_cons in Hx as [->|Hx]; [by eexists | by apply Hload].
    + cbn [stored_sessions]. by rewrite Hfirst, Hscanned.
  - intros Hout.
    destruct (IH _ Hout) as (pre & sessionMeta & post & Hsplit & Hload & Hbad & Hscanned).
    exists (first :: pre), sessionMeta, post. split; [by rewrite Hsplit|].
    split; [|split; [done|]].
    + intros x Hx. apply elem_of_cons in Hx as [->|Hx]; [by eexists | by apply Hload].
    + cbn [stored_sessions]. by rewrite Hfirst.
Qed.

(** The scan reaches every stored session before which fewer than 50
    matches were found and no load was rejected. *)
Lemma scan_reaches env regexp (pre post : list SessionMeta) (sessionMeta : SessionMeta)
    (s : Session) total :
  all_load env pre →
  getItem_session env (session_key env (meta_id sessionMeta)) = inr (Some s) →
  total + matched_count (batches_of env regexp (stored_sessions env pre)) < 50 →
  ∃ later, scanned (scan_sessions env regexp (pre ++ sessionMeta :: post) total)
           = (stored_sessions env pre ++ s :: later)%list.
Proof.
  intros Hload Hs. revert total Hload.
  induction pre as [|first pre IH]; intros total Hload Hlt.
  { cbn [app scan_sessions stored_sessions]. rewrite Hs.
    destruct (50 <=? _); cbn [scanned]; by eexists. }
  assert (Hrest : all_load env pre).
  { intros x Hx. apply Hload. by right. }
  cbn [app scan_sessions stored_sessions] in Hlt |- *.
  destruct (Hload first (list_elem_of_here _ _)) as [r Hr]. rewrite Hr in Hlt |- *.
  destruct r as [session|]; [|by apply IH].
  rewrite batches_of_cons, matched_count_app, matched_count_one in Hlt.
  rewrite scan_step_batch, scan_step_total.
  pose proof (matched_count_nonneg (batches_of env regexp (stored_sessions env pre))).
  destruct (Z.leb_spec 50 (total + Z.of_nat (length (_searchSessions env regexp session))));
    [lia|].
  destruct (IH (total + Z.of_nat (length (_searchSessions env regexp session))) Hrest)
    as [later Hlater]; [lia|].
  exists later. cbn [scanned]. by rewrite Hlater.
Qed.






(** C5. Without a session id: the emitted batches are exactly the batches
    of the scanned sessions; a session is scanned, and a batch emitted, only
    while the matches counted before it are below 50; every scanned session
    with a match has its batch emitted, a single copy of the session whose
    messages are all of its matches; and a stored session before which fewer
    than 50 matches were found and no load was rejected is scanned, so the
    session that reaches or crosses 50 is emitted in full and is the last.
    With a session id the found session is emitted with all its matches,
    however many. *)
Theorem searchSessions_cap env (searchInput : string) (sessionId : option string) :
  let run := searchSessions env searchInput sessionId in
  let regexp := escape searchInput in
  (truthy_opt sessionId = false →
     emitted run = batches_of env regexp (scanned run)
     ∧ (∀ before s after, scanned run = (before ++ s :: after)%list →
          matched_count (batches_of env regexp before) < 50)
     ∧ (∀ before b after, emitted run = (before ++ b :: after)%list →
          matched_count before < 50)
     ∧ (∀ before s after, scanned run = (before ++ s :: after)%list →
          _searchSessions env regexp s ≠ [] →
          ∃ copy, emitted run
                  = (batches_of env regexp before ++ [copy] :: batches_of env regexp after)%list
                  ∧ copy_with s (_searchSessions env regexp s) copy)
     ∧ (∀ list pre sessionMeta post s,
          getItem_sessionsList env = inr list →
          sortSessions env list = (pre ++ sessionMeta :: post)%list →
          all_load env pre →
          getItem_session env (session_key env (meta_id sessionMeta)) = inr (Some s) →
          matched_count (batches_of env regexp (stored_sessions env pre)) < 50 →
          ∃ later,
            scanned run = (stored_sessions env pre ++ s :: later)%list
            ∧ (50 ≤ matched_count (batches_of env regexp (stored_sessions env pre))
                    + Z.of_nat (length (_searchSessions env regexp s)) →
               later = []
               ∧ ∃ copy, emitted run
                         = (batches_of env regexp (stored_sessions env pre) ++ [[copy]])%list
                         ∧ copy_with s (_searchSessions env regexp s) copy)))
  ∧ (∀ session, truthy_opt sessionId = true →
       getItem_session env (session_key env (default "" sessionId)) = inr (Some session) →
       emitted run = [[with_messages session (_searchSessions env regexp session)]]
       ∧ ∃ copy, emitted run = [[copy]]
                 ∧ copy_with session (_searchSessions env regexp session) copy).
Proof.
  intros run regexp. subst run regexp. split.
  - intros Hid.
    pose proof (searchSessions_emitted env searchInput sessionId Hid) as Hemit.
    pose proof (searchSessions_scan_cap env searchInput sessionId Hid) as Hscan.
    split; [exact Hemit|]. split; [exact Hscan|]. split.
    { intros before b after Hsplit. rewrite Hemit in Hsplit.
      apply batches_of_split in Hsplit as (l1 & s & l2 & Hl & ->). by eapply Hscan. }
    split.
    { intros before s after Hsplit Hs.
      exists (with_messages s (_searchSessions env (escape searchInput) s)).
      split; [|apply copy_with_messages]. rewrite Hemit, Hsplit. by apply batches_of_at. }
    intros list pre sessionMeta post s Hlist Hsorted Hload Hs Hlt.
    assert (Hrun : searchSessions env searchInput sessionId
                   = scan_sessions env (escape searchInput) (pre ++ sessionMeta :: post) 0).
    { unfold searchSessions. by rewrite Hid, Hlist, Hsorted. }
    destruct (scan_reaches env (escape searchInput) pre post sessionMeta s 0 Hload Hs)
      as [later Hlater]; [lia|].
    rewrite <- Hrun in Hlater. exists later. split; [done|]. intros Hcross.
    assert (Hlast : later = []).
    { destruct later as [|y later]; [done|]. exfalso.
      pose proof (Hscan (stored_sessions env pre ++ [s])%list y later) as Hbound.
      rewrite <- app_assoc in Hbound. specialize (Hbound Hlater).
      rewrite batches_of_app, matched_count_app, matched_count_session in Hbound. lia. }
    split; [done|]. subst later.
    exists (with_messages s (_searchSessions env (escape searchInput) s)).
    split; [|apply copy_with_messages]. rewrite Hemit, Hlater.
    rewrite batches_of_at; [done|].
    intros Hnil. rewrite Hnil in Hcross. simpl in Hcross. lia.
  - intros session Hid Hload. unfold searchSessions. rewrite Hid, Hload. cbn [emitted].
    split; [reflexivity|]. eexists. split; [reflexivity|]. apply copy_with_messages.
Qed.

Lemma searchSessions_cap_witness :
  map session_id (scanned (searchSessions cap_store "errorXYZ" None)) = ["a"; "b"]
  ∧ (∃ copy, last (emitted (searchSessions cap_store "errorXYZ" None)) = Some [copy]
             ∧ length (messages copy) = 5%nat)
  ∧ (∃ copy, emitted (searchSessions one_busy "errorXYZ" (Some "a")) = [[copy]]
             ∧ length (messages copy) = 60%nat).
Proof.
  destruct (proj1 (searchSessions_cap cap_store "errorXYZ" None) eq_refl)
    as (_ & _ & _ & _ & Hreach).
  destruct (Hreach [mkMeta "a" "a"; mkMeta "b" "b"; mkMeta "c" "c"]
              [mkMeta "a" "a"] (mkMeta "b" "b") [mkMeta "c" "c"] (busy_session "b" 5)
              eq_refl eq_refl) as (later & Hscanned & Hcross).
  { intros x Hx. apply list_elem_of_singleton in Hx as ->. by eexists. }
  { reflexivity. }
  { by vm_compute. }
  destruct Hcross as (-> & copy & Hemitted & Hcopy & _); [by vm_compute|].
  split; [by rewrite Hscanned|]. split.
  - exists copy. rewrite Hemitted, last_snoc. split; [done|]. rewrite Hcopy. by vm_compute.
  - destruct (proj2 (searchSessions_cap one_busy "errorXYZ" (Some "a"))
                (busy_session "a" 60) eq_refl eq_refl) as (_ & whole & Hwhole & Hall & _).
    exists whole. split; [done|]. rewrite Hall. by vm_compute.
Defined.




(** C10. With a non-empty session id whose session the store holds, exactly
    one batch is emitted: a copy of the session with its messages replaced
    by the matches, so with an empty messages list when nothing matches.  On
    the path without a session id, sessions without a match emit nothing. *)
Theorem searchSessions_single env (searchInput id : string) (session : Session) :
  id ≠ "" →
  getItem_session env (session_key env id) = inr (Some session) →
  let run := searchSessions env searchInput (Some id) in
  let regexp := escape searchInput in
  emitted run = [[with_messages session (_searchSessions env regexp session)]]
  ∧ scanned run = [session]
  ∧ outcome run = inr ()
  ∧ (_searchSessions env regexp session = [] →
       emitted run = [[with_messages session []]])
  ∧ (∀ sessionsList total,
       (∀ x, x ∈ stored_sessions env sessionsList → _searchSessions env regexp x = []) →
       emitted (scan_sessions env regexp sessionsList total) = [])
  ∧ (∃ copy, emitted run = [[copy]]
             ∧ copy_with session (_searchSessions env regexp session) copy
             ∧ (_searchSessions env regexp session = [] → messages copy = [])).
Proof.
  intros Hid Hload run regexp. subst run. unfold searchSessions. fold regexp.
  change (truthy_opt (Some id)) with (truthy id). rewrite (truthy_nonempty _ Hid).
  change (default "" (Some id)) with id. rewrite Hload. cbn [emitted scanned outcome].
  change (emitBatch [?x]) with [[x]].
  split; [done|]. split; [done|]. split; [done|]. split; [by intros ->|]. split.
  - intros sessionsList total. apply scan_none.
  - exists (with_messages session (_searchSessions env regexp session)).
    split; [done|]. split; [apply copy_with_messages|]. by intros ->.
Qed.

Lemma searchSessions_single_witness :
  ∃ copy, emitted (searchSessions scenario_D "errorXYZ" (Some "s1")) = [[copy]]
          ∧ messages copy = [] ∧ session_id copy = "s1".
Proof.
  destruct (searchSessions_single scenario_D "errorXYZ" "s1" session_one)
    as (_ & _ & _ & _ & _ & copy & Hemitted & (_ & Hid & _) & Hempty);
    [discriminate | reflexivity |].
  exists copy. split; [done|]. split; [|done]. apply Hempty. by vm_compute.
Defined.


End SearchFacts.

(** ** Message lists, thread history and export *)

Section SessionsFacts.
Import Ingestion Search Sessions.

Lemma foldl_thread_messages (acc : list Message) (ths : list SessionThread) :
  foldl (λ messageContext thread, (messageContext ++ thread_messages thread)%list) acc ths
  = (acc ++ flat_map thread_messages ths)%list.
Proof.
  revert acc. induction ths as [|thread ths IH]; intros acc; simpl.
  - by rewrite app_nil_r.
  - by rewrite IH, <- app_assoc.
Qed.

Lemma getAllMessageList_flat (s : Session) :
  getAllMessageList s
  = (flat_map thread_messages (default [] (threads s)) ++ messages s)%list.
Proof.
  unfold getAllMessageList. destruct (threads s) as [ths|]; simpl; [|done].
  by rewrite foldl_thread_messages.
Qed.

Lemma rev_flat_map {A B} (f : A → list B) (l : list A) :
  rev (flat_map f l) = flat_map (λ x, rev (f x)) (rev l).
Proof.
  induction l as [|x l IH]; simpl; [done|].
  rewrite rev_app_distr, IH, flat_map_app. simpl. by rewrite app_nil_r.
Qed.

Lemma filter_flat_map {A B} (p : B → bool) (f : A → list B) (l : list A) :
  List.filter p (flat_map f l) = flat_map (λ x, List.filter p (f x)) l.
Proof.
  induction l as [|x l IH]; simpl; [done|]. by rewrite List.filter_app, IH.
Qed.

(** X1. The messages a search of one session returns are exactly the
    messages of its full message list ([getAllMessageList] of the migrated
    session) whose text matches, most recent first, each passed through
    [migrateMessage]; so there are never more of them than the session has
    messages. *)
Theorem searchSessions_of_all_messages env (regexp : string) (s : Session) :
  _searchSessions env regexp s
  = map (migrateMessage env)
      (List.filter (λ m, regexp_test env regexp (getMessageText env m))
         (rev (getAllMessageList (migrateSession env s))))
  ∧ (length (_searchSessions env regexp s)
     ≤ length (getAllMessageList (migrateSession env s)))%nat.
Proof.
  assert (Heq : _searchSessions env regexp s
    = map (migrateMessage env)
        (List.filter (λ m, regexp_test env regexp (getMessageText env m))
           (rev (getAllMessageList (migrateSession env s))))).
  { unfold _searchSessions, matching. rewrite getAllMessageList_flat.
    rewrite rev_app_distr, List.filter_app, rev_flat_map, filter_flat_map.
    destruct (threads (migrateSession env s)) as [ths|]; simpl; [done|].
    by rewrite app_nil_r. }
  split; [exact Heq|].
  rewrite Heq, length_map.
  etransitivity; [apply List.filter_length_le|]. by rewrite length_rev.
Qed.


(** X2. The file [exportChat] writes holds what the formatter of the
    chosen format returns for the session name and the exported threads.
    These threads end with the current thread, which holds the live
    messages; under the scope ['all_threads'] their messages, in order, are
    the session's full message list, and under any other scope only the live
    messages.  Exactly one file is written for the formats ['Markdown'],
    ['TXT'] and ['HTML'], named after the session with the extension of the
    format, and none for any other format. *)
Theorem exportChat_threads (fmt : Formatters) (session : Session)
    (threadName : option string) (scope format : string) (now : Z) :
  let exported := export_threads session threadName scope now in
  (∃ archived current,
     exported = (archived ++ [current])%list
     ∧ thread_id current = session_id session
     ∧ thread_messages current = messages session)
  ∧ (scope = "all_threads" →
       flat_map thread_messages exported = getAllMessageList session)
  ∧ (scope ≠ "all_threads" → flat_map thread_messages exported = messages session)
  ∧ (length (exportChat fmt session threadName scope format now) ≤ 1)%nat
  ∧ (format ≠ "Markdown" → format ≠ "TXT" → format ≠ "HTML" →
       exportChat fmt session threadName scope format now = [])
  ∧ (∀ name body, (name, body) ∈ exportChat fmt session threadName scope format now →
       (format = "Markdown" ∧ name = session_name session +:+ ".md")
       ∨ (format = "TXT" ∧ name = session_name session +:+ ".txt")
       ∨ (format = "HTML" ∧ name = session_name session +:+ ".html"))
  ∧ (format = "Markdown" →
       exportChat fmt session threadName scope format now
       = [(session_name session +:+ ".md",
           formatChatAsMarkdown fmt (session_name session) exported)])
  ∧ (format = "TXT" →
       exportChat fmt session threadName scope format now
       = [(session_name session +:+ ".txt",
           formatChatAsTxt fmt (session_name session) exported)])
  ∧ (format = "HTML" →
       exportChat fmt session threadName scope format now
       = [(session_name session +:+ ".html",
           formatChatAsHtml fmt (session_name session) exported)]).
Proof.
  intros exported.
  assert (Hthreads :
    (∃ archived current,
       exported = (archived ++ [current])%list
       ∧ thread_id current = session_id session
       ∧ thread_messages current = messages session)
    ∧ (scope = "all_threads" →
         flat_map thread_messages exported = getAllMessageList session)
    ∧ (scope ≠ "all_threads" → flat_map thread_messages exported = messages session)).
  { subst exported. unfold export_threads. split; [by eexists _, _|]. split.
    - intros ->. simpl. rewrite flat_map_app, getAllMessageList_flat. simpl.
      by rewrite app_nil_r.
    - intros Hscope. apply String.eqb_neq in Hscope. rewrite Hscope. simpl.
      by rewrite app_nil_r. }
  destruct Hthreads as (Hlast & Hall & Hlive).
  split; [exact Hlast|]. split; [exact Hall|]. split; [exact Hlive|].
  unfold exportChat. fold exported.
  destruct (String.eqb_spec format "Markdown") as [->|HM].
  { split; [done|]. split; [done|]. split; [|done].
    intros name body Hin. apply list_elem_of_singleton in Hin as [= -> ->]. by left. }
  destruct (String.eqb_spec format "TXT") as [->|HT].
  { split; [simpl; lia|]. split; [done|]. split; [|done].
    intros name body Hin. apply list_elem_of_singleton in Hin as [= -> ->]. right. by left. }
  destruct (String.eqb_spec format "HTML") as [->|HH].
  { split; [simpl; lia|]. split; [done|]. split; [|done].
    intros name body Hin. apply list_elem_of_singleton in Hin as [= -> ->]. right. by right. }
  split; [simpl; lia|]. split; [done|]. split; [|done].
  intros name body Hin. by apply elem_of_nil in Hin.
Qed.

Lemma exportChat_threads_witness :
  exportChat message_ids archived_session None "all_threads" "TXT" 0
  = [(session_name archived_session +:+ ".txt",
      String.concat "," (map message_id (getAllMessageList archived_session)))]
  ∧ exportChat message_ids archived_session None "all_threads" "PDF" 0 = [].
Proof.
  pose proof (exportChat_threads message_ids archived_session None "all_threads" "TXT" 0)
    as (_ & Hall & _ & _ & _ & _ & _ & Htxt & _).
  pose proof (exportChat_threads message_ids archived_session None "all_threads" "PDF" 0)
    as (_ & _ & _ & _ & Hnone & _).
  split; [|by apply Hnone].
  rewrite (Htxt eq_refl). unfold message_ids. cbn [formatChatAsTxt].
  by rewrite (Hall eq_refl).
Defined.

(** The history after the loop over the threads. *)
Lemma add_threads_lookup (dateLabel : Z → string) (ths : list SessionThread)
    (ret : gmap string SessionThreadBrief) (k : string) (b : SessionThreadBrief) :
  foldl (add_thread dateLabel) ret ths !! k = Some b →
  ret !! k = Some b
  ∨ ∃ thread first rest, thread ∈ ths ∧ thread_messages thread = first :: rest
      ∧ k = message_id first ∧ b = thread_brief dateLabel thread first.
Proof.
  revert ret. induction ths as [|thread ths IH]; intros ret; simpl; [by left|].
  intros Hk. apply IH in Hk as [Hk|(t & first & rest & Hin & Hm & -> & ->)].
  - unfold add_thread in Hk. destruct (thread_messages thread) as [|first rest] eqn:Hm; [by left|].
    destruct (decide (message_id first = k)) as [<-|Hne].
    + rewrite lookup_insert_eq in Hk. injection Hk as <-.
      right. exists thread, first, rest. split; [apply list_elem_of_here | done].
    + rewrite lookup_insert_ne in Hk by done. by left.
  - right. exists t, first, rest. split; [by right | done].
Qed.

Lemma add_threads_keeps (dateLabel : Z → string) (ths : list SessionThread)
    (ret : gmap string SessionThreadBrief) (k : string) :
  is_Some (ret !! k) → is_Some (foldl (add_thread dateLabel) ret ths !! k).
Proof.
  revert ret. induction ths as [|thread ths IH]; intros ret Hk; simpl; [done|].
  apply IH. unfold add_thread. destruct (thread_messages thread) as [|first rest]; [done|].
  destruct (decide (message_id first = k)) as [<-|Hne].
  - rewrite lookup_insert_eq. by eexists.
  - by rewrite lookup_insert_ne.
Qed.

Lemma add_threads_covers (dateLabel : Z → string) (ths : list SessionThread)
    (ret : gmap string SessionThreadBrief) (thread : SessionThread) first rest :
  thread ∈ ths → thread_messages thread = first :: rest →
  is_Some (foldl (add_thread dateLabel) ret ths !! message_id first).
Proof.
  revert ret. induction ths as [|t ths IH]; intros ret Hin Hm; [by apply elem_of_nil in Hin|].
  apply elem_of_cons in Hin as [<-|Hin]; simpl.
  - apply add_threads_keeps. unfold add_thread. rewrite Hm, lookup_insert_eq. by eexists.
  - by apply IH.
Qed.

Lemma add_threads_size (dateLabel : Z → string) (ths : list SessionThread)
    (ret : gmap string SessionThreadBrief) :
  (size (foldl (add_thread dateLabel) ret ths) ≤ size ret + length ths)%nat.
Proof.
  revert ret. induction ths as [|thread ths IH]; intros ret; simpl; [lia|].
  etransitivity; [apply IH|].
  unfold add_thread. destruct (thread_messages thread) as [|first rest]; [lia|].
  rewrite map_size_insert. destruct (ret !! message_id first); simpl; lia.
Qed.

(** X3. The thread history of a session without a [threads] field is
    empty, whatever its live messages.  Otherwise every entry is filed under
    the id of the first message of the thread it describes and counts at
    least one message; it is the entry of the current thread or of a
    non-empty archived thread; every non-empty archived thread has its first
    message id among the keys; the live messages, when there are any, are
    found under the id of their first message as the current thread; and
    there are at most as many entries as archived threads, plus one. *)
Theorem getCurrentThreadHistoryHash_entries (dateLabel : Z → string) (s : Session)
    (threadName : option string) :
  let ret := getCurrentThreadHistoryHash dateLabel s threadName in
  (threads s = None → ret = ∅)
  ∧ (∀ k b, ret !! k = Some b →
       firstMessageId b = k ∧ 1 ≤ messageCount b
       ∧ ((∃ first rest, messages s = first :: rest ∧ b = current_brief s threadName first)
          ∨ ∃ ths thread first rest,
              threads s = Some ths ∧ thread ∈ ths
              ∧ thread_messages thread = first :: rest
              ∧ b = thread_brief dateLabel thread first))
  ∧ (∀ ths thread first rest,
       threads s = Some ths → thread ∈ ths → thread_messages thread = first :: rest →
       is_Some (ret !! message_id first))
  ∧ (∀ ths first rest,
       threads s = Some ths → messages s = first :: rest →
       ret !! message_id first = Some (current_brief s threadName first))
  ∧ (size ret ≤ length (default [] (threads s)) + 1)%nat.
Proof.
  intros ret. subst ret. unfold getCurrentThreadHistoryHash.
  destruct (threads s) as [ths|] eqn:Hths.
  2: { split; [done|]. split; [intros k b Hk; by rewrite lookup_empty in Hk|].
       split; [done|]. split; [done|]. rewrite map_size_empty. simpl. lia. }
  assert (Hthread : ∀ k b, foldl (add_thread dateLabel) ∅ ths !! k = Some b →
            firstMessageId b = k ∧ 1 ≤ messageCount b
            ∧ ∃ ths0 thread first rest, Some ths = Some ths0 ∧ thread ∈ ths0
                ∧ thread_messages thread = first :: rest
                ∧ b = thread_brief dateLabel thread first).
  { intros k b Hk. apply add_threads_lookup in Hk as [Hk|(t & first & rest & Hin & Hm & -> & ->)].
    - by rewrite lookup_empty in Hk.
    - split; [done|]. split; [simpl; rewrite Hm; simpl; lia|].
      by exists ths, t, first, rest. }
  split; [done|].
  destruct (messages s) as [|first rest] eqn:Hm.
  - split; [intros k b Hk; destruct (Hthread k b Hk) as (? & ? & ?); auto|].
    split; [intros ths0 t f r [= <-]; apply add_threads_covers|].
    split; [done|].
    etransitivity; [apply add_threads_size|]. rewrite map_size_empty. simpl. lia.
  - split.
    { intros k b. destruct (decide (message_id first = k)) as [<-|Hne].
      - rewrite lookup_insert_eq. intros [= <-]. split; [done|].
        split; [simpl; rewrite Hm; simpl; lia|]. left. by exists first, rest.
      - rewrite lookup_insert_ne by done. intros Hk.
        destruct (Hthread k b Hk) as (? & ? & ?); auto. }
    split.
    { intros ths0 t f r [= <-] Hin Ht.
      destruct (decide (message_id first = message_id f)) as [->|Hne].
      - rewrite lookup_insert_eq. by eexists.
      - rewrite lookup_insert_ne by done. by eapply add_threads_covers. }
    split; [intros ths0 f r _ [= <- _]; apply lookup_insert_eq|].
    rewrite map_size_insert.
    pose proof (add_threads_size dateLabel ths ∅) as Hsize. rewrite map_size_empty in Hsize.
    destruct (_ !! message_id first); simpl; lia.
Qed.

Lemma getCurrentThreadHistoryHash_entries_witness :
  getCurrentThreadHistoryHash (λ _, "label") (mkSession "s" "n" [text_message "m" "x"] None) None
  = ∅
  ∧ getCurrentThreadHistoryHash (λ _, "label") archived_session None !! "m3"
    = Some (current_brief archived_session None (text_message "m3" "now")).
Proof.
  split.
  - by apply (getCurrentThreadHistoryHash_entries (λ _, "label")
                (mkSession "s" "n" [text_message "m" "x"] None) None).
  - pose proof (getCurrentThreadHistoryHash_entries (λ _, "label") archived_session None)
      as (_ & _ & _ & Hcurrent & _).
    by eapply (Hcurrent _ (text_message "m3" "now") []).
Defined.







End SessionsFacts.

(** ** Call settings *)

Section ClaudeFacts.
Import Claude.
Context {number : Type}.

(** X6. The call settings never carry both a temperature and a topP: a
    configured temperature is passed on and suppresses topP, and topP is
    passed on only when no temperature is configured.  The output limit is
    passed on as configured.  Provider options are sent only to a model that
    supports reasoning, under the single key [anthropic], and are the options
    requested for [claude]. *)
Theorem getCallSettings_exclusive (reasoning : bool) (this_options : @Options number)
    (requested : option (gmap string (gmap string JSONValue))) :
  let settings := getCallSettings reasoning this_options requested in
  ¬ (is_Some (call_temperature settings) ∧ is_Some (call_topP settings))
  ∧ call_temperature settings = temperature this_options
  ∧ call_topP settings
    = match temperature this_options with Some _ => None | None => topP this_options end
  ∧ call_maxOutputTokens settings = maxOutputTokens this_options
  ∧ call_providerOptions settings
    = (if reasoning then {[ "anthropic" := default ∅ (requested ≫= (.!! "claude")) ]}
       else ∅).
Proof.
  intros settings. subst settings. unfold getCallSettings.
  destruct (temperature this_options) as [t|], (topP this_options) as [p|]; simpl;
    (split; [intros [[? ?] [? ?]]; done | done]).
Qed.

End ClaudeFacts.

(** ** Token accounting, further *)

Section AccountingFacts.
Import Ingestion IngestionSpec.

Lemma split_lines_length (s : string) :
  length (split_lines s) = S (count_newlines s).
Proof.
  induction s as [|c rest IH]; simpl; [done|].
  destruct (Ascii.eqb c "010"); simpl; [by rewrite IH|].
  pose proof (split_lines_nonempty rest) as Hne.
  destruct (split_lines rest) as [|x l]; [done|]. simpl in *. lia.
Qed.

Lemma utf8_length_ge (s : string) : Z.of_nat (String.length s) ≤ utf8_length s.
Proof.
  induction s as [|c rest IH]; simpl; [done|].
  destruct (nat_of_ascii c <? 128)%nat; lia.
Qed.






(** What [computePreviewMetadata] returns, in one statement. *)
Lemma computePreviewMetadata_inr env c t existing now r :
  computePreviewMetadata env c t existing now = inr r →
  ∃ n base,
    estimateTokens env (join_lines (take (PREVIEW_LINES env) (split_lines c)))
      (tokenizer_model t) = inr n
    ∧ (base = existing ∧ is_Some (existing !! tokenizer_name t)
       ∨ ∃ full, estimateTokens env c (tokenizer_model t) = inr full
                 ∧ existing !! tokenizer_name t = None
                 ∧ base = <[tokenizer_name t := full]> existing)
    ∧ meta_lineCount r = Z.of_nat (length (split_lines c))
    ∧ meta_byteLength r = utf8_length c
    ∧ meta_tokenCountMap r = <[preview_key t := n]> base.
Proof.
  destruct (existing !! tokenizer_name t) as [v|] eqn:Hv.
  - rewrite (computePreviewMetadata_present _ _ _ _ _ _ Hv).
    destruct (estimateTokens env (join_lines _) _) as [e|n] eqn:Hn; simpl; [done|].
    intros [= <-]. exists n, existing. split; [done|]. split; [left; eauto|]. done.
  - rewrite (computePreviewMetadata_absent _ _ _ _ _ Hv).
    destruct (estimateTokens env c _) as [e|full] eqn:Hfull; simpl; [done|].
    destruct (estimateTokens env (join_lines _) _) as [e|n] eqn:Hn; simpl; [done|].
    intros [= <-]. exists n, (<[tokenizer_name t := full]> existing).
    split; [done|]. split; [right; eauto|]. done.
Qed.

Lemma utf8_length_ascii (s : string) :
  Forall (λ ch, (nat_of_ascii ch < 128)%nat) (list_ascii_of_string s) →
  utf8_length s = Z.of_nat (String.length s).
Proof.
  induction s as [|ch rest IH]; simpl; [done|].
  intros Hall. apply Forall_cons in Hall as [Hch Hrest].
  apply Nat.ltb_lt in Hch. rewrite Hch, (IH Hrest). lia.
Qed.

(** X7. The line count reported for a content is one more than the number
    of its line feeds, so at least 1 even for the empty content.  The byte
    length is the length of the UTF-8 encoding of the content: at least the
    number of characters, and exactly that number for a content of ASCII
    characters.  Both are functions of the content alone: any other call for
    the same content, with whatever tokenizer, token map, time or token
    estimator, reports the same two numbers. *)
Theorem computePreviewMetadata_sizes env (c : string) (t : TokenizerType)
    (existing : gmap string Z) (now : Z) (r : PreviewMetadata) :
  computePreviewMetadata env c t existing now = inr r →
  meta_lineCount r = Z.of_nat (count_newlines c) + 1
  ∧ 1 ≤ meta_lineCount r
  ∧ Z.of_nat (String.length c) ≤ meta_byteLength r
  ∧ meta_byteLength r = utf8_length c
  ∧ (Forall (λ ch, (nat_of_ascii ch < 128)%nat) (list_ascii_of_string c) →
       meta_byteLength r = Z.of_nat (String.length c))
  ∧ (∀ env' t' existing' now' r',
       computePreviewMetadata env' c t' existing' now' = inr r' →
       meta_lineCount r' = meta_lineCount r ∧ meta_byteLength r' = meta_byteLength r).
Proof.
  intros Hr. apply computePreviewMetadata_inr in Hr as (n & base & _ & _ & Hl & Hb & _).
  rewrite Hl, Hb, split_lines_length. pose proof (utf8_length_ge c).
  split; [lia|]. split; [lia|]. split; [lia|]. split; [done|].
  split; [apply utf8_length_ascii|].
  intros env' t' existing' now' r' Hr'.
  apply computePreviewMetadata_inr in Hr' as (n' & base' & _ & _ & Hl' & Hb' & _).
  by rewrite Hl', Hb', split_lines_length.
Qed.

Lemma computePreviewMetadata_sizes_witness :
  ∃ r, computePreviewMetadata (sample_env key_by_name no_fault) "" tokenizer_default ∅ 0 = inr r
       ∧ meta_lineCount r = 1 ∧ meta_byteLength r = 0.
Proof.
  assert (Hr : ∃ r, computePreviewMetadata (sample_env key_by_name no_fault) ""
                      tokenizer_default ∅ 0 = inr r) by (eexists; reflexivity).
  destruct Hr as [r Hr]. exists r. split; [exact Hr|].
  by destruct (computePreviewMetadata_sizes _ _ _ _ _ _ Hr) as (-> & _ & _ & -> & _).
Defined.



End AccountingFacts.

(** ** The pipeline, step by step *)

Section PipelineFacts.
Import Ingestion IngestionSpec.

Lemma bind_inr {A B} (m : M A) (k : A → M B) (w w2 : World) (b : B) :
  (m ≫= k) w = (inr b, w2) → ∃ a w1, m w = (inr a, w1) ∧ k a w1 = (inr b, w2).
Proof.
  unfold mbind, M_bind. destruct (m w) as [[e|a] w1]; [done|]. eauto.
Qed.

Lemma storage_op_inr {A} env op (run : Storage → A * Storage) (w w1 : World) (a : A) :
  storage_op env op run w = (inr a, w1) →
  storageFault env (ticks w) op = None
  ∧ a = (run (storage w)).1
  ∧ w1 = mkWorld (run (storage w)).2 (S (ticks w)) (backendCalls w).
Proof.
  unfold storage_op. destruct (storageFault env (ticks w) op); [done|].
  destruct (run (storage w)) as [a' st]. by intros [= <- <-].
Qed.

(** A handler that only re-throws lets nothing return that the guarded
    computation did not return. *)
Lemma catch_rethrow_inr {A} (m : M A) (handler : Thrown → M A) (w w1 : World) (a : A) :
  (∀ e w0, ∃ e', handler e w0 = (inl e', w0)) →
  try_catch m handler w = (inr a, w1) → m w = (inr a, w1).
Proof.
  intros Hh. unfold try_catch. destruct (m w) as [[e|a'] w']; [|done].
  destruct (Hh e w') as [e' ->]. done.
Qed.

Lemma getBlob_or_empty_run env (k : string) (w : World) :
  ∃ c, getBlob_or_empty env k w
       = (inr c, mkWorld (storage w) (S (ticks w)) (backendCalls w)).
Proof.
  unfold getBlob_or_empty, mbind, M_bind, try_catch, storage_getBlob, storage_op.
  destruct (storageFault env (ticks w) (GetBlob k)); simpl; by eexists.
Qed.

(** The common end of the local and the cloud backend: non-empty content is
    stored under the file's key with its token map; empty content is
    returned without anything being stored. *)
Lemma store_parsed_post env (uniqKey content : string) (w w1 : World) (p : Parsed) :
  ((if truthy content then storage_setBlob env uniqKey content else mret ()) ≫= λ _,
   (if truthy content then lift (both_token_counts env content) else mret ∅) ≫= λ tokenCountMap,
   (if truthy content then storage_setItem env (tokenMap_key uniqKey) tokenCountMap
    else mret ()) ≫= λ _,
   mret {| parsed_content := content; parsed_storageKey := uniqKey;
           parsed_tokenCountMap := tokenCountMap |}) w = (inr p, w1) →
  parsed_content p = content
  ∧ parsed_storageKey p = uniqKey
  ∧ backendCalls w1 = backendCalls w
  ∧ (truthy content = true → blobs (storage w1) !! uniqKey = Some content)
  ∧ (truthy content = false → parsed_tokenCountMap p = ∅ ∧ w1 = w).
Proof.
  intros Hrun.
  apply bind_inr in Hrun as (u1 & wa & H1 & Hrun).
  apply bind_inr in Hrun as (tm & wb & H2 & Hrun).
  apply bind_inr in Hrun as (u2 & wc & H3 & Hrun).
  injection Hrun as <- <-.
  destruct (truthy content).
  - apply storage_op_inr in H1 as (_ & _ & ->).
    unfold lift in H2. injection H2 as _ <-.
    apply storage_op_inr in H3 as (_ & _ & ->). simpl.
    split; [done|]. split; [done|]. split; [done|].
    split; [intros _; apply lookup_insert_eq | done].
  - injection H1 as _ <-. injection H2 as <- <-. injection H3 as _ <-.
    split; [done|]. split; [done|]. split; [done|]. split; [done|]. done.
Qed.


Lemma backend_call_inr {A} (call : BackendCall) (run : Storage → Exc A * Storage)
    (w w1 : World) (a : A) :
  backend_call call run w = (inr a, w1) →
  run (storage w) = (inr a, storage w1)
  ∧ ticks w1 = ticks w
  ∧ backendCalls w1 = (backendCalls w ++ [call])%list.
Proof.
  unfold backend_call. destruct (run (storage w)) as [r st]. by intros [= -> <-].
Qed.

(** What a backend that returns has done: it was invoked once, and
    non-empty content it returns is stored under the file's key. *)
Lemma parseFileWithLocalParser_post env (f : File) (uniqKey : string) (w w1 : World)
    (p : Parsed) :
  parseFileWithLocalParser env f uniqKey w = (inr p, w1) →
  parsed_storageKey p = uniqKey
  ∧ backendCalls w1 = (backendCalls w ++ [CallLocalParser f])%list
  ∧ (truthy (parsed_content p) = true →
       blobs (storage w1) !! uniqKey = Some (parsed_content p))
  ∧ (truthy (parsed_content p) = false →
       parsed_tokenCountMap p = ∅
       ∧ storage w1 = (parseFileLocally env f (storage w)).2).
Proof.
  unfold parseFileWithLocalParser. intros Hrun.
  apply bind_inr in Hrun as (result & wa & Hcall & Hrun).
  apply backend_call_inr in Hcall as (Hplat & _ & Hcalls).
  destruct (negb (isSupported result) || negb (truthy_opt (key result))); [done|].
  apply bind_inr in Hrun as (content & wb & Hget & Hrun).
  destruct (getBlob_or_empty_run env (default "" (key result)) wa) as [c Hc].
  rewrite Hc in Hget. injection Hget as Hcontent Hworld. subst content wb.
  apply store_parsed_post in Hrun as (-> & -> & Hcalls' & Hstored & Hempty).
  simpl in *. split; [done|]. split; [congruence|]. split; [done|].
  intros Hfalse. destruct (Hempty Hfalse) as [-> ->]. simpl. by rewrite Hplat.
Qed.

Lemma parseFileWithChatboxAI_post env (f : File) (uniqKey : string) (w w1 : World)
    (p : Parsed) :
  parseFileWithChatboxAI env f uniqKey w = (inr p, w1) →
  parsed_storageKey p = uniqKey
  ∧ (∃ licenseKey, backendCalls w1 = (backendCalls w ++ [CallChatboxAI licenseKey f])%list)
  ∧ (truthy (parsed_content p) = true →
       blobs (storage w1) !! uniqKey = Some (parsed_content p)).
Proof.
  unfold parseFileWithChatboxAI. intros Hrun.
  apply bind_inr in Hrun as (uploadedKey & wa & Hcall & Hrun).
  apply backend_call_inr in Hcall as (_ & _ & Hcalls).
  apply bind_inr in Hrun as (content & wb & Hget & Hrun).
  destruct (getBlob_or_empty_run env uploadedKey wa) as [c Hc].
  rewrite Hc in Hget. injection Hget as Hcontent Hworld. subst content wb.
  apply store_parsed_post in Hrun as (-> & -> & Hcalls' & Hstored & _).
  simpl in *. split; [done|]. split; [|done].
  eexists. etransitivity; [exact Hcalls' | exact Hcalls].
Qed.

Lemma parseFileWithMineruService_post env (f : File) (uniqKey token : string)
    (w w1 : World) (p : Parsed) :
  parseFileWithMineruService env f uniqKey token w = (inr p, w1) →
  parsed_storageKey p = uniqKey
  ∧ backendCalls w1 = (backendCalls w ++ [CallMineru f token])%list
  ∧ truthy (parsed_content p) = true
  ∧ blobs (storage w1) !! uniqKey = Some (parsed_content p).
Proof.
  unfold parseFileWithMineruService. intros Hrun.
  destruct (parseFileWithMineru env) as [platform|]; [|done].
  apply bind_inr in Hrun as (result & wa & Hcall & Hrun).
  apply backend_call_inr in Hcall as (_ & _ & Hcalls).
  destruct (cancelled result); [done|].
  destruct (negb (success result) || negb (truthy_opt (mineru_content result))) eqn:Hok;
    [done|].
  apply orb_false_iff in Hok as [_ Htruthy]. apply negb_false_iff in Htruthy.
  apply bind_inr in Hrun as (u1 & wb & H1 & Hrun).
  apply bind_inr in Hrun as (tm & wc & H2 & Hrun).
  apply bind_inr in Hrun as (u2 & wd & H3 & Hrun).
  injection Hrun as <- <-.
  apply storage_op_inr in H1 as (_ & _ & ->).
  unfold lift in H2. injection H2 as _ <-.
  apply storage_op_inr in H3 as (_ & _ & ->). simpl.
  split; [done|]. split; [done|].
  split; [by destruct (mineru_content result)|]. apply lookup_insert_eq.
Qed.


(** What a returning [try] block of [preprocessFile] has established. *)
Lemma preprocessFile_try_inr env (f : File) (settings : SessionSettings) (w w1 : World)
    (r : PreprocessedFile) :
  preprocessFile_try env f settings w = (inr r, w1) →
  ∃ uniqKey existing now meta,
    fileUniqKey env f = inr uniqKey
    ∧ computePreviewMetadata env (content r) (getCurrentTokenizerType env) existing now
      = inr meta
    ∧ r = {| file := f; content := content r; storageKey := uniqKey;
             tokenCountMap := Some (meta_tokenCountMap meta);
             lineCount := Some (meta_lineCount meta);
             byteLength := Some (meta_byteLength meta);
             error := None |}
    ∧ items (storage w1) !! tokenMap_key uniqKey = Some (meta_tokenCountMap meta)
    ∧ (truthy (content r) = true → blobs (storage w1) !! uniqKey = Some (content r)).
Proof.
  unfold preprocessFile_try. intros Hrun.
  apply bind_inr in Hrun as (uniqKey & wa & Hkey & Hrun).
  unfold lift in Hkey. injection Hkey as Hkey <-.
  apply bind_inr in Hrun as (existing & wb & Hlookup & Hrun).
  rewrite cache_lookup in Hlookup. injection Hlookup as Hexisting <-.
  exists uniqKey.
  destruct (truthy_opt existing) eqn:Htruthy.
  - apply bind_inr in Hrun as (tm & wc & Hget & Hrun).
    apply storage_op_inr in Hget as (_ & -> & ->).
    apply bind_inr in Hrun as (now & wd & Hnow & Hrun). injection Hnow as <- <-.
    apply bind_inr in Hrun as (meta & we & Hmeta & Hrun).
    unfold lift in Hmeta. injection Hmeta as Hmeta <-.
    apply bind_inr in Hrun as (u & wf & Hset & Hrun).
    apply storage_op_inr in Hset as (_ & _ & ->). injection Hrun as <- <-. simpl in *.
    eexists _, _, meta. split; [done|]. split; [exact Hmeta|]. split; [done|].
    split; [apply lookup_insert_eq|]. intros _.
    destruct existing as [c|]; [|done]. simpl.
    destruct (storageFault env (ticks w) (GetBlob uniqKey)); [done|]. done.
  - apply bind_inr in Hrun as (result & wc & Hparse & Hrun).
    assert (Hstage : parsed_storageKey result = uniqKey
              ∧ (truthy (parsed_content result) = true →
                   blobs (storage wc) !! uniqKey = Some (parsed_content result))).
    { destruct (isTextFilePath env (file_name f)).
      { apply catch_rethrow_inr in Hparse; [|by eexists].
        by apply parseFileWithLocalParser_post in Hparse as (? & _ & ? & _). }
      destruct (parser_type (getEffectiveDocumentParserConfig env)); try done.
      - apply catch_rethrow_inr in Hparse; [|by eexists].
        by apply parseFileWithLocalParser_post in Hparse as (? & _ & ? & _).
      - apply catch_rethrow_inr in Hparse; [|by eexists].
        by apply parseFileWithChatboxAI_post in Hparse as (? & _ & ?).
      - destruct (negb _); [done|].
        apply catch_rethrow_inr in Hparse.
        + by apply parseFileWithMineruService_post in Hparse as (? & _ & _ & ?).
        + intros [message|] w0; [|by eexists].
          destruct (String.prefix "third_party_parser" message); by eexists. }
    destruct Hstage as [Hk Hblob].
    apply bind_inr in Hrun as (now & wd & Hnow & Hrun). injection Hnow as <- <-.
    apply bind_inr in Hrun as (meta & we & Hmeta & Hrun).
    unfold lift in Hmeta. injection Hmeta as Hmeta <-.
    apply bind_inr in Hrun as (u & wf & Hset & Hrun).
    apply storage_op_inr in Hset as (_ & _ & ->). injection Hrun as <- <-. simpl in *.
    eexists _, _, meta. split; [done|]. split; [exact Hmeta|].
    split; [by rewrite Hk|]. rewrite Hk. split; [apply lookup_insert_eq | done].
Qed.


Lemma preprocessFile_success env (f : File) (settings : SessionSettings) (w w1 : World)
    (r : PreprocessedFile) :
  preprocessFile env f settings w = (inr r, w1) → error r = None →
  preprocessFile_try env f settings w = (inr r, w1).
Proof.
  unfold preprocessFile, try_catch.
  destruct (preprocessFile_try env f settings w) as [[e|r'] w']; [|done].
  by intros [= <- _].
Qed.

Lemma truthy_true (s : string) : truthy s = true ↔ s ≠ "".
Proof. unfold truthy. by rewrite negb_true_iff, String.eqb_neq. Qed.

(** X9. After a successful [preprocessFile] the result can be found again:
    its storage key is the key derived from the file, the token map it
    reports is the one stored beside that key and has both the slot of the
    current tokenizer and its preview slot, and non-empty content is stored
    under the key. *)
Theorem preprocessFile_persists env (f : File) (settings : SessionSettings) (w w1 : World)
    (r : PreprocessedFile) :
  preprocessFile env f settings w = (inr r, w1) →
  error r = None →
  fileUniqKey env f = inr (storageKey r)
  ∧ (∃ tokens, tokenCountMap r = Some tokens
       ∧ items (storage w1) !! tokenMap_key (storageKey r) = Some tokens
       ∧ is_Some (tokens !! tokenizer_name (getCurrentTokenizerType env))
       ∧ is_Some (tokens !! preview_key (getCurrentTokenizerType env)))
  ∧ (content r ≠ "" → blobs (storage w1) !! storageKey r = Some (content r)).
Proof.
  intros Hrun Herr. apply preprocessFile_success in Hrun; [|done].
  apply preprocessFile_try_inr in Hrun
    as (uniqKey & existing & now & meta & Hkey & Hmeta & Hr & Hitems & Hblob).
  rewrite Hr. simpl. split; [done|]. split.
  - exists (meta_tokenCountMap meta). split; [done|]. split; [done|].
    apply computePreviewMetadata_inr in Hmeta as (n & base & _ & Hbase & _ & _ & ->).
    split; [|rewrite lookup_insert_eq; by eexists].
    rewrite lookup_insert_ne by (apply not_eq_sym, tokenizer_keys_differ).
    destruct Hbase as [[-> Hsome]|(full & _ & _ & ->)]; [done|].
    rewrite lookup_insert_eq. by eexists.
  - intros Hne. apply Hblob. by apply truthy_true.
Qed.

Lemma computePreviewMetadata_again env c t existing now now' meta :
  computePreviewMetadata env c t existing now = inr meta →
  computePreviewMetadata env c t (meta_tokenCountMap meta) now'
  = inr {| meta_lineCount := meta_lineCount meta;
           meta_byteLength := meta_byteLength meta;
           meta_tokenCountMap := meta_tokenCountMap meta;
           meta_tokenCalculatedAt := {[ preview_key t := now' ]} |}.
Proof.
  intros Hmeta.
  apply computePreviewMetadata_inr in Hmeta as (n & base & Hn & Hbase & -> & -> & ->).
  assert (Hfull : is_Some (<[preview_key t := n]> base !! tokenizer_name t)).
  { rewrite lookup_insert_ne by (apply not_eq_sym, tokenizer_keys_differ).
    destruct Hbase as [[-> Hsome]|(full & _ & _ & ->)]; [done|].
    rewrite lookup_insert_eq. by eexists. }
  destruct Hfull as [v Hv].
  rewrite (computePreviewMetadata_present _ _ _ _ _ _ Hv), Hn. simpl.
  by rewrite insert_insert_eq.
Qed.

(** X10. Ingesting the same file again after a successful ingestion with
    non-empty content, on a store that serves the three accesses of the
    cache-hit path, invokes no parser backend and leaves the stored content
    as it was, whatever tokenizer, parser configuration and licence key that
    later call finds selected.  While the tokenizer selection is unchanged
    the later call returns the very same result and leaves the whole store
    exactly as it was.  After a change of the selection a successful later
    call returns the same content, key, line count and byte length, and a
    token map, stored beside the key, that keeps the earlier counts and has
    the slots of the new tokenizer; a failed one leaves the store as it
    was. *)
Theorem preprocessFile_again env (f : File) (settings : SessionSettings) (w w1 : World)
    (r : PreprocessedFile) (t2 : TokenizerType) (config : DocumentParserConfig)
    (licenseKey : option string) :
  preprocessFile env f settings w = (inr r, w1) →
  error r = None →
  content r ≠ "" →
  storageFault env (ticks w1) (GetBlob (storageKey r)) = None →
  storageFault env (S (ticks w1)) (GetItem (tokenMap_key (storageKey r))) = None →
  storageFault env (S (S (ticks w1))) (SetItem (tokenMap_key (storageKey r))) = None →
  let later := at_next_call t2 config licenseKey env in
  (t2 = getCurrentTokenizerType env →
     preprocessFile later f settings w1
     = (inr r, mkWorld (storage w1) (S (S (S (ticks w1)))) (backendCalls w1)))
  ∧ ∃ res w2,
      preprocessFile later f settings w1 = (inr res, w2)
      ∧ backendCalls w2 = backendCalls w1
      ∧ blobs (storage w2) = blobs (storage w1)
      ∧ (error res ≠ None → storage w2 = storage w1)
      ∧ (error res = None →
           content res = content r ∧ storageKey res = storageKey r
           ∧ lineCount res = lineCount r ∧ byteLength res = byteLength r
           ∧ ∃ tokens tokens2,
               tokenCountMap r = Some tokens ∧ tokenCountMap res = Some tokens2
               ∧ items (storage w2) !! tokenMap_key (storageKey r) = Some tokens2
               ∧ (∀ k, k ≠ preview_key t2 → k ≠ tokenizer_name t2 →
                       tokens2 !! k = tokens !! k)
               ∧ (∀ v, tokens !! tokenizer_name t2 = Some v →
                       tokens2 !! tokenizer_name t2 = Some v)
               ∧ is_Some (tokens2 !! tokenizer_name t2)
               ∧ is_Some (tokens2 !! preview_key t2)).
Proof.
  intros Hrun Herr Hne Hf1 Hf2 Hf3 later. apply preprocessFile_success in Hrun; [|done].
  apply preprocessFile_try_inr in Hrun
    as (uniqKey & existing & now & meta & Hkey & Hmeta & Hr & Hitems & Hblob).
  assert (Hk : storageKey r = uniqKey) by by rewrite Hr.
  assert (Hl : lineCount r = Some (meta_lineCount meta)) by by rewrite Hr.
  assert (Hb : byteLength r = Some (meta_byteLength meta)) by by rewrite Hr.
  assert (Ht : tokenCountMap r = Some (meta_tokenCountMap meta)) by by rewrite Hr.
  rewrite Hk in *. specialize (Hblob (proj2 (truthy_true _) Hne)).
  pose proof (preprocessFile_hit_run later f settings w1 uniqKey (content r)
                Hkey Hf1 Hblob Hne) as Hhit.
  change (storageFault later) with (storageFault env) in Hhit.
  change (computePreviewMetadata later) with (computePreviewMetadata env) in Hhit.
  change (getCurrentTokenizerType later) with t2 in Hhit.
  change (dateNow later) with (dateNow env) in Hhit.
  rewrite Hf2, Hitems in Hhit. cbn [default from_option id] in Hhit.
  split.
  - intros ->. rewrite Hhit, (computePreviewMetadata_again _ _ _ _ _ _ _ Hmeta), Hf3. simpl.
    rewrite insert_id by done. rewrite <- Hr. by destruct (storage w1).
  - destruct (computePreviewMetadata env (content r) t2 (meta_tokenCountMap meta)
                (dateNow env (S (S (ticks w1))))) as [e|meta2] eqn:Hmeta2.
    { eexists _, _. split; [exact Hhit|]. cbn [backendCalls storage blobs error error_result].
      split; [done|]. split; [done|]. split; [done|]. intros [=]. }
    rewrite Hf3 in Hhit. eexists _, _. split; [exact Hhit|].
    cbn [backendCalls storage blobs items error content storageKey lineCount byteLength
         tokenCountMap].
    split; [done|]. split; [done|]. split; [done|]. intros _.
    apply computePreviewMetadata_inr in Hmeta as (n1 & base1 & _ & _ & Hl1 & Hb1 & _).
    apply computePreviewMetadata_inr in Hmeta2 as (n & base & _ & Hbase & Hl2 & Hb2 & Htokens).
    split; [done|]. split; [done|].
    split; [by rewrite Hl, Hl1, Hl2|]. split; [by rewrite Hb, Hb1, Hb2|].
    exists (meta_tokenCountMap meta), (meta_tokenCountMap meta2).
    split; [done|]. split; [done|]. split; [by rewrite lookup_insert_eq|].
    rewrite Htokens. split; [|split; [|split]].
    + intros k Hk1 Hk2. rewrite lookup_insert_ne by done.
      destruct Hbase as [[-> _]|(full & _ & _ & ->)]; [done|].
      by rewrite lookup_insert_ne.
    + intros v Hv. rewrite lookup_insert_ne by (apply not_eq_sym, tokenizer_keys_differ).
      destruct Hbase as [[-> _]|(full & _ & Hnone & _)]; [done | congruence].
    + rewrite lookup_insert_ne by (apply not_eq_sym, tokenizer_keys_differ).
      destruct Hbase as [[-> Hsome]|(full & _ & _ & ->)]; [done|].
      rewrite lookup_insert_eq. by eexists.
    + rewrite lookup_insert_eq. by eexists.
Qed.

Lemma preprocessFile_again_witness :
  ∃ r w1,
    preprocessFile (text_env "alpha" no_fault) notes_txt ∅ empty_world = (inr r, w1)
    ∧ content r = "alpha"
    ∧ preprocessFile
        (at_next_call tokenizer_default chatbox_ai_config (Some "key")
           (text_env "alpha" no_fault)) notes_txt ∅ w1
      = (inr r, mkWorld (storage w1) (S (S (S (ticks w1)))) (backendCalls w1))
    ∧ ∃ res w2,
        preprocessFile
          (at_next_call tokenizer_deepseek chatbox_ai_config (Some "key")
             (text_env "alpha" no_fault)) notes_txt ∅ w1
        = (inr res, w2)
        ∧ backendCalls w2 = backendCalls w1.
Proof.
  assert (Hrun : ∃ r w1, preprocessFile (text_env "alpha" no_fault) notes_txt ∅ empty_world
                          = (inr r, w1) ∧ content r = "alpha" ∧ error r = None).
  { eexists _, _. split; [vm_compute; reflexivity | done]. }
  destruct Hrun as (r & w1 & Hrun & Hcontent & Herr).
  assert (Hne : content r ≠ "") by (rewrite Hcontent; discriminate).
  exists r, w1. split; [exact Hrun|]. split; [exact Hcontent|]. split.
  - by apply (preprocessFile_again _ _ _ _ _ _ tokenizer_default chatbox_ai_config
                (Some "key") Hrun Herr Hne).
  - destruct (preprocessFile_again _ _ _ _ _ _ tokenizer_deepseek chatbox_ai_config
                (Some "key") Hrun Herr Hne eq_refl eq_refl eq_refl)
      as (_ & res & w2 & Hagain & Hcalls & _).
    by exists res, w2.
Defined.

Lemma preprocessFile_persists_witness :
  ∃ r w1,
    preprocessFile (text_env "alpha" no_fault) notes_txt ∅ empty_world = (inr r, w1)
    ∧ fileUniqKey (text_env "alpha" no_fault) notes_txt = inr (storageKey r).
Proof.
  assert (Hrun : ∃ r w1, preprocessFile (text_env "alpha" no_fault) notes_txt ∅ empty_world
                          = (inr r, w1) ∧ error r = None).
  { eexists _, _. split; [vm_compute; reflexivity | done]. }
  destruct Hrun as (r & w1 & Hrun & Herr).
  exists r, w1. split; [exact Hrun|].
  by destruct (preprocessFile_persists _ _ _ _ _ _ Hrun Herr) as [? _].
Defined.


(** Whatever the [try] block throws was thrown by key derivation, the
    content store or the tokenizer, or is a condition of the parsing stage. *)
Lemma preprocessFile_try_conditions env (f : File) (settings : SessionSettings) :
  throws_only (λ e, collaborator_failure env e
                    ∨ ∃ msg, e = ThrownError msg ∧ parser_condition msg)
    (preprocessFile_try env f settings).
Proof.
  set (E := λ e, collaborator_failure env e
                 ∨ ∃ msg, e = ThrownError msg ∧ parser_condition msg).
  assert (Hstore : ∀ A op (run : Storage → A * Storage),
            throws_only E (storage_op env op run)).
  { intros A op run. apply throws_storage_op. intros t e He. left. right. left. eauto. }
  assert (Hmeta : ∀ c t m now, throws_only E (lift (computePreviewMetadata env c t m now))).
  { intros c t m now. apply throws_lift. intros e He.
    apply computePreviewMetadata_throws in He as (c' & sel & He). left. right. right. eauto. }
  assert (Hlit : ∀ A msg, parser_condition msg → throws_only E (@throw A (ThrownError msg))).
  { intros A msg Hmsg. apply throws_throw. right. eauto. }
  unfold preprocessFile_try.
  apply throws_bind; [apply throws_lift; intros e He; left; left; eauto|]. intros uniqKey.
  apply throws_bind; [apply throws_catch; intros; apply throws_ret|]. intros existingContent.
  destruct (truthy_opt existingContent).
  - apply throws_bind; [apply Hstore|]. intros tm.
    apply throws_bind; [apply throws_date_now|]. intros now.
    apply throws_bind; [apply Hmeta|]. intros meta.
    apply throws_bind; [apply Hstore|]. intros _. apply throws_ret.
  - apply throws_bind.
    + destruct (isTextFilePath env (file_name f)).
      { apply throws_catch. intros. apply Hlit. by left. }
      destruct (parser_type (getEffectiveDocumentParserConfig env)).
      * apply Hlit. right. by left.
      * apply throws_catch. intros. apply Hlit. by left.
      * apply throws_catch. intros. apply Hlit. right. right. by left.
      * destruct (negb _); [apply Hlit; right; right; right; by left|].
        apply throws_catch. intros [message|].
        -- destruct (String.prefix "third_party_parser" message) eqn:Hpre.
           ++ apply Hlit. by repeat right.
           ++ apply Hlit. by repeat right.
        -- apply Hlit. by repeat right.
      * apply Hlit. right. by left.
    + intros result.
      apply throws_bind; [apply throws_date_now|]. intros now.
      apply throws_bind; [apply Hmeta|]. intros meta.
      apply throws_bind; [apply Hstore|]. intros _. apply throws_ret.
Qed.

(** X11. An error reported by [preprocessFile] is either the message of
    something thrown by key derivation, by the content store or by the
    tokenizer, or one of the conditions of the parsing stage:
    [local_parser_failed], [document_parser_not_configured],
    [chatbox_ai_parser_failed], [mineru_api_token_required], or a message
    starting with [third_party_parser]; whatever a parser backend throws is
    reported under one of these. *)
Theorem preprocessFile_error_conditions env (f : File) (settings : SessionSettings)
    (w w1 : World) (r : PreprocessedFile) (msg : string) :
  preprocessFile env f settings w = (inr r, w1) →
  error r = Some msg →
  (∃ e, collaborator_failure env e ∧ msg = error_message e) ∨ parser_condition msg.
Proof.
  unfold preprocessFile, try_catch.
  destruct (preprocessFile_try env f settings w) as [[e|r'] w'] eqn:Hrun.
  - intros [= <- _] [= <-].
    destruct (preprocessFile_try_conditions env f settings w e w' Hrun)
      as [Hc|(m & -> & Hm)]; [left; eauto | by right].
  - intros [= <- _] Herr.
    destruct (preprocessFile_try_returns env f settings w r' w' Hrun) as [Hnone _].
    congruence.
Qed.

Lemma preprocessFile_error_conditions_witness :
  (∃ e, collaborator_failure (sample_env key_by_name no_fault) e
        ∧ "third_party_parser_failed" = error_message e)
  ∨ parser_condition "third_party_parser_failed".
Proof.
  assert (Hrun : ∃ r w1, preprocessFile (sample_env key_by_name no_fault) report_pdf ∅
                           empty_world = (inr r, w1)
                         ∧ error r = Some "third_party_parser_failed").
  { eexists _, _. split; [vm_compute; reflexivity | done]. }
  destruct Hrun as (r & w1 & Hrun & Herr).
  exact (preprocessFile_error_conditions _ _ _ _ _ _ _ Hrun Herr).
Defined.

(** *** Backend invocations *)

Lemma invokes_mono {A} (n n' : nat) (Q : BackendCall → Prop) (m : M A) :
  (n ≤ n')%nat → invokes n Q m → invokes n' Q m.
Proof.
  intros Hn Hm w. destruct (Hm w) as (calls & Hc & Hl & HQ).
  exists calls. split; [done|]. split; [lia | done].
Qed.

Lemma invokes_bind {A B} (a b : nat) (Q : BackendCall → Prop) (m : M A) (k : A → M B) :
  invokes a Q m → (∀ x, invokes b Q (k x)) → invokes (a + b) Q (m ≫= k).
Proof.
  intros Hm Hk w. unfold mbind, M_bind.
  destruct (Hm w) as (c1 & Hc1 & Hl1 & HQ1).
  destruct (m w) as [[e|x] w'] eqn:Hmw; simpl in *.
  - exists c1. split; [done|]. split; [lia | done].
  - destruct (Hk x w') as (c2 & Hc2 & Hl2 & HQ2).
    exists (c1 ++ c2)%list. rewrite Hc2, Hc1, <- app_assoc. split; [done|].
    split; [rewrite length_app; lia | by apply Forall_app].
Qed.

Lemma invokes_catch {A} (a b : nat) (Q : BackendCall → Prop) (m : M A)
    (handler : Thrown → M A) :
  invokes a Q m → (∀ e, invokes b Q (handler e)) → invokes (a + b) Q (try_catch m handler).
Proof.
  intros Hm Hh w. unfold try_catch.
  destruct (Hm w) as (c1 & Hc1 & Hl1 & HQ1).
  destruct (m w) as [[e|x] w'] eqn:Hmw; simpl in *.
  - destruct (Hh e w') as (c2 & Hc2 & Hl2 & HQ2).
    exists (c1 ++ c2)%list. rewrite Hc2, Hc1, <- app_assoc. split; [done|].
    split; [rewrite length_app; lia | by apply Forall_app].
  - exists c1. split; [done|]. split; [lia | done].
Qed.

Lemma invokes_none {A} (Q : BackendCall → Prop) (m : M A) :
  (∀ w, backendCalls (m w).2 = backendCalls w) → invokes 0 Q m.
Proof.
  intros Hm w. exists []. rewrite Hm, app_nil_r. split; [done|]. split; [done | constructor].
Qed.

Lemma invokes_ret {A} (Q : BackendCall → Prop) (a : A) : invokes 0 Q (mret a).
Proof. by apply invokes_none. Qed.

Lemma invokes_throw {A} (Q : BackendCall → Prop) (e : Thrown) : invokes 0 Q (@throw A e).
Proof. by apply invokes_none. Qed.

Lemma invokes_lift {A} (Q : BackendCall → Prop) (r : Exc A) : invokes 0 Q (lift r).
Proof. by apply invokes_none. Qed.

Lemma invokes_date_now env (Q : BackendCall → Prop) : invokes 0 Q (date_now env).
Proof. by apply invokes_none. Qed.

Lemma invokes_storage_op {A} env (Q : BackendCall → Prop) op (run : Storage → A * Storage) :
  invokes 0 Q (storage_op env op run).
Proof.
  apply invokes_none. intros w. unfold storage_op.
  destruct (storageFault env (ticks w) op); [done|]. by destruct (run (storage w)).
Qed.

Lemma invokes_backend_call {A} (Q : BackendCall → Prop) (call : BackendCall)
    (run : Storage → Exc A * Storage) :
  Q call → invokes 1 Q (backend_call call run).
Proof.
  intros HQ w. exists [call]. unfold backend_call. destruct (run (storage w)); simpl.
  split; [done|]. split; [done|]. by constructor.
Qed.


End PipelineFacts.

Ltac invokes_zero :=
  repeat first
    [ apply invokes_ret | apply invokes_throw | apply invokes_lift
    | apply invokes_date_now | apply invokes_storage_op
    | apply (invokes_bind 0 0); [|intros ?]
    | apply (invokes_catch 0 0); [|intros ?]
    | match goal with
      | |- IngestionSpec.invokes _ _ (if ?b then _ else _) => destruct b
      end
    | progress unfold Ingestion.getBlob_or_empty, Ingestion.storage_getBlob,
        Ingestion.storage_setBlob, Ingestion.storage_getItem, Ingestion.storage_setItem ].

Section BackendCallFacts.
Import Ingestion IngestionSpec.

Lemma invokes_local env (f : File) (uniqKey : string) (Q : BackendCall → Prop) :
  Q (CallLocalParser f) → invokes 1 Q (parseFileWithLocalParser env f uniqKey).
Proof.
  intros HQ. unfold parseFileWithLocalParser.
  apply (invokes_bind 1 0); [by apply invokes_backend_call|]. intros result. invokes_zero.
Qed.

Lemma invokes_chatbox env (f : File) (uniqKey : string) (Q : BackendCall → Prop) :
  (∀ licenseKey, Q (CallChatboxAI licenseKey f)) →
  invokes 1 Q (parseFileWithChatboxAI env f uniqKey).
Proof.
  intros HQ. unfold parseFileWithChatboxAI.
  apply (invokes_bind 1 0); [by apply invokes_backend_call|]. intros uploadedKey.
  invokes_zero.
Qed.

Lemma invokes_mineru env (f : File) (uniqKey token : string) (Q : BackendCall → Prop) :
  Q (CallMineru f token) → invokes 1 Q (parseFileWithMineruService env f uniqKey token).
Proof.
  intros HQ. unfold parseFileWithMineruService.
  destruct (parseFileWithMineru env) as [platform|];
    [|apply (invokes_mono 0); [lia | apply invokes_throw]].
  apply (invokes_bind 1 0); [by apply invokes_backend_call|]. intros result. invokes_zero.
Qed.

(** The pipeline around a parsing stage that invokes at most one backend. *)
Lemma invokes_pipeline env (f : File) (settings : SessionSettings) (n : nat)
    (Q : BackendCall → Prop) :
  (n = 0 ∨ n = 1)%nat →
  (isTextFilePath env (file_name f) = true → (1 ≤ n)%nat ∧ Q (CallLocalParser f)) →
  (isTextFilePath env (file_name f) = false →
   match parser_type (getEffectiveDocumentParserConfig env) with
   | parser_local => (1 ≤ n)%nat ∧ Q (CallLocalParser f)
   | parser_chatbox_ai => (1 ≤ n)%nat ∧ ∀ licenseKey, Q (CallChatboxAI licenseKey f)
   | parser_mineru =>
       truthy_opt (mineru (getEffectiveDocumentParserConfig env) ≫= apiToken) = true →
       (1 ≤ n)%nat ∧ ∀ token, Q (CallMineru f token)
   | _ => True
   end) →
  invokes n Q (preprocessFile env f settings).
Proof.
  intros Hn Htext Hother.
  assert (Hzero : ∀ A (m : M A), invokes 0 Q m → invokes n Q m)
    by (intros A m; apply invokes_mono; lia).
  assert (Hone : ∀ A (m : M A), (1 ≤ n)%nat → invokes 1 Q m → invokes n Q m)
    by (intros A m Hle; apply invokes_mono; lia).
  assert (Hstage : ∀ A B (m : M A) (k : A → M B),
            invokes n Q m → (∀ x, invokes 0 Q (k x)) → invokes n Q (m ≫= k)).
  { intros A B m k Hm Hk. destruct Hn as [->| ->].
    - by apply (invokes_bind 0 0).
    - by apply (invokes_bind 1 0). }
  assert (Hcatch : ∀ A (m : M A) (h : Thrown → M A),
            invokes n Q m → (∀ e, invokes 0 Q (h e)) → invokes n Q (try_catch m h)).
  { intros A m h Hm Hh. destruct Hn as [->| ->].
    - by apply (invokes_catch 0 0).
    - by apply (invokes_catch 1 0). }
  unfold preprocessFile. apply Hcatch; [|intros; apply invokes_ret].
  unfold preprocessFile_try.
  assert (Hpre : ∀ A B (m : M A) (k : A → M B),
            invokes 0 Q m → (∀ x, invokes n Q (k x)) → invokes n Q (m ≫= k)).
  { intros A B m k Hm Hk. by apply (invokes_bind 0 n). }
  apply Hpre; [apply invokes_lift|]. intros uniqKey.
  apply Hpre; [invokes_zero|]. intros existingContent.
  destruct (truthy_opt existingContent); [apply Hzero; invokes_zero|].
  apply Hstage; [|intros; invokes_zero].
  destruct (isTextFilePath env (file_name f)).
  { destruct (Htext eq_refl) as [Hle HQ].
    apply Hcatch; [|intros; apply invokes_throw]. apply Hone; [done|]. by apply invokes_local. }
  specialize (Hother eq_refl).
  destruct (parser_type (getEffectiveDocumentParserConfig env)).
  - apply Hzero, invokes_throw.
  - destruct Hother as [Hle HQ].
    apply Hcatch; [|intros; apply invokes_throw]. apply Hone; [done|]. by apply invokes_local.
  - destruct Hother as [Hle HQ].
    apply Hcatch; [|intros; apply invokes_throw]. apply Hone; [done|]. by apply invokes_chatbox.
  - destruct (truthy_opt _); simpl; [|apply Hzero, invokes_throw].
    destruct (Hother eq_refl) as [Hle HQ].
    apply Hcatch.
    + apply Hone; [done|]. by apply invokes_mineru.
    + intros [message|]; [|apply invokes_throw].
      destruct (String.prefix "third_party_parser" message); apply invokes_throw.
  - apply Hzero, invokes_throw.
Qed.

(** X12. One call of [preprocessFile] invokes at most one parser backend,
    and only for the file it was given; a text file is only ever handed to
    the local parser, whatever parser is configured; and a file that is not a
    text file reaches no backend at all when no parser (or an unknown one) is
    configured, or when MinerU is configured without an API token. *)
Theorem preprocessFile_backend_calls env (f : File) (settings : SessionSettings) :
  invokes 1 (call_for f) (preprocessFile env f settings)
  ∧ (isTextFilePath env (file_name f) = true →
       invokes 1 (λ call, call = CallLocalParser f) (preprocessFile env f settings))
  ∧ (isTextFilePath env (file_name f) = false →
     match parser_type (getEffectiveDocumentParserConfig env) with
     | parser_none | parser_other _ => True
     | parser_mineru =>
         truthy_opt (mineru (getEffectiveDocumentParserConfig env) ≫= apiToken) = false
     | _ => False
     end →
     invokes 0 (λ _, False) (preprocessFile env f settings)).
Proof.
  split; [|split].
  - apply invokes_pipeline; [by right | done |]. intros _.
    by destruct (parser_type (getEffectiveDocumentParserConfig env)).
  - intros Htext. apply invokes_pipeline; [by right | done | congruence].
  - intros Htext Hconfig. apply invokes_pipeline; [by left | congruence |]. intros _.
    destruct (parser_type (getEffectiveDocumentParserConfig env)); try done.
    intros Htoken. congruence.
Qed.

Lemma preprocessFile_backend_calls_witness :
  invokes 1 (λ call, call = CallLocalParser notes_txt)
    (preprocessFile (text_env "alpha" no_fault) notes_txt ∅).
Proof.
  by apply (preprocessFile_backend_calls (text_env "alpha" no_fault) notes_txt ∅).
Defined.

End BackendCallFacts.

(** ** Link ingestion *)

Section LinkFacts.
Import Ingestion IngestionSpec Links.

Lemma lm_bind_inr {A B} (m : LM A) (k : A → LM B) (w w2 : LinkWorld) (b : B) :
  (m ≫= k) w = (inr b, w2) → ∃ a w1, m w = (inr a, w1) ∧ k a w1 = (inr b, w2).
Proof.
  unfold mbind, LM_bind. destruct (m w) as [[e|a] w1]; [done|]. eauto.
Qed.

Lemma on_base_inr {A} (m : M A) (w w1 : LinkWorld) (a : A) :
  on_base m w = (inr a, w1) →
  m (base w) = (inr a, base w1) ∧ linkCalls w1 = linkCalls w.
Proof.
  unfold on_base. destruct (m (base w)) as [r b]. by intros [= -> <-].
Qed.

Lemma prefix_drop (p s : string) :
  String.prefix p s = true → s = p +:+ drop_chars (String.length p) s.
Proof.
  revert s. induction p as [|c p IH]; intros s Hp; [done|].
  destruct s as [|d s]; simpl in *; [done|].
  destruct (ascii_dec c d) as [->|]; [|done].
  change (String d s = String d (p +:+ drop_chars (String.length p) s)).
  f_equal. by apply IH.
Qed.

(** What a returning [try] block of [preprocessLink] has established. *)
Lemma finish_link_inr env (url0 title0 uniqKey content0 : string) (w w1 : LinkWorld)
    (r : PreprocessedLink) :
  finish_link env url0 title0 uniqKey content0 w = (inr r, w1) →
  url r = url0 ∧ title r = title0 ∧ content r = content0 ∧ storageKey r = uniqKey
  ∧ error r = None
  ∧ linkCalls w1 = linkCalls w
  ∧ backendCalls (base w1) = backendCalls (base w)
  ∧ (content0 = "" →
       tokenCountMap r = Some ∅ ∧ lineCount r = None ∧ byteLength r = None ∧ w1 = w)
  ∧ (content0 ≠ "" →
       blobs (storage (base w1)) !! uniqKey = Some content0
       ∧ ∃ tokens, tokenCountMap r = Some tokens
                   ∧ items (storage (base w1)) !! tokenMap_key uniqKey = Some tokens).
Proof.
  unfold finish_link. intros Hrun.
  apply lm_bind_inr in Hrun as (u1 & wa & H1 & Hrun).
  apply lm_bind_inr in Hrun as ([[lc bl] tm] & wb & H2 & Hrun).
  apply lm_bind_inr in Hrun as (u2 & wc & H3 & Hrun).
  injection Hrun as <- <-. simpl.
  destruct (truthy content0) eqn:Htruthy.
  - apply truthy_true in Htruthy.
    apply on_base_inr in H1 as (H1 & Hl1). apply storage_op_inr in H1 as (_ & _ & Hwa).
    apply lm_bind_inr in H2 as (now & wa' & Hnow & H2).
    apply on_base_inr in Hnow as (Hnow & Hl2). injection Hnow as _ Hwa'.
    apply lm_bind_inr in H2 as (meta & wa'' & Hmeta & H2).
    apply on_base_inr in Hmeta as (Hmeta & Hl3). unfold lift in Hmeta.
    injection Hmeta as _ Hwa''. injection H2 as <- <- <- <-.
    apply on_base_inr in H3 as (H3 & Hl4). apply storage_op_inr in H3 as (_ & _ & Hwc).
    rewrite Hwc, <- Hwa'', <- Hwa', Hwa. simpl.
    split; [done|]. split; [done|]. split; [done|]. split; [done|]. split; [done|].
    split; [congruence|]. split; [done|]. split; [done|]. intros _.
    split; [apply lookup_insert_eq|]. eexists. split; [done|]. apply lookup_insert_eq.
  - assert (content0 = "") as ->.
    { destruct (decide (content0 = "")); [done|]. apply truthy_true in n. congruence. }
    injection H1 as _ <-. injection H2 as <- <- <- <-. injection H3 as _ <-.
    split; [done|]. split; [done|]. split; [done|]. split; [done|]. split; [done|].
    split; [done|]. split; [done|]. split; [done|]. done.
Qed.


Lemma link_invokes_mono {A} (n n' : nat) (Q : LinkCall → Prop) (m : LM A) :
  (n ≤ n')%nat → link_invokes n Q m → link_invokes n' Q m.
Proof.
  intros Hn Hm w. destruct (Hm w) as (Hb & calls & Hc & Hl & HQ).
  split; [done|]. exists calls. split; [done|]. split; [lia | done].
Qed.

Lemma link_invokes_bind {A B} (a b : nat) (Q : LinkCall → Prop) (m : LM A) (k : A → LM B) :
  link_invokes a Q m → (∀ x, link_invokes b Q (k x)) → link_invokes (a + b) Q (m ≫= k).
Proof.
  intros Hm Hk w. unfold mbind, LM_bind.
  destruct (Hm w) as (Hb1 & c1 & Hc1 & Hl1 & HQ1).
  destruct (m w) as [[e|x] w'] eqn:Hmw; simpl in *.
  - split; [done|]. exists c1. split; [done|]. split; [lia | done].
  - destruct (Hk x w') as (Hb2 & c2 & Hc2 & Hl2 & HQ2).
    split; [congruence|].
    exists (c1 ++ c2)%list. rewrite Hc2, Hc1, <- app_assoc. split; [done|].
    split; [rewrite length_app; lia | by apply Forall_app].
Qed.

Lemma link_invokes_catch {A} (a b : nat) (Q : LinkCall → Prop) (m : LM A)
    (handler : Thrown → LM A) :
  link_invokes a Q m → (∀ e, link_invokes b Q (handler e)) →
  link_invokes (a + b) Q (link_catch m handler).
Proof.
  intros Hm Hh w. unfold link_catch.
  destruct (Hm w) as (Hb1 & c1 & Hc1 & Hl1 & HQ1).
  destruct (m w) as [[e|x] w'] eqn:Hmw; simpl in *.
  - destruct (Hh e w') as (Hb2 & c2 & Hc2 & Hl2 & HQ2).
    split; [congruence|].
    exists (c1 ++ c2)%list. rewrite Hc2, Hc1, <- app_assoc. split; [done|].
    split; [rewrite length_app; lia | by apply Forall_app].
  - split; [done|]. exists c1. split; [done|]. split; [lia | done].
Qed.

Lemma link_invokes_ret {A} (Q : LinkCall → Prop) (a : A) : link_invokes 0 Q (mret a).
Proof.
  intros w. split; [done|]. exists []. simpl. rewrite app_nil_r.
  split; [done|]. split; [done | constructor].
Qed.

(** A step of the file pipeline that invokes no backend invokes no link
    parser either. *)
Lemma link_invokes_on_base {A} (Q : LinkCall → Prop) (m : M A) :
  invokes 0 (λ _, False) m → link_invokes 0 Q (on_base m).
Proof.
  intros Hm w. unfold on_base.
  destruct (Hm (base w)) as (calls & Hc & Hl & _).
  destruct (m (base w)) as [r b]; simpl in *.
  destruct calls; [|simpl in Hl; lia]. rewrite app_nil_r in Hc.
  split; [done|]. exists []. rewrite app_nil_r. split; [done|]. split; [done | constructor].
Qed.

Lemma link_invokes_call {A} (Q : LinkCall → Prop) (call : LinkCall)
    (run : Storage → Exc A * Storage) :
  Q call → link_invokes 1 Q (link_call call run).
Proof.
  intros HQ w. unfold link_call. destruct (run (storage (base w))); simpl.
  split; [done|]. exists [call]. split; [done|]. split; [done|]. by constructor.
Qed.

Ltac link_zero :=
  repeat first
    [ apply link_invokes_ret
    | apply link_invokes_on_base; invokes_zero
    | apply (link_invokes_bind 0 0); [|intros ?]
    | apply (link_invokes_catch 0 0); [|intros ?]
    | match goal with |- link_invokes _ _ (if ?b then _ else _) => destruct b end
    | match goal with |- link_invokes _ _ (let '(_, _) := ?x in _) => destruct x end ].

Lemma link_invokes_finish env (Q : LinkCall → Prop) (url0 title0 uniqKey content0 : string) :
  link_invokes 0 Q (finish_link env url0 title0 uniqKey content0).
Proof.
  unfold finish_link.
  apply (link_invokes_bind 0 0); [link_zero|]. intros _.
  apply (link_invokes_bind 0 0); [link_zero|]. intros [[lc bl] tm].
  apply (link_invokes_bind 0 0); [link_zero|]. intros _. apply link_invokes_ret.
Qed.

(** X13. One call of [preprocessLink] invokes at most one link parser, the
    remote one for an entitled user and the local one otherwise, always for
    the link it was given, and never a file parser backend. *)
Theorem preprocessLink_parser_calls env lenv (url0 : string) (settings : SessionSettings) :
  link_invokes 1
    (λ call, if isPro lenv then ∃ licenseKey, call = CallParseUserLinkPro licenseKey url0
             else call = CallParseUrl url0)
    (preprocessLink env lenv url0 settings).
Proof.
  unfold preprocessLink.
  apply (link_invokes_catch 1 0); [|intros; apply link_invokes_ret].
  unfold preprocessLink_try.
  apply (link_invokes_bind 0 1); [link_zero|]. intros uniqKey.
  apply (link_invokes_bind 0 1); [link_zero|]. intros existingContent.
  destruct (truthy_opt existingContent).
  { apply (link_invokes_mono 0); [lia|]. link_zero. }
  destruct (isPro lenv).
  - apply (link_invokes_bind 1 0); [apply link_invokes_call; by eexists|]. intros parsed.
    apply (link_invokes_bind 0 0); [link_zero|]. intros content0. apply link_invokes_finish.
  - apply (link_invokes_bind 1 0); [by apply link_invokes_call|]. intros parsed.
    apply (link_invokes_bind 0 0); [link_zero|]. intros content0. apply link_invokes_finish.
Qed.


Lemma link_call_inr {A} (call : LinkCall) (run : Storage → Exc A * Storage)
    (w w1 : LinkWorld) (a : A) :
  link_call call run w = (inr a, w1) →
  run (storage (base w)) = (inr a, storage (base w1))
  ∧ linkCalls w1 = (linkCalls w ++ [call])%list.
Proof.
  unfold link_call. destruct (run (storage (base w))) as [r st]. by intros [= -> <-].
Qed.

Lemma link_cache_lookup env (uniqKey : string) (w : LinkWorld) :
  link_catch (on_base (storage_getBlob env uniqKey)) (λ _, mret None) w
  = (inr (match storageFault env (ticks (base w)) (GetBlob uniqKey) with
          | Some _ => None
          | None => blobs (storage (base w)) !! uniqKey
          end),
     mkLinkWorld (mkWorld (storage (base w)) (S (ticks (base w))) (backendCalls (base w)))
       (linkCalls w)).
Proof.
  unfold link_catch, on_base, storage_getBlob, storage_op.
  destruct (storageFault env (ticks (base w)) (GetBlob uniqKey)); reflexivity.
Qed.

(** What a returning [try] block of [preprocessLink] has established: on a
    cache hit no parser ran; on a miss one parser ran, its content was
    stored if it is not empty, and nothing was stored if it is empty. *)
Lemma preprocessLink_try_inr env lenv (url0 : string) (settings : SessionSettings)
    (w w1 : LinkWorld) (r : PreprocessedLink) :
  preprocessLink_try env lenv url0 settings w = (inr r, w1) →
  url r = url0 ∧ error r = None
  ∧ linkUniqKey lenv url0 = inr (storageKey r)
  ∧ (content r ≠ "" → blobs (storage (base w1)) !! storageKey r = Some (content r))
  ∧ ((linkCalls w1 = linkCalls w ∧ content r ≠ "")
     ∨ ((∃ call, linkCalls w1 = (linkCalls w ++ [call])%list)
        ∧ (content r = "" →
             tokenCountMap r = Some ∅ ∧ lineCount r = None ∧ byteLength r = None
             ∧ storage (base w1)
               = left_by_parser env lenv url0 (storage (base w)))
        ∧ (content r ≠ "" →
             ∃ tokens, tokenCountMap r = Some tokens
               ∧ items (storage (base w1)) !! tokenMap_key (storageKey r) = Some tokens))).
Proof.
  unfold preprocessLink_try. intros Hrun.
  apply lm_bind_inr in Hrun as (uniqKey & wa & Hkey & Hrun).
  apply on_base_inr in Hkey as (Hkey & Hla). unfold lift in Hkey. injection Hkey as Hkey Hwa.
  apply lm_bind_inr in Hrun as (existing & wb & Hlookup & Hrun).
  rewrite link_cache_lookup in Hlookup. injection Hlookup as Hexisting <-.
  destruct (truthy_opt existing) eqn:Htruthy.
  - apply lm_bind_inr in Hrun as (tm & wc & Hget & Hrun).
    apply on_base_inr in Hget as (Hget & Hl1).
    apply storage_op_inr in Hget as (_ & _ & Hwc).
    apply lm_bind_inr in Hrun as (now & wd & Hnow & Hrun).
    apply on_base_inr in Hnow as (Hnow & Hl2). injection Hnow as _ Hwd.
    apply lm_bind_inr in Hrun as (meta & we & Hmeta & Hrun).
    apply on_base_inr in Hmeta as (Hmeta & Hl3). unfold lift in Hmeta.
    injection Hmeta as _ Hwe.
    apply lm_bind_inr in Hrun as (u & wf & Hset & Hrun).
    apply on_base_inr in Hset as (Hset & Hl4).
    apply storage_op_inr in Hset as (_ & _ & Hwf). injection Hrun as <- <-. simpl in *.
    split; [done|]. split; [done|]. split; [done|].
    destruct existing as [c|]; [|done]. simpl in *.
    assert (Hblob : blobs (storage (base wa)) !! uniqKey = Some c).
    { by destruct (storageFault env (ticks (base wa)) (GetBlob uniqKey)). }
    split.
    + intros _. rewrite Hwf, <- Hwe, <- Hwd, Hwc. simpl. done.
    + left. split; [congruence | by apply truthy_true].
  - assert (Hfinish : ∀ title0 content0 (wc wd : LinkWorld) call,
              linkCalls wd = (linkCalls w ++ [call])%list →
              storage (base wd) = left_by_parser env lenv url0 (storage (base w)) →
              finish_link env url0 title0 uniqKey content0 wd = (inr r, w1) →
              url r = url0 ∧ error r = None ∧ linkUniqKey lenv url0 = inr (storageKey r)
              ∧ (content r ≠ "" →
                   blobs (storage (base w1)) !! storageKey r = Some (content r))
              ∧ ((linkCalls w1 = linkCalls w ∧ content r ≠ "")
                 ∨ ((∃ call, linkCalls w1 = (linkCalls w ++ [call])%list)
                    ∧ (content r = "" → tokenCountMap r = Some ∅ ∧ lineCount r = None
                         ∧ byteLength r = None
                         ∧ storage (base w1)
                           = left_by_parser env lenv url0 (storage (base w)))
                    ∧ (content r ≠ "" →
                         ∃ tokens, tokenCountMap r = Some tokens
                           ∧ items (storage (base w1)) !! tokenMap_key (storageKey r)
                             = Some tokens)))).
    { intros title0 content0 wc wd call Hcalls Hst Hfin.
      apply finish_link_inr in Hfin
        as (Hu & _ & Hc & Hk & He & Hl & _ & Hempty & Hstored).
      split; [done|]. split; [done|]. split; [congruence|]. rewrite Hc, Hk.
      split; [intros Hne; by destruct (Hstored Hne)|]. right.
      split; [exists call; congruence|]. split.
      - intros ->. destruct (Hempty eq_refl) as (? & ? & ? & ->). done.
      - intros Hne. by destruct (Hstored Hne). }
    unfold left_by_parser in Hfinish |- *.
    destruct (isPro lenv).
    + apply lm_bind_inr in Hrun as (parsed & wc & Hcall & Hrun).
      apply link_call_inr in Hcall as (Hparser & Hcalls). simpl in Hcalls, Hparser.
      apply lm_bind_inr in Hrun as (content0 & wd & Hget & Hrun).
      apply on_base_inr in Hget as (Hget & Hl).
      destruct (getBlob_or_empty_run env (pro_storageKey parsed) (base wc)) as [c Hc].
      rewrite Hc in Hget. injection Hget as _ Hwd.
      eapply (Hfinish _ _ wc wd); [|  |exact Hrun].
      * rewrite Hl, Hcalls. by rewrite Hla.
      * rewrite <- Hwd. simpl. rewrite Hwa, Hparser. done.
    + apply lm_bind_inr in Hrun as (parsed & wc & Hcall & Hrun).
      apply link_call_inr in Hcall as (Hparser & Hcalls). simpl in Hcalls, Hparser.
      apply lm_bind_inr in Hrun as (content0 & wd & Hget & Hrun).
      apply on_base_inr in Hget as (Hget & Hl).
      destruct (getBlob_or_empty_run env (local_key parsed) (base wc)) as [c Hc].
      rewrite Hc in Hget. injection Hget as _ Hwd.
      eapply (Hfinish _ _ wc wd); [|  |exact Hrun].
      * rewrite Hl, Hcalls. by rewrite Hla.
      * rewrite <- Hwd. simpl. rewrite Hwa, Hparser. done.
Qed.


Lemma strip_scheme_http (rest : string) : strip_scheme ("http://" +:+ rest) = rest.
Proof. destruct rest; by vm_compute. Qed.

Lemma strip_scheme_https (rest : string) : strip_scheme ("https://" +:+ rest) = rest.
Proof. destruct rest; by vm_compute. Qed.

Lemma strip_scheme_other (url0 : string) :
  String.prefix "http://" url0 = false → String.prefix "https://" url0 = false →
  strip_scheme url0 = url0.
Proof. intros H1 H2. unfold strip_scheme. by rewrite H1, H2. Qed.

(** X14. [preprocessLink] always returns normally.  When its [try] block
    returns, that value is returned, without an error field.  When the
    [try] block throws, the result carries the thrown message (or
    ["Unknown error"]), empty content and key, and as title the link without
    its leading [http://] or [https://]: for a link [http://rest] or
    [https://rest] the title is [rest], and any other link is its own
    title. *)
Theorem preprocessLink_failure_policy env lenv (url0 : string) (settings : SessionSettings)
    (w : LinkWorld) :
  ∃ res w1, preprocessLink env lenv url0 settings w = (inr res, w1)
    ∧ url res = url0
    ∧ match preprocessLink_try env lenv url0 settings w with
      | (inr r, _) => res = r ∧ error res = None
      | (inl e, _) =>
          error res = Some (error_message e) ∧ title res = strip_scheme url0
          ∧ content res = "" ∧ storageKey res = "" ∧ tokenCountMap res = None
          ∧ (∀ rest, url0 = "http://" +:+ rest → title res = rest)
          ∧ (∀ rest, url0 = "https://" +:+ rest → title res = rest)
          ∧ (String.prefix "http://" url0 = false →
             String.prefix "https://" url0 = false → title res = url0)
      end
    ∧ ∃ scheme, (scheme = "" ∨ scheme = "http://" ∨ scheme = "https://")
                ∧ url0 = scheme +:+ strip_scheme url0.
Proof.
  assert (Hscheme : ∃ scheme, (scheme = "" ∨ scheme = "http://" ∨ scheme = "https://")
                              ∧ url0 = scheme +:+ strip_scheme url0).
  { unfold strip_scheme.
    destruct (String.prefix "http://" url0) eqn:H1.
    { exists "http://". split; [auto|]. by apply (prefix_drop "http://"). }
    destruct (String.prefix "https://" url0) eqn:H2.
    { exists "https://". split; [auto|]. by apply (prefix_drop "https://"). }
    exists "". auto. }
  unfold preprocessLink, link_catch.
  destruct (preprocessLink_try env lenv url0 settings w) as [[e|r] w1] eqn:Hrun.
  - eexists _, _. split; [done|]. cbn [url error title content storageKey tokenCountMap].
    split; [done|]. split; [|exact Hscheme].
    split; [done|]. split; [done|]. split; [done|]. split; [done|]. split; [done|].
    split; [intros rest ->; apply strip_scheme_http|].
    split; [intros rest ->; apply strip_scheme_https|].
    apply strip_scheme_other.
  - apply preprocessLink_try_inr in Hrun as (Hu & He & _).
    exists r, w1. split; [done|]. split; [done|]. split; [done | exact Hscheme].
Qed.

Lemma preprocessLink_failure_policy_witness :
  ∃ res w1, preprocessLink (text_env "" no_fault) no_link_key "https://example.org/a" ∅
              fresh_link_world = (inr res, w1)
            ∧ title res = "example.org/a" ∧ error res = Some "bad url".
Proof.
  destruct (preprocessLink_failure_policy (text_env "" no_fault) no_link_key
              "https://example.org/a" ∅ fresh_link_world) as (res & w1 & Hrun & _ & Hres & _).
  exists res, w1. split; [exact Hrun|].
  destruct (preprocessLink_try (text_env "" no_fault) no_link_key
              "https://example.org/a" ∅ fresh_link_world) as [[e|r] w'] eqn:Htry;
    vm_compute in Htry; [|discriminate].
  injection Htry as <- _. destruct Hres as (He & _ & _ & _ & _ & _ & Ht & _).
  rewrite He, (Ht "example.org/a" eq_refl). split; reflexivity.
Defined.

(** X15. After a successful [preprocessLink] the storage key of the result
    is the key derived from the link, and non-empty content is stored under
    it.  A link whose parser yields no content is still reported as a
    success, with an empty token map and neither line count nor byte length;
    a parser was invoked for it and nothing was written to the content store
    afterwards, so the empty result is not cached. *)
Theorem preprocessLink_result env lenv (url0 : string) (settings : SessionSettings)
    (w w1 : LinkWorld) (r : PreprocessedLink) :
  preprocessLink env lenv url0 settings w = (inr r, w1) →
  error r = None →
  linkUniqKey lenv url0 = inr (storageKey r)
  ∧ (content r ≠ "" → blobs (storage (base w1)) !! storageKey r = Some (content r))
  ∧ (content r = "" →
       tokenCountMap r = Some ∅ ∧ lineCount r = None ∧ byteLength r = None
       ∧ (∃ call, linkCalls w1 = (linkCalls w ++ [call])%list)
       ∧ storage (base w1) = left_by_parser env lenv url0 (storage (base w))).
Proof.
  unfold preprocessLink, link_catch.
  destruct (preprocessLink_try env lenv url0 settings w) as [[e|r'] w'] eqn:Hrun.
  { by intros [= <- _]. }
  intros [= <- <-] _.
  apply preprocessLink_try_inr in Hrun as (_ & _ & Hkey & Hblob & Hcases).
  split; [done|]. split; [done|]. intros Hempty.
  destruct Hcases as [[_ Hne]|(Hcall & He & _)]; [done|].
  by destruct (He Hempty) as (? & ? & ? & ?).
Qed.

Lemma preprocessLink_result_witness :
  ∃ r w1, preprocessLink (text_env "" no_fault) free_user "https://example.org/a" ∅
            fresh_link_world = (inr r, w1)
          ∧ content r = "" ∧ tokenCountMap r = Some ∅ ∧ lineCount r = None.
Proof.
  assert (Hrun : ∃ r w1, preprocessLink (text_env "" no_fault) free_user
                           "https://example.org/a" ∅ fresh_link_world = (inr r, w1)
                         ∧ content r = "" ∧ error r = None).
  { eexists _, _. split; [vm_compute; reflexivity | done]. }
  destruct Hrun as (r & w1 & Hrun & Hc & He).
  exists r, w1. split; [exact Hrun|]. split; [exact Hc|].
  by destruct (preprocessLink_result _ _ _ _ _ _ _ Hrun He) as (_ & _ & Hempty);
    destruct (Hempty Hc) as (? & ? & _).
Defined.

End LinkFacts.

(** ** The planner applied again, and markers already present *)

Section PlannerAgainFacts.
Import Planner.

Lemma withCache_again (m : Message) : withCache (withCache m) = withCache m.
Proof.
  unfold withCache. simpl. f_equal.
  rewrite lookup_insert_eq. simpl. by rewrite !insert_insert_eq.
Qed.

Lemma findIndex_ext {A} (f : A → bool) (l1 l2 : list A) :
  map f l1 = map f l2 → findIndex f l1 = findIndex f l2.
Proof.
  revert l2. induction l1 as [|x l1 IH]; intros [|y l2]; simpl; try done.
  intros [= Hxy Hrest]. rewrite Hxy, (IH l2 Hrest). done.
Qed.

Lemma injectCacheControl_roles (p : list Message) :
  map role (injectCacheControl p) = map role p.
Proof.
  apply list_eq. intros j. rewrite !list_lookup_fmap, injectCacheControl_lookup.
  destruct (p !! j) as [m|]; [|done]. simpl. by destruct (planned p j).
Qed.

Lemma injectCacheControl_planned (p : list Message) (j : nat) :
  planned (injectCacheControl p) j = planned p j.
Proof.
  unfold planned. rewrite injectCacheControl_length.
  rewrite (findIndex_ext isSystem (injectCacheControl p) p); [done|].
  unfold isSystem.
  change (map (λ m, role_eqb (role m) system) (injectCacheControl p))
    with (map ((λ r, role_eqb r system) ∘ role) (injectCacheControl p)).
  change (map (λ m, role_eqb (role m) system) p)
    with (map ((λ r, role_eqb r system) ∘ role) p).
  rewrite <- !(map_map role (λ r, role_eqb r system)).
  by rewrite injectCacheControl_roles.
Qed.

(** X16. Applying [injectCacheControl] to its own result changes nothing:
    the roles, and therefore the positions chosen, are the same, and a
    message that already has the marker gets the same marker again. *)
Theorem injectCacheControl_again (p : list Message) :
  injectCacheControl (injectCacheControl p) = injectCacheControl p
  ∧ map role (injectCacheControl p) = map role p
  ∧ map content (injectCacheControl p) = map content p.
Proof.
  split; [|split; [apply injectCacheControl_roles|]].
  - apply list_eq. intros j.
    rewrite (injectCacheControl_lookup (injectCacheControl p)), injectCacheControl_planned.
    rewrite injectCacheControl_lookup.
    destruct (p !! j) as [m|]; [|done]. simpl.
    destruct (planned p j); [|done]. by rewrite withCache_again.
  - apply list_eq. intros j. rewrite !list_lookup_fmap, injectCacheControl_lookup.
    destruct (p !! j) as [m|]; [|done]. simpl. by destruct (planned p j).
Qed.

Lemma markers_insert (l : list Message) (i : nat) (m : Message) :
  l !! i = Some m →
  (markers l ≤ markers (<[i := withCache m]> l) ≤ markers l + 1)%nat.
Proof.
  revert i. induction l as [|x l IH]; intros [|i] Hi; simpl in *; try done.
  - injection Hi as ->. rewrite withCache_hasMarker. destruct (hasMarker m); lia.
  - specialize (IH i Hi). lia.
Qed.

Lemma markers_mark_at (i : Z) (l : list Message) :
  (markers l ≤ markers (mark_at i l) ≤ markers l + 1)%nat.
Proof.
  unfold mark_at. destruct (0 <=? i); [|lia].
  destruct (l !! Z.to_nat i) as [m|] eqn:Hi; [|lia].
  by apply markers_insert.
Qed.

(** X17. For any prompt, also one whose messages already carry markers,
    [injectCacheControl] removes no marker and adds at most two. *)
Theorem injectCacheControl_markers (p : list Message) :
  (∀ j m, p !! j = Some m → hasMarker m = true →
     hasMarker <$> injectCacheControl p !! j = Some true)
  ∧ (markers p ≤ markers (injectCacheControl p) ≤ markers p + 2)%nat.
Proof.
  split.
  - intros j m Hj Hm. rewrite injectCacheControl_lookup, Hj. simpl.
    destruct (planned p j); simpl; [by rewrite withCache_hasMarker | by rewrite Hm].
  - unfold injectCacheControl.
    destruct (Z.of_nat (length p) =? 0); [lia|].
    set (sysIdx := findIndex (λ m, role_eqb (role m) system) p).
    assert (Hfirst : (markers p
                      ≤ markers (if negb (sysIdx =? -1)%Z then mark_at sysIdx p else p)
                      ≤ markers p + 1)%nat).
    { destruct (negb (sysIdx =? -1)%Z); [apply markers_mark_at | lia]. }
    set (result := if negb (sysIdx =? -1)%Z then mark_at sysIdx p else p) in *.
    destruct (3 <=? Z.of_nat (length result)); [|lia].
    destruct (negb (Z.of_nat (length result) - 2 =? sysIdx)); [|lia].
    pose proof (markers_mark_at (Z.of_nat (length result) - 2) result). lia.
Qed.

End PlannerAgainFacts.

(** ** The order of the scan, and a rejected load *)

Section ScanFacts.
Import Ingestion Search SearchSpec.

(** X18. A search over all sessions examines the stored sessions in the
    order of the sorted session list, skipping only list entries that the
    store no longer holds: the sessions examined are an initial part of the
    stored ones, and all of them when the search completes with fewer than
    50 matches. *)
Theorem searchSessions_order env (searchInput : string) (sessionId : option string)
    (list : list SessionMeta) :
  truthy_opt sessionId = false →
  getItem_sessionsList env = inr list →
  let run := searchSessions env searchInput sessionId in
  ∃ rest,
    stored_sessions env (sortSessions env list) = (scanned run ++ rest)%list
    ∧ (outcome run = inr () → matched_count (emitted run) < 50 → rest = []).
Proof.
  intros Hid Hlist. unfold searchSessions. rewrite Hid, Hlist.
  destruct (scan_prefix env (escape searchInput) (sortSessions env list) 0)
    as (rest & Hrest & Hall).
  exists rest. split; [done|]. intros Hout Hlt. apply Hall; [done | lia].
Qed.

Lemma searchSessions_order_witness :
  stored_sessions scenario_D (sortSessions scenario_D
    (map (λ s, mkMeta (session_id s) (session_name s)) [session_one; session_two; session_three]))
  = scanned (searchSessions scenario_D "errorXYZ" None).
Proof.
  destruct (searchSessions_order scenario_D "errorXYZ" None
              (map (λ s, mkMeta (session_id s) (session_name s))
                 [session_one; session_two; session_three]) eq_refl eq_refl)
    as (rest & Hrest & Hall).
  rewrite Hrest, Hall; [by rewrite app_nil_r | by vm_compute | by vm_compute].
Defined.


(** X19. When loading a session is rejected during a search over all
    sessions, before 50 matches have been found, the search is rejected with
    that error; the batches of the sessions before it have already been
    emitted, in order, and no later session is examined. *)
Theorem searchSessions_rejected env (searchInput : string) (sessionId : option string)
    (list pre post : list SessionMeta) (sessionMeta : SessionMeta) (e : Thrown) :
  truthy_opt sessionId = false →
  getItem_sessionsList env = inr list →
  sortSessions env list = (pre ++ sessionMeta :: post)%list →
  all_load env pre →
  getItem_session env (session_key env (meta_id sessionMeta)) = inl e →
  matched_count (batches_of env (escape searchInput) (stored_sessions env pre)) < 50 →
  let run := searchSessions env searchInput sessionId in
  outcome run = inl e
  ∧ scanned run = stored_sessions env pre
  ∧ emitted run = batches_of env (escape searchInput) (stored_sessions env pre).
Proof.
  intros Hid Hlist Hsorted Hload Hbad Hlt. unfold searchSessions.
  rewrite Hid, Hlist, Hsorted, (scan_rejected _ _ _ _ _ e); [done..|lia].
Qed.

Lemma searchSessions_rejected_witness :
  outcome (searchSessions broken_third "errorXYZ" None) = inl (ThrownError "read failed")
  ∧ map session_id (scanned (searchSessions broken_third "errorXYZ" None)) = ["s2"; "s1"]
  ∧ length (emitted (searchSessions broken_third "errorXYZ" None)) = 1%nat.
Proof.
  destruct (searchSessions_rejected broken_third "errorXYZ" None
              (map (λ s, mkMeta (session_id s) (session_name s))
                 [session_two; session_one; session_three])
              [mkMeta "s2" "second"; mkMeta "s1" "first"] [] (mkMeta "s3" "third")
              (ThrownError "read failed") eq_refl eq_refl eq_refl)
    as (Hout & Hscanned & Hemitted).
  - intros x Hx. apply elem_of_cons in Hx as [->|Hx]; [by eexists|].
    apply list_elem_of_singleton in Hx as ->. by eexists.
  - reflexivity.
  - by vm_compute.
  - rewrite Hout, Hscanned, Hemitted. by vm_compute.
Defined.

End ScanFacts.
